(** * Verification of the arkai orchestrator, ingest queue and span resolver

    Shallow embedding of the Rust sources under [src/src]:
    - [core/orchestrator.rs], [core/event_store.rs], [core/safety.rs],
      [core/pipeline.rs] and [domain/run.rs] (pipeline runs);
    - [ingest/queue.rs] (the voice ingest queue);
    - [evidence/spans.rs] (quote location and anchor text).

    Bytes are [Z] values in [0, 256); a Rust [&str] or [&[u8]] is a
    [list Z] of its UTF-8 bytes, or a Stdlib [string] (one [ascii] per
    byte) where only byte equality matters. *)

From Stdlib Require Import ZArith List String Ascii Bool Lia QArith Qminmax.
From Stdlib Require Import Floats Uint63.
From Stdlib Require Import Permutation Sorted.
Import ListNotations.

Open Scope Z_scope.

(* ------------------------------------------------------------------ *)
(** ** SHA-256 (the [sha2] crate's [Sha256]) and lowercase hex *)

Module Sha256.

Definition mask32 : Z := 4294967295.
Definition add32 (x y : Z) : Z := (x + y) mod 4294967296.
Definition rotr (x : Z) (n : Z) : Z :=
  Z.land (Z.lor (Z.shiftr x n) (Z.shiftl x (32 - n))) mask32.

Definition ch (x y z : Z) : Z :=
  Z.lxor (Z.land x y) (Z.land (Z.lxor x mask32) z).
Definition maj (x y z : Z) : Z :=
  Z.lxor (Z.land x y) (Z.lxor (Z.land x z) (Z.land y z)).
Definition bsig0 (x : Z) : Z := Z.lxor (rotr x 2) (Z.lxor (rotr x 13) (rotr x 22)).
Definition bsig1 (x : Z) : Z := Z.lxor (rotr x 6) (Z.lxor (rotr x 11) (rotr x 25)).
Definition ssig0 (x : Z) : Z := Z.lxor (rotr x 7) (Z.lxor (rotr x 18) (Z.shiftr x 3)).
Definition ssig1 (x : Z) : Z := Z.lxor (rotr x 17) (Z.lxor (rotr x 19) (Z.shiftr x 10)).

(** The round constants and the initial hash value are the leading 32
    fractional bits of the cube roots of the first 64 primes and of the
    square roots of the first 8 primes (FIPS 180-4, 4.2.2 and 5.3.3). *)
Definition is_prime (p : Z) : bool :=
  (1 <? p) && forallb (fun d => negb (p mod d =? 0))
                      (map Z.of_nat (seq 2 (Z.to_nat (Z.sqrt p) - 1))).

Definition primes64 : list Z :=
  firstn 64 (filter is_prime (map Z.of_nat (seq 2 310))).

(** Largest [x] in [[lo, hi)] with [x^3 <= n], by bisection. *)
Fixpoint icbrt_go (fuel : nat) (lo hi n : Z) : Z :=
  match fuel with
  | O => lo
  | S f =>
      if hi - lo <=? 1 then lo
      else let mid := (lo + hi) / 2 in
           if mid * mid * mid <=? n then icbrt_go f mid hi n
           else icbrt_go f lo mid n
  end.

Definition icbrt (n : Z) : Z := icbrt_go 64 0 (2 ^ 40) n.

Definition K : list Z :=
  map (fun p => icbrt (p * 2 ^ 96) mod 2 ^ 32) primes64.

Definition H0 : list Z :=
  map (fun p => Z.sqrt (p * 2 ^ 64) mod 2 ^ 32) (firstn 8 primes64).

(** Big-endian 32-bit words of a 64-byte block. *)
Fixpoint be_words (bs : list Z) : list Z :=
  match bs with
  | b0 :: b1 :: b2 :: b3 :: rest =>
      (b0 * 16777216 + b1 * 65536 + b2 * 256 + b3) :: be_words rest
  | _ => []
  end.

Definition word_bytes (w : Z) : list Z :=
  [Z.shiftr w 24 mod 256; Z.shiftr w 16 mod 256; Z.shiftr w 8 mod 256; w mod 256].

(** Message schedule: extend the 16 block words to 64. *)
Fixpoint schedule (n : nat) (w : list Z) : list Z :=
  match n with
  | O => w
  | S n' =>
      let t := List.length w in
      let wt := add32 (add32 (ssig1 (nth (t - 2) w 0)) (nth (t - 7) w 0))
                      (add32 (ssig0 (nth (t - 15) w 0)) (nth (t - 16) w 0)) in
      schedule n' (w ++ [wt])
  end.

Definition round (st : list Z) (kw : Z * Z) : list Z :=
  match st with
  | [a; b; c; d; e; f; g; h] =>
      let t1 := add32 (add32 (add32 h (bsig1 e)) (add32 (ch e f g) (fst kw))) (snd kw) in
      let t2 := add32 (bsig0 a) (maj a b c) in
      [add32 t1 t2; a; b; c; add32 d t1; e; f; g]
  | _ => st
  end.

Definition compress (hs : list Z) (block : list Z) : list Z :=
  let w := schedule 48 (be_words block) in
  let st := fold_left round (combine K w) hs in
  map (fun p => add32 (fst p) (snd p)) (combine hs st).

Fixpoint process (fuel : nat) (hs : list Z) (msg : list Z) : list Z :=
  match fuel with
  | O => hs
  | S f =>
      match msg with
      | [] => hs
      | _ => process f (compress hs (firstn 64 msg)) (skipn 64 msg)
      end
  end.

Definition pad (msg : list Z) : list Z :=
  let l := Z.of_nat (List.length msg) in
  let k := (55 - l) mod 64 in
  let bitlen := l * 8 in
  msg ++ [128] ++ repeat 0 (Z.to_nat k)
      ++ word_bytes (Z.shiftr bitlen 32) ++ word_bytes (bitlen mod 4294967296).

(** The 32-byte digest. *)
Definition digest (msg : list Z) : list Z :=
  let p := pad msg in
  flat_map word_bytes (process (List.length p / 64) H0 p).

(** Lowercase hex, two digits per byte ([{:x}] / [{:02x}]). *)
Definition hex_digit (n : Z) : ascii :=
  if n <? 10 then ascii_of_nat (48 + Z.to_nat n)
  else ascii_of_nat (87 + Z.to_nat n).

Fixpoint hex_encode (bs : list Z) : string :=
  match bs with
  | [] => EmptyString
  | b :: rest => String (hex_digit (b / 16)) (String (hex_digit (b mod 16)) (hex_encode rest))
  end.

End Sha256.

(* ------------------------------------------------------------------ *)
(** ** The voice ingest queue ([ingest/queue.rs]) *)

Module Queue.

Open Scope string_scope.

(** [crate::domain::VoiceQueueStatus]; its four variants are those matched
    exhaustively by [VoiceQueue::status]. *)
Inductive VoiceQueueStatus := Pending | Processing | Done | Failed.

Definition status_eqb (a b : VoiceQueueStatus) : bool :=
  match a, b with
  | Pending, Pending | Processing, Processing | Done, Done | Failed, Failed => true
  | _, _ => false
  end.

Inductive QueueEventType := Enqueued | ProcessingStarted | Completed | QFailed | ResetForRetry.

Record QueueItemData := {
  file_path : string;
  file_name : string;
  file_size : Z;          (* u64 *)
  detected_at : Z         (* DateTime<Utc>, as a timestamp *)
}.

(** The [data] JSON value of a queue event: the serialized
    [QueueItemData] of an [Enqueued] event, the [{"error": ..}] object of a
    [Failed] event, or any other JSON value. *)
Inductive QueueData :=
  | DItem (d : QueueItemData)
  | DError (e : string)
  | DOther.

Record QueueEvent := {
  timestamp : Z;
  item_id : string;
  event_type : QueueEventType;
  data : option QueueData
}.

Record QueueItem := {
  id : string;
  status : VoiceQueueStatus;
  idata : QueueItemData;
  started_at : option Z;
  completed_at : option Z;
  error : option string;
  retry_count : Z         (* u32 *)
}.

(** [serde_json::from_value::<QueueItemData>] *)
Definition item_data_of (v : QueueData) : option QueueItemData :=
  match v with DItem d => Some d | _ => None end.

(** [data.get("error").and_then(|e| e.as_str())] *)
Definition error_of (v : QueueData) : option string :=
  match v with DError e => Some e | _ => None end.

(** [HashMap<String, QueueItem>] as an association list without duplicate
    keys: [get], [insert] (replacing in place) and [get_mut]. *)
Definition Items := list (string * QueueItem).

Fixpoint items_get (k : string) (m : Items) : option QueueItem :=
  match m with
  | [] => None
  | (k', v) :: rest => if String.eqb k k' then Some v else items_get k rest
  end.

Fixpoint items_insert (k : string) (v : QueueItem) (m : Items) : Items :=
  match m with
  | [] => [(k, v)]
  | (k', v') :: rest =>
      if String.eqb k k' then (k, v) :: rest else (k', v') :: items_insert k v rest
  end.

Fixpoint items_modify (k : string) (f : QueueItem -> QueueItem) (m : Items) : Items :=
  match m with
  | [] => []
  | (k', v) :: rest =>
      if String.eqb k k' then (k', f v) :: rest else (k', v) :: items_modify k f rest
  end.

(** [u32] increment ([+= 1]) with its wrap-around. *)
Definition u32_incr (x : Z) : Z := (x + 1) mod 4294967296.

(** [VoiceQueue::apply_event] *)
Definition apply_event (items : Items) (ev : QueueEvent) : Items :=
  match event_type ev with
  | Enqueued =>
      match data ev with
      | Some v =>
          match item_data_of v with
          | Some d =>
              items_insert (item_id ev)
                {| id := item_id ev; status := Pending; idata := d;
                   started_at := None; completed_at := None; error := None;
                   retry_count := 0 |} items
          | None => items
          end
      | None => items
      end
  | ProcessingStarted =>
      items_modify (item_id ev)
        (fun it => {| id := id it; status := Processing; idata := idata it;
                      started_at := Some (timestamp ev); completed_at := completed_at it;
                      error := error it; retry_count := retry_count it |}) items
  | Completed =>
      items_modify (item_id ev)
        (fun it => {| id := id it; status := Done; idata := idata it;
                      started_at := started_at it; completed_at := Some (timestamp ev);
                      error := error it; retry_count := retry_count it |}) items
  | QFailed =>
      items_modify (item_id ev)
        (fun it => {| id := id it; status := Failed; idata := idata it;
                      started_at := started_at it; completed_at := Some (timestamp ev);
                      error := match data ev with
                               | Some v => match error_of v with
                                           | Some e => Some e
                                           | None => error it
                                           end
                               | None => error it
                               end;
                      retry_count := retry_count it |}) items
  | ResetForRetry =>
      items_modify (item_id ev)
        (fun it => {| id := id it; status := Pending; idata := idata it;
                      started_at := None; completed_at := None;
                      error := None; retry_count := u32_incr (retry_count it) |}) items
  end.

(** A line of the queue JSONL file: a record that [serde_json] parses to
    a [QueueEvent], a blank line, or a line that fails to parse. The
    serialization written by [append_event] is taken to parse back to the
    event it came from, and never to contain a newline. *)
Inductive QLine := QRecord (ev : QueueEvent) | QBlank | QBad.

Inductive VoiceQueueError :=
  | NotFound (id : string)
  | AlreadyExists (id : string)
  | Io
  | Serialization
  | InvalidTransition (from to : VoiceQueueStatus).

(** [VoiceQueue::replay]: fold [apply_event] over the lines in file order;
    blank lines are skipped, an unparsable line fails the replay. It and
    the readers below take the lines [lines()] yields from the file
    ([file_lines] of a [QFile] below). *)
Fixpoint replay_from (items : Items) (file : list QLine) : option Items :=
  match file with
  | [] => Some items
  | QRecord ev :: rest => replay_from (apply_event items ev) rest
  | QBlank :: rest => replay_from items rest
  | QBad :: _ => None
  end.

Definition replay (file : list QLine) : Items + VoiceQueueError :=
  match replay_from [] file with
  | Some items => inl items
  | None => inr Serialization
  end.

(** The last line of a queue file that does not end in '\n' (a file
    written only by [append_event] always ends in one). [lines()] yields
    it all the same: a record, a line of JSON whitespace only (' ', '\t',
    '\r'), another line that [trim] leaves empty, or a line that does not
    parse. *)
Inductive QTail := QTRecord (ev : QueueEvent) | QTSpace | QTBlank | QTBad.

Definition qtail_line (t : QTail) : QLine :=
  match t with
  | QTRecord ev => QRecord ev
  | QTSpace | QTBlank => QBlank
  | QTBad => QBad
  end.

(** The queue file's bytes: the lines that end in '\n', in order, then
    possibly a last line without one. An empty (or missing) file has
    neither. *)
Record QFile := { qlines : list QLine; qtail : option QTail }.

Definition empty_file : QFile := {| qlines := []; qtail := None |}.

(** The lines [BufReader::lines] yields from the file. *)
Definition file_lines (f : QFile) : list QLine :=
  qlines f ++ match qtail f with Some t => [qtail_line t] | None => [] end.

(** The line that [append_event]'s write of [ev]'s JSON and '\n' ends
    when the file ended in the unterminated line [t]: the two are one line
    now. [serde_json] skips JSON whitespace before the object; after a
    record it finds trailing characters, and no other text before a
    complete JSON object makes one JSON value of the line. *)
Definition glue (t : QTail) (ev : QueueEvent) : QLine :=
  match t with
  | QTSpace => QRecord ev
  | QTRecord _ | QTBlank | QTBad => QBad
  end.

(** [VoiceQueue::append_event]: [format!("{}\n", json)] written at the
    end of the file (opened with [append(true)]). *)
Definition append_event (file : QFile) (ev : QueueEvent) : QFile :=
  match qtail file with
  | None => {| qlines := qlines file ++ [QRecord ev]; qtail := None |}
  | Some t => {| qlines := qlines file ++ [glue t ev]; qtail := None |}
  end.

(** [compute_file_hash]: the first 12 characters of the lowercase hex
    SHA-256 of the file's bytes ([format!("{:x}", result)[..12]]). *)
Definition compute_file_hash (content : list Z) : string :=
  substring 0 12 (Sha256.hex_encode (Sha256.digest content)).

(** [Path::file_name] on a '/'-separated path: the last normal component
    (empty and "." components dropped; ".." or nothing gives [None]),
    then [unwrap_or_default]. *)
Fixpoint split_slash (acc : string) (s : string) : list string :=
  match s with
  | EmptyString => [acc]
  | String c rest =>
      if Ascii.eqb c "/"%char then acc :: split_slash EmptyString rest
      else split_slash (acc ++ String c EmptyString) rest
  end.

Definition path_file_name (p : string) : string :=
  let comps := filter (fun c => negb (String.eqb c "" || String.eqb c "."))
                      (split_slash EmptyString p) in
  match rev comps with
  | last :: _ => if String.eqb last ".." then "" else last
  | [] => ""
  end.

(** [Path::to_str] (needed by [serde_json::to_value] of the [PathBuf]
    [file_path]): [Some] exactly when the path's bytes are well-formed
    UTF-8 (shortest forms, no surrogates, at most U+10FFFF). *)
Definition byte_in (c : ascii) (lo hi : nat) : bool :=
  (lo <=? nat_of_ascii c)%nat && (nat_of_ascii c <=? hi)%nat.

Fixpoint utf8_valid (s : string) : bool :=
  match s with
  | EmptyString => true
  | String c rest =>
      let b := nat_of_ascii c in
      if (b <? 128)%nat then utf8_valid rest
      else if byte_in c 194 223 then
        match rest with
        | String c1 r => byte_in c1 128 191 && utf8_valid r
        | EmptyString => false
        end
      else if byte_in c 224 239 then
        match rest with
        | String c1 (String c2 r) =>
            byte_in c1 (if (b =? 224)%nat then 160 else 128) (if (b =? 237)%nat then 159 else 191)
            && byte_in c2 128 191 && utf8_valid r
        | _ => false
        end
      else if byte_in c 240 244 then
        match rest with
        | String c1 (String c2 (String c3 r)) =>
            byte_in c1 (if (b =? 240)%nat then 144 else 128) (if (b =? 244)%nat then 143 else 191)
            && byte_in c2 128 191 && byte_in c3 128 191 && utf8_valid r
        | _ => false
        end
      else false
  end.

Inductive EnqueueResult :=
  | Queued (h : string)
  | AlreadyQueued (h : string)
  | AlreadyProcessed (h : string)
  | EResetForRetry (h : string).

(** [VoiceQueue::enqueue] for a file at [path] (its bytes, as a Unix
    [OsStr]) holding the bytes [content], at wall-clock time [now]; returns
    the result and the queue file after the call. [serde_json::to_value]
    of the item data fails on a path that is not UTF-8, before anything is
    written; on a UTF-8 path [to_string_lossy] of its file name is that
    name. *)
Definition enqueue (file : QFile) (path : string) (content : list Z)
    (size : Z) (detected : Z) (now : Z)
    : (EnqueueResult + VoiceQueueError) * QFile :=
  let hash := compute_file_hash content in
  match replay (file_lines file) with
  | inr e => (inr e, file)
  | inl items =>
      match items_get hash items with
      | Some existing =>
          match status existing with
          | Done => (inl (AlreadyProcessed hash), file)
          | Failed =>
              let ev := {| timestamp := now; item_id := hash;
                           event_type := ResetForRetry; data := None |} in
              (inl (EResetForRetry hash), append_event file ev)
          | _ => (inl (AlreadyQueued hash), file)
          end
      | None =>
          if utf8_valid path then
            let d := {| file_path := path; file_name := path_file_name path;
                        file_size := size; detected_at := detected |} in
            let ev := {| timestamp := now; item_id := hash;
                         event_type := Enqueued; data := Some (DItem d) |} in
            (inl (Queued hash), append_event file ev)
          else (inr Serialization, file)
      end
  end.

(** [VoiceQueue::mark_processing] *)
Definition mark_processing (file : QFile) (qid : string) (now : Z)
    : (unit + VoiceQueueError) * QFile :=
  match replay (file_lines file) with
  | inr e => (inr e, file)
  | inl items =>
      match items_get qid items with
      | None => (inr (NotFound qid), file)
      | Some it =>
          if negb (status_eqb (status it) Pending) then
            (inr (InvalidTransition (status it) Processing), file)
          else
            let ev := {| timestamp := now; item_id := qid;
                         event_type := ProcessingStarted; data := None |} in
            (inl tt, append_event file ev)
      end
  end.

(** [VoiceQueue::mark_done] and [VoiceQueue::mark_failed] *)
Definition mark_done (file : QFile) (qid : string) (now : Z) : QFile :=
  append_event file {| timestamp := now; item_id := qid; event_type := Completed; data := None |}.

Definition mark_failed (file : QFile) (qid : string) (err : string) (now : Z) : QFile :=
  append_event file {| timestamp := now; item_id := qid; event_type := QFailed;
                       data := Some (DError err) |}.

(** [VoiceQueue::get] *)
Definition get (file : list QLine) (qid : string) : option QueueItem + VoiceQueueError :=
  match replay file with
  | inl items => inl (items_get qid items)
  | inr e => inr e
  end.

(** [slice::sort_by] with comparator [cmp]: a stable sort, here by
    insertion (each element goes after every element it does not
    precede). *)
Fixpoint insert_by (cmp : QueueItem -> QueueItem -> comparison) (x : QueueItem)
    (l : list QueueItem) : list QueueItem :=
  match l with
  | [] => [x]
  | y :: rest =>
      match cmp x y with
      | Lt => x :: y :: rest
      | _ => y :: insert_by cmp x rest
      end
  end.

Definition sort_by (cmp : QueueItem -> QueueItem -> comparison) (l : list QueueItem)
    : list QueueItem :=
  fold_left (fun acc x => insert_by cmp x acc) l [].

Definition by_detected_at (a b : QueueItem) : comparison :=
  Z.compare (detected_at (idata a)) (detected_at (idata b)).

(** [VoiceQueue::get_pending]: the [Pending] items of the replayed map
    ([into_values], in the map's iteration order), sorted oldest first. *)
Definition get_pending (file : list QLine) : list QueueItem + VoiceQueueError :=
  match replay file with
  | inl items =>
      inl (sort_by by_detected_at
             (filter (fun it => status_eqb (status it) Pending) (map snd items)))
  | inr e => inr e
  end.

(** [QueueStatus] *)
Record QueueStatus := {
  pending : nat;
  processing : nat;
  done : nat;
  failed : nat;
  recent : list QueueItem
}.

(** [QueueStatus::total] *)
Definition total (st : QueueStatus) : nat :=
  (pending st + processing st + done st + failed st)%nat.

Definition count_item (st : QueueStatus) (it : QueueItem) : QueueStatus :=
  match status it with
  | Pending => {| pending := S (pending st); processing := processing st;
                  done := done st; failed := failed st; recent := recent st |}
  | Processing => {| pending := pending st; processing := S (processing st);
                     done := done st; failed := failed st; recent := recent st |}
  | Done => {| pending := pending st; processing := processing st;
               done := S (done st); failed := failed st; recent := recent st |}
  | Failed => {| pending := pending st; processing := processing st;
                 done := done st; failed := S (failed st); recent := recent st |}
  end.

(** [VoiceQueue::status]: counts by status, and the five most recently
    detected items ([sort_by(|a, b| b.detected_at.cmp(&a.detected_at))],
    [take(5)]). *)
Definition queue_status (file : list QLine) : QueueStatus + VoiceQueueError :=
  match replay file with
  | inl items =>
      let st := fold_left count_item (map snd items)
                  {| pending := 0; processing := 0; done := 0; failed := 0; recent := [] |} in
      inl {| pending := pending st; processing := processing st; done := done st;
             failed := failed st;
             recent := firstn 5 (sort_by (fun a b => by_detected_at b a) (map snd items)) |}
  | inr e => inr e
  end.

(** [EnqueueResult::id] and [EnqueueResult::is_new] *)
Definition result_id (r : EnqueueResult) : string :=
  match r with
  | Queued h | AlreadyQueued h | AlreadyProcessed h | EResetForRetry h => h
  end.

Definition is_new (r : EnqueueResult) : bool :=
  match r with Queued _ => true | _ => false end.

End Queue.

(* ------------------------------------------------------------------ *)
(** ** Span resolution ([evidence/spans.rs]) *)

Module Spans.

(** Byte-slice equality ([&[u8] == &[u8]]). *)
Fixpoint bytes_eqb (a b : list Z) : bool :=
  match a, b with
  | [], [] => true
  | x :: a', y :: b' => (x =? y) && bytes_eqb a' b'
  | _, _ => false
  end.

(** [find_exact_matches]: the sliding-window search, pushing
    [(i, i + quote_len)] for every [i] in [0..=(len - quote_len)] whose
    window equals the quote. *)
Definition find_exact_matches (transcript quote : list Z) : list (nat * nat) :=
  let qlen := List.length quote in
  let tlen := List.length transcript in
  if (qlen =? 0)%nat || (tlen <? qlen)%nat then []
  else
    fold_left
      (fun acc i =>
         if bytes_eqb (firstn qlen (skipn i transcript)) quote
         then acc ++ [(i, (i + qlen)%nat)] else acc)
      (seq 0 (tlen - qlen + 1)) [].

(** [char::is_whitespace] (Unicode White_Space) read off the UTF-8 bytes:
    the length of the whitespace character the bytes start with, or 0.
    U+0009..U+000D, U+0020, U+0085, U+00A0, U+1680, U+2000..U+200A,
    U+2028, U+2029, U+202F, U+205F, U+3000. *)
Definition ws_len (l : list Z) : nat :=
  match l with
  | [] => 0
  | b0 :: r0 =>
      if ((9 <=? b0) && (b0 <=? 13)) || (b0 =? 32) then 1
      else
        match r0 with
        | b1 :: r1 =>
            if (b0 =? 0xC2) && ((b1 =? 0x85) || (b1 =? 0xA0)) then 2
            else
              match r1 with
              | b2 :: _ =>
                  if ((b0 =? 0xE1) && (b1 =? 0x9A) && (b2 =? 0x80))
                     || ((b0 =? 0xE2) && (b1 =? 0x80)
                         && (((0x80 <=? b2) && (b2 <=? 0x8A))
                             || (b2 =? 0xA8) || (b2 =? 0xA9) || (b2 =? 0xAF)))
                     || ((b0 =? 0xE2) && (b1 =? 0x81) && (b2 =? 0x9F))
                     || ((b0 =? 0xE3) && (b1 =? 0x80) && (b2 =? 0x80))
                  then 3 else 0
              | [] => 0
              end
        | [] => 0
        end
  end.

(** [str::split_whitespace]: the maximal non-whitespace runs. [cur] is the
    current word, reversed; [fuel] bounds the number of characters. *)
Fixpoint words (fuel : nat) (l cur : list Z) : list (list Z) :=
  let flush := match cur with [] => [] | _ => [rev cur] end in
  match fuel with
  | O => flush
  | S f =>
      match l with
      | [] => flush
      | b :: rest =>
          match ws_len l with
          | O => words f rest (b :: cur)
          | n => flush ++ words f (skipn n l) []
          end
      end
  end.

Fixpoint join_space (ws : list (list Z)) : list Z :=
  match ws with
  | [] => []
  | [w] => w
  | w :: rest => w ++ [32] ++ join_space rest
  end.

(** [normalize_whitespace]: [split_whitespace().collect().join(" ")]. *)
Definition normalize_whitespace (text : list Z) : list Z :=
  join_space (words (S (List.length text)) text []).

(** [str::contains(&str)]: some window equals the needle (the empty
    needle is always contained). *)
Definition contains (hay needle : list Z) : bool :=
  existsb (fun i => bytes_eqb (firstn (List.length needle) (skipn i hay)) needle)
          (seq 0 (S (List.length hay - List.length needle)))
  && (List.length needle <=? List.length hay)%nat.

(** [has_normalized_match] *)
Definition has_normalized_match (transcript quote : list Z) : bool :=
  contains (normalize_whitespace transcript) (normalize_whitespace quote).

Record MatchResult := {
  matches : list (nat * nat);
  normalized_hint : bool
}.

Inductive MatchStatus := Resolved | Ambiguous | Unresolved.

(** [MatchResult::status] *)
Definition status (r : MatchResult) : MatchStatus :=
  match matches r with
  | [] => Unresolved
  | [_] => Resolved
  | _ => Ambiguous
  end.

(** [MatchResult::selected_match] *)
Definition selected_match (r : MatchResult) : option (nat * nat) :=
  hd_error (matches r).

(** [MatchResult::match_info]: [(match_count, match_rank)]. *)
Definition match_info (r : MatchResult) : nat * nat :=
  (List.length (matches r), 1%nat).

(** [find_quote] *)
Definition find_quote (transcript quote : list Z) : MatchResult :=
  let ms := find_exact_matches transcript quote in
  {| matches := ms;
     normalized_hint := match ms with
                        | [] => has_normalized_match transcript quote
                        | _ => false
                        end |}.

(** *** UTF-8 *)

(** Lead bytes of well-formed UTF-8 (Unicode Table 3-7, as checked by
    [core::str::from_utf8]): the number of continuation bytes and the
    range allowed for the first of them. *)
Definition lead_class (b : Z) : option (nat * Z * Z) :=
  if (0 <=? b) && (b <=? 0x7F) then Some (0%nat, 0, 0)
  else if (0xC2 <=? b) && (b <=? 0xDF) then Some (1%nat, 0x80, 0xBF)
  else if b =? 0xE0 then Some (2%nat, 0xA0, 0xBF)
  else if ((0xE1 <=? b) && (b <=? 0xEC)) || ((0xEE <=? b) && (b <=? 0xEF))
       then Some (2%nat, 0x80, 0xBF)
  else if b =? 0xED then Some (2%nat, 0x80, 0x9F)
  else if b =? 0xF0 then Some (3%nat, 0x90, 0xBF)
  else if (0xF1 <=? b) && (b <=? 0xF3) then Some (3%nat, 0x80, 0xBF)
  else if b =? 0xF4 then Some (3%nat, 0x80, 0x8F)
  else None.

Definition in_range (lo hi b : Z) : bool := (lo <=? b) && (b <=? hi).

(** A continuation byte [10xxxxxx]. *)
Definition is_cont (b : Z) : bool := in_range 0x80 0xBF b.

(** Well-formed UTF-8: what a Rust [&str] always holds. *)
Fixpoint utf8_valid (l : list Z) : bool :=
  match l with
  | [] => true
  | b0 :: r0 =>
      match lead_class b0 with
      | Some (O, _, _) => utf8_valid r0
      | Some (S O, lo, hi) =>
          match r0 with
          | b1 :: r1 => in_range lo hi b1 && utf8_valid r1
          | _ => false
          end
      | Some (S (S O), lo, hi) =>
          match r0 with
          | b1 :: b2 :: r2 => in_range lo hi b1 && is_cont b2 && utf8_valid r2
          | _ => false
          end
      | Some (S (S (S O)), lo, hi) =>
          match r0 with
          | b1 :: b2 :: b3 :: r3 =>
              in_range lo hi b1 && is_cont b2 && is_cont b3 && utf8_valid r3
          | _ => false
          end
      | _ => false
      end
  end.

(** [str::is_char_boundary]: index 0, the end, or an index whose byte is
    not a continuation byte ([(b as i8) >= -0x40]). *)
Definition is_char_boundary (s : list Z) (i : nat) : bool :=
  match i with
  | O => true
  | _ =>
      match nth_error s i with
      | None => (i =? List.length s)%nat
      | Some b => negb (is_cont b)
      end
  end.

(** [&s[a..b]] on a [str]: [None] where Rust panics. *)
Definition str_slice (s : list Z) (a b : nat) : option (list Z) :=
  if (a <=? b)%nat && is_char_boundary s a && is_char_boundary s b
  then Some (firstn (b - a) (skipn a s))
  else None.

(** [while anchor_start > 0 && !is_char_boundary(anchor_start) { anchor_start -= 1 }] *)
Fixpoint snap_back (s : list Z) (i : nat) : nat :=
  match i with
  | O => O
  | S k => if is_char_boundary s (S k) then S k else snap_back s k
  end.

(** [while anchor_end < len && !is_char_boundary(anchor_end) { anchor_end += 1 }] *)
Fixpoint snap_fwd (s : list Z) (fuel i : nat) : nat :=
  match fuel with
  | O => i
  | S f =>
      if (i <? List.length s)%nat && negb (is_char_boundary s i)
      then snap_fwd s f (S i) else i
  end.

Definition ellipsis : list Z := [46; 46; 46].

(** [extract_anchor_text]; [None] where the Rust code panics (slicing
    off a boundary, or [usize] overflow of [end - start] or
    [end + each_side] under overflow checks). *)
Definition extract_anchor_text (transcript : list Z) (start end_ window : nat)
    : option (list Z) :=
  let len := List.length transcript in
  if (end_ <? start)%nat then None else
  let span_len := (end_ - start)%nat in
  let remaining := (window - span_len)%nat in
  let each_side := Nat.div remaining 2 in
  let anchor_start := snap_back transcript (start - each_side) in
  if Z.of_nat (end_ + each_side) >=? 2 ^ 64 then None else
  let anchor_end0 := Nat.min (end_ + each_side) len in
  let anchor_end := snap_fwd transcript (len - anchor_end0) anchor_end0 in
  match str_slice transcript anchor_start anchor_end with
  | None => None
  | Some anchor =>
      let prefix := if (0 <? anchor_start)%nat then ellipsis else [] in
      let suffix := if (anchor_end <? len)%nat then ellipsis else [] in
      Some (prefix ++ anchor ++ suffix)
  end.

End Spans.

(* ------------------------------------------------------------------ *)
(** ** Retry policy ([core/pipeline.rs]), over IEEE-754 binary64 *)

Module Retry.

(** [RetryPolicy]; [backoff_multiplier] is an [f64]. *)
Record RetryPolicy := {
  max_attempts : Z;          (* u32 *)
  initial_delay_ms : Z;      (* u64 *)
  max_delay_ms : Z;          (* u64 *)
  backoff_multiplier : float
}.

Definition default_policy : RetryPolicy :=
  {| max_attempts := 3; initial_delay_ms := 1000; max_delay_ms := 30000;
     backoff_multiplier := PrimFloat.of_uint63 2%uint63 |}.

(** [x as f64] for a [u64] [x]: both halves are exact in binary64, so the
    single rounding of the sum is the correctly rounded conversion. *)
Definition f64_of_u64 (x : Z) : float :=
  PrimFloat.add
    (PrimFloat.mul (PrimFloat.of_uint63 (Uint63.of_Z (x / 4294967296)))
                   (PrimFloat.of_uint63 (Uint63.of_Z 4294967296)))
    (PrimFloat.of_uint63 (Uint63.of_Z (x mod 4294967296))).

(** [x as u64] for an [f64] [x]: truncation toward zero, saturating
    (NaN and negatives give 0, values past [u64::MAX] give [u64::MAX]). *)
Definition u64_of_f64 (x : float) : Z :=
  match Prim2SF x with
  | S754_finite false m e =>
      let v := if 0 <=? e then Z.pos m * 2 ^ e else Z.shiftr (Z.pos m) (- e) in
      Z.min v (2 ^ 64 - 1)
  | S754_infinity false => 2 ^ 64 - 1
  | _ => 0
  end.

(** [f64::min]: a NaN operand yields the other operand. *)
Definition f64_min (x y : float) : float :=
  if PrimFloat.is_nan x then y
  else if PrimFloat.is_nan y then x
  else if PrimFloat.ltb x y then x else y.

(** [f64::powi], i.e. LLVM's [llvm.powi] as lowered to compiler-rt's
    [__powidf2]: square-and-multiply over the bits of the [i32] exponent,
    reciprocal at the end for a negative exponent. *)
Fixpoint powi_loop (fuel : nat) (a r : float) (b : Z) : float :=
  match fuel with
  | O => r
  | S f =>
      let r' := if Z.odd b then PrimFloat.mul r a else r in
      let b' := Z.quot b 2 in
      if b' =? 0 then r' else powi_loop f (PrimFloat.mul a a) r' b'
  end.

Definition powi (a : float) (b : Z) : float :=
  let r := powi_loop 32 a (PrimFloat.of_uint63 1%uint63) b in
  if b <? 0 then PrimFloat.div (PrimFloat.of_uint63 1%uint63) r else r.

(** [u32 as i32] *)
Definition i32_of_u32 (x : Z) : Z := if x <? 2 ^ 31 then x else x - 2 ^ 32.

(** [RetryPolicy::delay_for_attempt], in milliseconds
    ([Duration::from_millis]). *)
Definition delay_for_attempt (p : RetryPolicy) (attempt : Z) : Z :=
  if attempt <=? 1 then initial_delay_ms p
  else
    let delay := PrimFloat.mul (f64_of_u64 (initial_delay_ms p))
                               (powi (backoff_multiplier p) (i32_of_u32 (attempt - 1))) in
    u64_of_f64 (f64_min delay (f64_of_u64 (max_delay_ms p))).

(** [RetryPolicy::should_retry] *)
Definition should_retry (p : RetryPolicy) (attempt : Z) : bool := attempt <? max_attempts p.

End Retry.

(* ------------------------------------------------------------------ *)
(** ** Events, runs and the event store ([domain/*.rs], [core/event_store.rs]) *)

Module Orch.

Open Scope string_scope.

(** String-keyed [HashMap] as an association list without duplicate keys. *)
Section AMap.
Context {A : Type}.
Definition amap := list (string * A).

Fixpoint amap_get (k : string) (m : amap) : option A :=
  match m with
  | [] => None
  | (k', v) :: rest => if String.eqb k k' then Some v else amap_get k rest
  end.

Fixpoint amap_insert (k : string) (v : A) (m : amap) : amap :=
  match m with
  | [] => [(k, v)]
  | (k', v') :: rest =>
      if String.eqb k k' then (k, v) :: rest else (k', v') :: amap_insert k v rest
  end.
End AMap.
Arguments amap : clear implicits.

Inductive EventType :=
  | RunStarted | RunCompleted | RunFailed | StepStarted | StepCompleted
  | StepFailed | StepRetrying | SafetyLimitReached.

Inductive StepStatus := SPending | SRunning | SCompleted | SFailed | SSkipped.

(** [Event]. The event id, timestamp and payload summary (fresh UUID,
    wall-clock time, display text) are not modelled; run ids are their
    hyphenated text. *)
Record Event := {
  run_id : string;
  step_id : option string;
  event_type : EventType;
  idempotency_key : string;
  ev_status : StepStatus;
  duration_ms : option Z;
  ev_error : option string
}.

(** [Event::new] *)
Definition mk_event (rid : string) (sid : option string) (et : EventType)
    (key : string) (st : StepStatus) : Event :=
  {| run_id := rid; step_id := sid; event_type := et; idempotency_key := key;
     ev_status := st; duration_ms := None; ev_error := None |}.

Definition with_duration (e : Event) (d : Z) : Event :=
  {| run_id := run_id e; step_id := step_id e; event_type := event_type e;
     idempotency_key := idempotency_key e; ev_status := ev_status e;
     duration_ms := Some d; ev_error := ev_error e |}.

Definition with_error (e : Event) (msg : string) : Event :=
  {| run_id := run_id e; step_id := step_id e; event_type := event_type e;
     idempotency_key := idempotency_key e; ev_status := ev_status e;
     duration_ms := duration_ms e; ev_error := Some msg |}.

(** [SafetyViolation] *)
Inductive SafetyViolation :=
  | MaxSteps (actual limit : Z)
  | MaxInputBytes (actual limit : Z)
  | MaxOutputBytes (actual limit : Z)
  | StepTimeout (elapsed limit : Z)
  | RunTimeout (elapsed limit : Z)
  | DenylistMatch (path : string).

(** The errors an orchestrator call can end with ([anyhow::Error]). *)
Inductive Error :=
  | ESafety (v : SafetyViolation)
  | EExec (msg : string)
  | EMissingStep (step ref : string)       (* non-existent artifact from step *)
  | EMissingArtifact (step ref : string)   (* non-existent artifact *)
  | ENoEvents (rid : string)
  | EReconstruct
  | EParse.

(** Decimal rendering of a non-negative integer ([{}] on [u32]/[u64]). *)
Fixpoint digits_rev (fuel : nat) (n : Z) : list ascii :=
  match fuel with
  | O => []
  | S f =>
      let d := ascii_of_nat (48 + Z.to_nat (n mod 10)) in
      if (n <? 10)%Z then [d] else d :: digits_rev f (n / 10)%Z
  end.

Definition z_to_dec (n : Z) : string :=
  string_of_list_ascii (rev (digits_rev 25 n)).

(** [Display] of [SafetyViolation] (its [#[error(..)]] texts). *)
Definition violation_to_string (v : SafetyViolation) : string :=
  match v with
  | MaxSteps a l => "Maximum steps exceeded: " ++ z_to_dec a ++ " >= " ++ z_to_dec l
  | MaxInputBytes a l => "Maximum input bytes exceeded: " ++ z_to_dec a ++ " > " ++ z_to_dec l
  | MaxOutputBytes a l => "Maximum output bytes exceeded: " ++ z_to_dec a ++ " > " ++ z_to_dec l
  | StepTimeout e l => "Step timeout: " ++ z_to_dec e ++ "s >= " ++ z_to_dec l ++ "s"
  | RunTimeout e l => "Run timeout: " ++ z_to_dec e ++ "s >= " ++ z_to_dec l ++ "s"
  | DenylistMatch p => "Path matches denylist pattern: " ++ p
  end.

(** [error.to_string()] *)
Definition error_to_string (e : Error) : string :=
  match e with
  | ESafety v => violation_to_string v
  | EExec msg => msg
  | EMissingStep st r =>
      "Step '" ++ st ++ "' references non-existent artifact from step '" ++ r ++ "'"
  | EMissingArtifact st r =>
      "Step '" ++ st ++ "' references non-existent artifact '" ++ r ++ "'"
  | ENoEvents rid => "No events found for run " ++ rid
  | EReconstruct => "Failed to reconstruct run state"
  | EParse => "Failed to parse event"
  end.

(** [RunState] *)
Variant RunState :=
  | Running
  | Paused
  | RCompleted
  | RFailed (error : string)
  | RSafetyLimitReached (limit : string).

(** [Artifact] (kind and creation time not modelled). *)
Record Artifact := { art_step_name : string; content : string }.

(** [Artifact::from_output] *)
Definition from_output (name out : string) : Artifact :=
  {| art_step_name := name; content := out |}.

(** [Run] (timestamps not modelled). *)
Record Run := {
  id : string;
  pipeline_name : string;
  input : string;
  state : RunState;
  current_step : nat;
  artifacts : amap Artifact;
  step_statuses : amap StepStatus
}.

Definition set_state (r : Run) (s : RunState) : Run :=
  {| id := id r; pipeline_name := pipeline_name r; input := input r; state := s;
     current_step := current_step r; artifacts := artifacts r;
     step_statuses := step_statuses r |}.

Definition set_current_step (r : Run) (n : nat) : Run :=
  {| id := id r; pipeline_name := pipeline_name r; input := input r; state := state r;
     current_step := n; artifacts := artifacts r; step_statuses := step_statuses r |}.

Definition set_step_status (r : Run) (name : string) (s : StepStatus) : Run :=
  {| id := id r; pipeline_name := pipeline_name r; input := input r; state := state r;
     current_step := current_step r; artifacts := artifacts r;
     step_statuses := amap_insert name s (step_statuses r) |}.

Definition insert_artifact (r : Run) (name : string) (a : Artifact) : Run :=
  {| id := id r; pipeline_name := pipeline_name r; input := input r; state := state r;
     current_step := current_step r; artifacts := amap_insert name a (artifacts r);
     step_statuses := step_statuses r |}.

(** [Run::new] *)
Definition new_run (rid pname inp : string) : Run :=
  {| id := rid; pipeline_name := pname; input := inp; state := Running;
     current_step := 0; artifacts := []; step_statuses := [] |}.

(** [Run::apply_event] *)
Definition apply_event (r : Run) (e : Event) : Run :=
  match event_type e with
  | RunStarted => set_state r Running
  | RunCompleted => set_state r RCompleted
  | RunFailed => set_state r (RFailed (match ev_error e with Some s => s | None => "" end))
  | StepStarted =>
      match step_id e with Some s => set_step_status r s SRunning | None => r end
  | StepCompleted =>
      match step_id e with
      | Some s => set_current_step (set_step_status r s SCompleted) (S (current_step r))
      | None => r
      end
  | StepFailed =>
      match step_id e with Some s => set_step_status r s SFailed | None => r end
  | StepRetrying =>
      match step_id e with Some s => set_step_status r s SRunning | None => r end
  | SafetyLimitReached =>
      set_state r (RSafetyLimitReached (match ev_error e with Some s => s | None => "" end))
  end.

(** [Run::from_events] *)
Definition from_events (events : list Event) : option Run :=
  match events with
  | [] => None
  | first :: _ =>
      Some (fold_left apply_event events
              {| id := run_id first; pipeline_name := ""; input := ""; state := Running;
                 current_step := 0; artifacts := []; step_statuses := [] |})
  end.

(** A line of [events.jsonl]: a record [serde_json] parses to an [Event]
    (the line [append] writes for an event parses back to it and holds no
    newline), a blank line, or a line that fails to parse. *)
Inductive ELine := ERecord (e : Event) | EBlank | EBad.

(** The per-run directory as the orchestrator keeps it: [events.jsonl]
    as its lines, each ending in '\n' (the file [append] alone writes, see
    [EventsFile] below for any file), and [artifacts/{step}.md] by step
    name. *)
Record Store := { log : list ELine; disk : amap string }.

(** [EventStore::replay] *)
Fixpoint replay_lines (ls : list ELine) : option (list Event) :=
  match ls with
  | [] => Some []
  | ERecord e :: rest => option_map (cons e) (replay_lines rest)
  | EBlank :: rest => replay_lines rest
  | EBad :: _ => None
  end.

(** [EventStore::append] *)
Definition store_append (s : Store) (e : Event) : Store :=
  {| log := log s ++ [ERecord e]; disk := disk s |}.

(** The last line of [events.jsonl] when the file does not end in '\n':
    [lines()] yields it as a record, a line of JSON whitespace only (' ',
    '\t', '\r'), another line that [trim] leaves empty, or a line that
    does not parse. *)
Inductive ETail := ETRecord (e : Event) | ETSpace | ETBlank | ETBad.

Definition etail_line (t : ETail) : ELine :=
  match t with
  | ETRecord e => ERecord e
  | ETSpace | ETBlank => EBlank
  | ETBad => EBad
  end.

(** [events.jsonl] byte for byte: the lines that end in '\n', then
    possibly a last line without one. *)
Record EventsFile := { elines : list ELine; etail : option ETail }.

(** The lines [BufReader::lines] yields from the file. *)
Definition events_lines (f : EventsFile) : list ELine :=
  elines f ++ match etail f with Some t => [etail_line t] | None => [] end.

(** The line that [append]'s write of [e]'s JSON and '\n' ends when the
    file ended in the unterminated line [t]: [serde_json] skips JSON
    whitespace before the object; after a record it finds trailing
    characters, and no other text before a complete JSON object makes one
    JSON value of the line. *)
Definition eglue (t : ETail) (e : Event) : ELine :=
  match t with
  | ETSpace => ERecord e
  | ETRecord _ | ETBlank | ETBad => EBad
  end.

(** [EventStore::append] on the file: [format!("{}\n", json)] written at
    its end (opened with [append(true)]). *)
Definition file_append (f : EventsFile) (e : Event) : EventsFile :=
  match etail f with
  | None => {| elines := elines f ++ [ERecord e]; etail := None |}
  | Some t => {| elines := elines f ++ [eglue t e]; etail := None |}
  end.

(** [EventStore::is_step_completed] on the file. *)
Definition file_is_step_completed (f : EventsFile) (key : string) : option bool :=
  match replay_lines (events_lines f) with
  | Some evs =>
      Some (existsb (fun e => String.eqb (idempotency_key e) key
                              && match event_type e with StepCompleted => true | _ => false end) evs)
  | None => None
  end.

(** [EventStore::is_step_completed] *)
Definition store_is_step_completed (s : Store) (key : string) : option bool :=
  match replay_lines (log s) with
  | Some evs =>
      Some (existsb (fun e => String.eqb (idempotency_key e) key
                              && match event_type e with StepCompleted => true | _ => false end) evs)
  | None => None
  end.

(** [EventStore::store_artifact] and [EventStore::load_artifact] *)
Definition store_store_artifact (s : Store) (step content : string) : Store :=
  {| log := log s; disk := amap_insert step content (disk s) |}.

Definition store_load_artifact (s : Store) (step : string) : option string :=
  amap_get step (disk s).

Definition bytes_of_string (s : string) : list Z :=
  map (fun c => Z.of_nat (nat_of_ascii c)) (list_ascii_of_string s).

(** [hash_input]: the first 8 bytes of SHA-256 in lowercase hex. *)
Definition hash_input (inp : string) : string :=
  Sha256.hex_encode (firstn 8 (Sha256.digest (bytes_of_string inp))).

(** [generate_idempotency_key] *)
Definition generate_idempotency_key (rid step inp : string) : string :=
  rid ++ ":" ++ step ++ ":" ++ hash_input inp.

(** [Run::is_running], [Run::is_finished], [Run::is_step_completed] *)
Definition is_running (r : Run) : bool :=
  match state r with Running => true | _ => false end.

Definition is_finished (r : Run) : bool := negb (is_running r).

Definition run_is_step_completed (r : Run) (step_name : string) : bool :=
  match amap_get step_name (step_statuses r) with
  | Some SCompleted => true
  | _ => false
  end.

Definition event_type_eqb (a b : EventType) : bool :=
  match a, b with
  | RunStarted, RunStarted | RunCompleted, RunCompleted | RunFailed, RunFailed
  | StepStarted, StepStarted | StepCompleted, StepCompleted | StepFailed, StepFailed
  | StepRetrying, StepRetrying | SafetyLimitReached, SafetyLimitReached => true
  | _, _ => false
  end.

(** [EventStore::find_events] and [EventStore::last_event_of_type] *)
Definition store_find_events (s : Store) (pred : Event -> bool) : option (list Event) :=
  option_map (filter pred) (replay_lines (log s)).

Definition store_last_event_of_type (s : Store) (t : EventType) : option (option Event) :=
  option_map (fun evs => find (fun e => event_type_eqb (event_type e) t) (rev evs))
             (replay_lines (log s)).

End Orch.

(* ------------------------------------------------------------------ *)
(** ** Hashes, ids and positions for evidence spans ([evidence/spans.rs]) *)

Module Evidence.

Import Sha256 Spans.

(** [compute_hash]: ["sha256:"] and the lowercase hex digest. *)
Definition compute_hash (bytes : list Z) : string :=
  String.append "sha256:" (hex_encode (digest bytes)).

(** [compute_slice_hash]; [None] where [&transcript[start..end]] panics. *)
Definition compute_slice_hash (transcript : list Z) (start end_ : nat) : option string :=
  if (start <=? end_)%nat && (end_ <=? List.length transcript)%nat
  then Some (compute_hash (firstn (end_ - start) (skipn start transcript)))
  else None.

(** [compute_evidence_id]: the hasher is fed the three strings and, for a
    span, the decimal texts of its ends, one after the other; the id is
    the first 8 digest bytes in hex. *)
Definition compute_evidence_id (content_id extractor quote_sha256 : string)
    (span : option (nat * nat)) : string :=
  let tail := match span with
              | Some (s, e) => (Orch.bytes_of_string (Orch.z_to_dec (Z.of_nat s))
                                ++ Orch.bytes_of_string (Orch.z_to_dec (Z.of_nat e)))%list
              | None => []
              end in
  hex_encode (firstn 8 (digest (Orch.bytes_of_string content_id
                                ++ Orch.bytes_of_string extractor
                                ++ Orch.bytes_of_string quote_sha256 ++ tail)%list)).

(** [LineCol] *)
Record LineCol := { line : nat; col : nat }.

(** [str::matches('\n').count()] for a byte (in UTF-8 the byte 10 only
    ever encodes ['\n']). *)
Definition count_byte (b : Z) (l : list Z) : nat := List.length (filter (Z.eqb b) l).

(** [str::rfind('\n')]: the index of the last such byte. *)
Fixpoint rfind_go (b : Z) (i : nat) (l : list Z) (acc : option nat) : option nat :=
  match l with
  | [] => acc
  | x :: rest => rfind_go b (S i) rest (if x =? b then Some i else acc)
  end.

Definition rfind_byte (b : Z) (l : list Z) : option nat := rfind_go b 0 l None.

(** [str::chars().count()]: the bytes that are not continuation bytes
    (the standard library counts characters exactly so). *)
Definition char_count (l : list Z) : nat :=
  List.length (filter (fun x => negb (is_cont x)) l).

(** [offset_to_line_col]; [None] where one of its two slices panics. *)
Definition offset_to_line_col (transcript : list Z) (offset : nat) : option LineCol :=
  match str_slice transcript 0 (Nat.min offset (List.length transcript)) with
  | None => None
  | Some prefix =>
      let ln := S (count_byte 10 prefix) in
      let line_start := match rfind_byte 10 prefix with Some i => S i | None => 0%nat end in
      match str_slice transcript line_start offset with
      | None => None
      | Some seg => Some {| line := ln; col := S (char_count seg) |}
      end
  end.

(** [s.split(':')] *)
Fixpoint split_byte (sep : Z) (cur : list Z) (l : list Z) : list (list Z) :=
  match l with
  | [] => [rev cur]
  | x :: rest =>
      if x =? sep then rev cur :: split_byte sep [] rest
      else split_byte sep (x :: cur) rest
  end.

(** [char::is_ascii_digit]; over a well-formed string, all characters
    are ASCII digits exactly when all bytes are. *)
Definition is_ascii_digit (b : Z) : bool := (48 <=? b) && (b <=? 57).

(** [is_timestamp] *)
Definition is_timestamp (s : list Z) : bool :=
  let parts := split_byte 58 [] s in
  negb ((List.length parts <? 2)%nat || (3 <? List.length parts)%nat)
  && forallb (fun p => (List.length p <=? 2)%nat && forallb is_ascii_digit p) parts.

(** [bytes[i..].iter().position(|&b| b == c)] *)
Fixpoint position_byte (c : Z) (l : list Z) : option nat :=
  match l with
  | [] => None
  | x :: rest => if x =? c then Some 0%nat else option_map S (position_byte c rest)
  end.

(** The scanning loop of [find_nearest_timestamp] from index [i]; [fuel]
    bounds the iterations, each of which advances [i]. The slice
    [&prefix[i + 1..i + end]] is cut right after a ['['] and right before
    a [']'], both ASCII, so it is always on character boundaries. *)
Fixpoint nts_go (fuel : nat) (bytes : list Z) (i : nat) (last : option (list Z))
    : option (list Z) :=
  match fuel with
  | O => last
  | S f =>
      if (i <? List.length bytes)%nat then
        if nth i bytes 0 =? 91 then
          match position_byte 93 (skipn i bytes) with
          | Some e =>
              let content := firstn (e - 1) (skipn (S i) bytes) in
              nts_go f bytes (S (i + e))
                     (if is_timestamp content then Some content else last)
          | None => nts_go f bytes (S i) last
          end
        else nts_go f bytes (S i) last
      else last
  end.

(** [find_nearest_timestamp]; the outer [None] is the panic of
    [&transcript[..offset.min(len)]] off a character boundary. *)
Definition find_nearest_timestamp (transcript : list Z) (offset : nat)
    : option (option (list Z)) :=
  match str_slice transcript 0 (Nat.min offset (List.length transcript)) with
  | None => None
  | Some prefix => Some (nts_go (List.length prefix) prefix 0 None)
  end.

End Evidence.

(* ------------------------------------------------------------------ *)
(** ** Safety limits, pipelines and the orchestrator
       ([core/safety.rs], [core/pipeline.rs], [core/orchestrator.rs]) *)

Module Engine.

Import Orch.
Open Scope string_scope.
Open Scope Z_scope.

(** [SafetyLimits] *)
Record SafetyLimits := {
  max_steps : Z;                 (* u32 *)
  max_input_bytes : Z;           (* u64 *)
  max_output_bytes : Z;          (* u64 *)
  step_timeout_seconds : Z;      (* u64 *)
  run_timeout_seconds : Z;       (* u64 *)
  denylist_patterns : list string
}.

(** [SafetyTracker]; [started_at] and the clock are in milliseconds. *)
Record SafetyTracker := {
  steps_executed : Z;            (* u32 *)
  t_input_bytes : Z;             (* u64 *)
  t_output_bytes : Z;            (* u64 *)
  started_at : Z
}.

Definition u64_add (x y : Z) : Z := (x + y) mod 2 ^ 64.

(** [SafetyTracker::new] at clock [now]. *)
Definition new_tracker (now : Z) : SafetyTracker :=
  {| steps_executed := 0; t_input_bytes := 0; t_output_bytes := 0; started_at := now |}.

(** [SafetyTracker::record_step] *)
Definition record_step (t : SafetyTracker) (inb outb : Z) : SafetyTracker :=
  {| steps_executed := Queue.u32_incr (steps_executed t);
     t_input_bytes := u64_add (t_input_bytes t) inb;
     t_output_bytes := u64_add (t_output_bytes t) outb;
     started_at := started_at t |}.

Definition add_output_bytes (t : SafetyTracker) (n : Z) : SafetyTracker :=
  {| steps_executed := steps_executed t; t_input_bytes := t_input_bytes t;
     t_output_bytes := u64_add (t_output_bytes t) n; started_at := started_at t |}.

(** [SafetyLimits::validate_output] *)
Definition validate_output (lim : SafetyLimits) (out : string) : option SafetyViolation :=
  let size := Z.of_nat (String.length out) in
  if max_output_bytes lim <? size then Some (MaxOutputBytes size (max_output_bytes lim)) else None.

(** [SafetyLimits::check] at clock [now] (milliseconds). *)
Definition check (lim : SafetyLimits) (t : SafetyTracker) (now : Z) : option SafetyViolation :=
  if max_steps lim <=? steps_executed t then Some (MaxSteps (steps_executed t) (max_steps lim))
  else
    let elapsed := (now - started_at t) / 1000 in
    if run_timeout_seconds lim <=? elapsed then Some (RunTimeout elapsed (run_timeout_seconds lim))
    else None.

(** [AdapterType], [InputSource], [Step], [Pipeline]. A [Static] value is
    held as its [serde_json::to_string] text. *)
Inductive AdapterType := Fabric.

Inductive InputSource :=
  | PipelineInput
  | PreviousStep (previous_step : string)
  | FromArtifact (artifact : string)
  | Static (json : string).

Record Step := {
  step_name : string;
  adapter : AdapterType;
  action : string;
  input_from : InputSource;
  retry_policy : Retry.RetryPolicy;
  timeout_seconds : option Z
}.

Record Pipeline := {
  name : string;
  description : string;
  safety_limits : SafetyLimits;
  steps : list Step
}.

(** [Step::timeout], in seconds. *)
Definition step_timeout (s : Step) (lim : SafetyLimits) : Z :=
  match timeout_seconds s with Some t => t | None => step_timeout_seconds lim end.

(** [Orchestrator::resolve_input] *)
Definition resolve_input (pinput : string) (arts : amap Artifact) (s : Step) : string + Error :=
  match input_from s with
  | PipelineInput => inl pinput
  | PreviousStep p =>
      match amap_get p arts with
      | Some a => inl (content a)
      | None => inr (EMissingStep (step_name s) p)
      end
  | FromArtifact a =>
      match amap_get a arts with
      | Some x => inl (content x)
      | None => inr (EMissingArtifact (step_name s) a)
      end
  | Static j => inl j
  end.

(** The state an orchestrator call threads: the run's store, the number
    of executor calls so far, the monotonic clock (ms), and the [&mut Run]
    and [&mut SafetyTracker] locals. *)
Record St := {
  store : Store;
  calls : nat;
  clock : Z;
  run : Run;
  tracker : SafetyTracker
}.

(** A state and error monad: [Result<A>] with the state kept on error. *)
Definition M (A : Type) : Type := St -> (A + Error) * St.

Definition ret {A} (a : A) : M A := fun s => (inl a, s).
Definition bind {A B} (m : M A) (k : A -> M B) : M B :=
  fun s => match m s with
           | (inl a, s') => k a s'
           | (inr e, s') => (inr e, s')
           end.
Definition throw {A} (e : Error) : M A := fun s => (inr e, s).
(** [match m { Ok(a) => k(a), Err(e) => h(e) }] *)
Definition catch {A B} (m : M A) (h : Error -> M B) (k : A -> M B) : M B :=
  fun s => match m s with
           | (inl a, s') => k a s'
           | (inr e, s') => h e s'
           end.

Notation "x <- m ;; k" := (bind m (fun x => k))
  (at level 61, m at next level, right associativity).
Notation "m ;;; k" := (bind m (fun _ => k))
  (at level 61, right associativity).

Definition get_run : M Run := fun s => (inl (run s), s).
Definition get_tracker : M SafetyTracker := fun s => (inl (tracker s), s).
Definition now : M Z := fun s => (inl (clock s), s).

Definition put_run (r : Run) : M unit :=
  fun s => (inl tt, {| store := store s; calls := calls s; clock := clock s;
                       run := r; tracker := tracker s |}).
Definition modify_run (f : Run -> Run) : M unit := fun s => put_run (f (run s)) s.
Definition put_tracker (t : SafetyTracker) : M unit :=
  fun s => (inl tt, {| store := store s; calls := calls s; clock := clock s;
                       run := run s; tracker := t |}).
Definition modify_tracker (f : SafetyTracker -> SafetyTracker) : M unit :=
  fun s => put_tracker (f (tracker s)) s.

(** [store.append(&event)] *)
Definition append (e : Event) : M unit :=
  fun s => (inl tt, {| store := store_append (store s) e; calls := calls s;
                       clock := clock s; run := run s; tracker := tracker s |}).

(** [store.store_artifact(step, content)] *)
Definition store_artifact (step out : string) : M unit :=
  fun s => (inl tt, {| store := store_store_artifact (store s) step out; calls := calls s;
                       clock := clock s; run := run s; tracker := tracker s |}).

(** [store.replay()] and [store.is_step_completed(key)] *)
Definition replay : M (list Event) :=
  fun s => match replay_lines (log (store s)) with
           | Some evs => (inl evs, s)
           | None => (inr EParse, s)
           end.

Definition is_step_completed (key : string) : M bool :=
  fun s => match store_is_step_completed (store s) key with
           | Some b => (inl b, s)
           | None => (inr EParse, s)
           end.

(** [tokio::time::sleep(delay)] *)
Definition sleep (ms : Z) : M unit :=
  fun s => (inl tt, {| store := store s; calls := calls s; clock := clock s + ms;
                       run := run s; tracker := tracker s |}).

Section Orchestrator.

(** [FabricAdapter::execute(action, input, timeout)], the action executor:
    given the number of executor calls made so far, the action, the input
    and the timeout (seconds), its [Ok(output.content)] or [Err] message
    and the milliseconds the call took. *)
Variable execute : nat -> string -> string -> Z -> (string + string) * Z.

(** [glob::Pattern::new(pattern)] compiled and matched against a path
    ([false] for a pattern that does not compile). *)
Variable glob_matches : string -> string -> bool.

(** [SafetyLimits::is_denylisted] *)
Definition is_denylisted (lim : SafetyLimits) (path : string) : bool :=
  existsb (fun pat => glob_matches pat path) (denylist_patterns lim).

(** [SafetyLimits::validate_input] *)
Definition validate_input (lim : SafetyLimits) (inp : string) (source_path : option string)
    : option SafetyViolation :=
  let size := Z.of_nat (String.length inp) in
  if max_input_bytes lim <? size then Some (MaxInputBytes size (max_input_bytes lim))
  else
    match source_path with
    | Some p => if is_denylisted lim p then Some (DenylistMatch p) else None
    | None => None
    end.

Definition call_executor (act inp : string) (timeout : Z) : M (string + string) :=
  fun s => let '(r, dt) := execute (calls s) act inp timeout in
           (inl r, {| store := store s; calls := S (calls s); clock := clock s + dt;
                      run := run s; tracker := tracker s |}).

(** The retry loop of [execute_step_with_retry], from attempt number
    [attempt]; [fuel] bounds the number of retries. *)
Fixpoint attempt_loop (fuel : nat) (s : Step) (inp : string) (lim : SafetyLimits)
    (key : string) (attempt : Z) : M Artifact :=
  let nm := step_name s in
  let pol := retry_policy s in
  t0 <- now ;;
  r <- get_run ;;
  append (mk_event (id r) (Some nm) StepStarted key SRunning) ;;;
  modify_run (fun r => set_step_status r nm SRunning) ;;;
  res <- call_executor (action s) inp (step_timeout s lim) ;;
  t1 <- now ;;
  let dur := t1 - t0 in
  match res with
  | inl out =>
      match validate_output lim out with
      | Some v => throw (ESafety v)
      | None =>
          modify_tracker (fun t => add_output_bytes t (Z.of_nat (String.length out))) ;;;
          store_artifact nm out ;;;
          append (with_duration (mk_event (id r) (Some nm) StepCompleted key SCompleted) dur) ;;;
          modify_run (fun r => set_step_status r nm SCompleted) ;;;
          ret (from_output nm out)
      end
  | inr msg =>
      let final :=
        append (with_error (with_duration (mk_event (id r) (Some nm) StepFailed key SFailed) dur) msg) ;;;
        modify_run (fun r => set_step_status r nm SFailed) ;;;
        throw (EExec msg) in
      if Retry.should_retry pol attempt then
        match fuel with
        | S f =>
            let delay := Retry.delay_for_attempt pol attempt in
            append (with_error (mk_event (id r) (Some nm) StepRetrying
                                  (key ++ ":retry:" ++ z_to_dec attempt) SRunning) msg) ;;;
            sleep delay ;;;
            attempt_loop f s inp lim key (attempt + 1)
        | O => final
        end
      else final
  end.

(** [Orchestrator::execute_step_with_retry] *)
Definition execute_step_with_retry (s : Step) (inp : string) (lim : SafetyLimits) : M Artifact :=
  r <- get_run ;;
  let key := generate_idempotency_key (id r) (step_name s) inp in
  done <- is_step_completed key ;;
  if done then
    match amap_get (step_name s) (artifacts r) with
    | Some a => ret a
    | None => ret (from_output (step_name s) "")
    end
  else attempt_loop (Z.to_nat (Retry.max_attempts (retry_policy s))) s inp lim key 1.

(** [Orchestrator::handle_safety_violation] *)
Definition handle_safety_violation (v : SafetyViolation) : M Run :=
  r <- get_run ;;
  let msg := violation_to_string v in
  put_run (set_state r (RSafetyLimitReached msg)) ;;;
  append (with_error (mk_event (id r) None SafetyLimitReached (id r ++ ":safety") SFailed) msg) ;;;
  get_run.

(** [Orchestrator::handle_run_failure] *)
Definition handle_run_failure (e : Error) : M Run :=
  r <- get_run ;;
  let msg := error_to_string e in
  put_run (set_state r (RFailed msg)) ;;;
  append (with_error (mk_event (id r) None RunFailed (id r ++ ":complete") SFailed) msg) ;;;
  get_run.

(** [Orchestrator::complete_run] *)
Definition complete_run : M Run :=
  r <- get_run ;;
  put_run (set_state r RCompleted) ;;;
  append (mk_event (id r) None RunCompleted (id r ++ ":complete") SCompleted) ;;;
  get_run.

(** The step loop of [Orchestrator::run_pipeline] from step index [idx]. *)
Fixpoint run_steps (lim : SafetyLimits) (pinput : string) (idx : nat)
    (ss : list Step) (arts : amap Artifact) : M Run :=
  match ss with
  | [] => complete_run
  | s :: rest =>
      modify_run (fun r => set_current_step r idx) ;;;
      t <- now ;;
      tr <- get_tracker ;;
      match check lim tr t with
      | Some v => handle_safety_violation v
      | None =>
          match resolve_input pinput arts s with
          | inr e => throw e
          | inl sin =>
              match validate_input lim sin None with
              | Some v => throw (ESafety v)
              | None =>
                catch (execute_step_with_retry s sin lim)
                  handle_run_failure
                  (fun a =>
                     modify_run (fun r => insert_artifact r (step_name s) a) ;;;
                     modify_tracker (fun t => record_step t (Z.of_nat (String.length sin)) 0) ;;;
                     run_steps lim pinput (S idx) rest (amap_insert (step_name s) a arts))
              end
          end
      end
  end.

(** [Orchestrator::run_pipeline] for the fresh run id [rid]. *)
Definition run_pipeline (p : Pipeline) (inp rid : string) : M Run :=
  put_run (new_run rid (name p) inp) ;;;
  t <- now ;;
  put_tracker (new_tracker t) ;;;
  append (mk_event rid None RunStarted (rid ++ ":start") SRunning) ;;;
  run_steps (safety_limits p) inp 0 (steps p) [].

(** [steps.iter().enumerate()] *)
Definition enumerate {A} (l : list A) : list (nat * A) := combine (seq 0 (List.length l)) l.

(** The step loop of [Orchestrator::resume_run]. *)
Fixpoint resume_steps (lim : SafetyLimits) (rid pinput : string)
    (ss : list (nat * Step)) (arts : amap Artifact) : M Run :=
  match ss with
  | [] => complete_run
  | (idx, s) :: rest =>
      modify_run (fun r => set_current_step r idx) ;;;
      t <- now ;;
      tr <- get_tracker ;;
      match check lim tr t with
      | Some v => handle_safety_violation v
      | None =>
          match resolve_input pinput arts s with
          | inr e => throw e
          | inl sin =>
              let key := generate_idempotency_key rid (step_name s) sin in
              done <- is_step_completed key ;;
              if done then resume_steps lim rid pinput rest arts
              else
                catch (execute_step_with_retry s sin lim)
                  handle_run_failure
                  (fun a =>
                     modify_run (fun r => insert_artifact r (step_name s) a) ;;;
                     modify_tracker (fun t => record_step t (Z.of_nat (String.length sin)) 0) ;;;
                     resume_steps lim rid pinput rest (amap_insert (step_name s) a arts))
          end
      end
  end.

(** The steps [resume_run] visits: [steps.iter().enumerate().skip(start_step)]. *)
Definition resume_schedule (p : Pipeline) (start_step : nat) : list (nat * Step) :=
  skipn start_step (enumerate (steps p)).

(** [Orchestrator::resume_run] *)
Definition resume_run (rid : string) (p : Pipeline) (inp : string) : M Run :=
  evs <- replay ;;
  match evs with
  | [] => throw (ENoEvents rid)
  | _ =>
      match from_events evs with
      | None => throw EReconstruct
      | Some r =>
          put_run r ;;;
          t <- now ;;
          put_tracker (new_tracker t) ;;;
          resume_steps (safety_limits p) rid inp
            (resume_schedule p (current_step r)) (artifacts r)
      end
  end.

End Orchestrator.

(** [Iterator::position] on the step names. *)
Fixpoint position_name (n : string) (names : list string) : option nat :=
  match names with
  | [] => None
  | x :: rest => if String.eqb x n then Some 0%nat else option_map S (position_name n rest)
  end.

(** The loop of [Pipeline::validate] over the steps from index [i]. *)
Fixpoint validate_steps (names : list string) (i : nat) (ss : list Step) : unit + string :=
  match ss with
  | [] => inl tt
  | s :: rest =>
      if String.eqb (step_name s) "" then
        inr ("Step " ++ z_to_dec (Z.of_nat i) ++ " has an empty name")
      else
        let continue := validate_steps names (S i) rest in
        match input_from s with
        | PreviousStep ps =>
            match position_name ps names with
            | Some idx =>
                if (i <=? idx)%nat then
                  inr ("Step '" ++ step_name s ++ "' references future step '" ++ ps
                       ++ "' (forward references not allowed)")
                else continue
            | None =>
                inr ("Step '" ++ step_name s ++ "' references non-existent step '" ++ ps ++ "'")
            end
        | _ => continue
        end
  end.

(** [Pipeline::validate] *)
Definition validate (p : Pipeline) : unit + string :=
  if String.eqb (name p) "" then inr "Pipeline name cannot be empty"
  else match steps p with
       | [] => inr "Pipeline must have at least one step"
       | _ => validate_steps (map step_name (steps p)) 0 (steps p)
       end.

(** [Pipeline::get_step] and [Pipeline::step_index] *)
Definition get_step (p : Pipeline) (n : string) : option Step :=
  find (fun s => String.eqb (step_name s) n) (steps p).

Definition step_index (p : Pipeline) (n : string) : option nat :=
  position_name n (map step_name (steps p)).

End Engine.

(* ================================================================== *)
(** * Observations used to state the properties *)

Module Views.

(** Lowercase hexadecimal digits [0-9a-f]. *)
Definition is_lower_hex (c : ascii) : bool :=
  let n := nat_of_ascii c in
  ((48 <=? n) && (n <=? 57))%nat || ((97 <=? n) && (n <=? 102))%nat.

Fixpoint all_chars (f : ascii -> bool) (s : string) : bool :=
  match s with
  | EmptyString => true
  | String c r => f c && all_chars f r
  end.

(** The number of [Enqueued] records among queue-file lines. *)
Definition count_enqueued (ls : list Queue.QLine) : nat :=
  List.length (filter (fun l => match l with
                                | Queue.QRecord ev =>
                                    match Queue.event_type ev with
                                    | Queue.Enqueued => true
                                    | _ => false
                                    end
                                | _ => false
                                end) ls).

(** The number of [StepCompleted] events that carry a step id. *)
Definition count_completed (evs : list Orch.Event) : nat :=
  List.length (filter (fun e => match Orch.event_type e, Orch.step_id e with
                                | Orch.StepCompleted, Some _ => true
                                | _, _ => false
                                end) evs).

(** The number of [StepCompleted] events, with or without a step id. *)
Definition count_step_completed (evs : list Orch.Event) : nat :=
  List.length (filter (fun e => match Orch.event_type e with
                                | Orch.StepCompleted => true
                                | _ => false
                                end) evs).

(** The quote [q] occurs in [t] at byte offset [i]: [t[i..i+|q|] == q]. *)
Definition occurs_at (t q : list Z) (i : nat) : bool :=
  Spans.bytes_eqb (firstn (List.length q) (skipn i t)) q
  && (i + List.length q <=? List.length t)%nat.

(** All byte offsets at which [q] occurs in [t], ascending. *)
Definition occurrences (t q : list Z) : list nat :=
  filter (occurs_at t q) (seq 0 (S (List.length t))).

(** The status the number of occurrences calls for. *)
Definition count_status (n : nat) : Spans.MatchStatus :=
  match n with
  | O => Spans.Unresolved
  | S O => Spans.Resolved
  | _ => Spans.Ambiguous
  end.

(** A byte list that does not start with a UTF-8 continuation byte. *)
Definition head_ok (l : list Z) : Prop :=
  l = [] \/ exists x r, l = x :: r /\ Spans.is_cont x = false.



(** [ts] is a timestamp that [is_timestamp] accepts, written in [bytes]
    as ['['] [ts] [']'] with no [']'] inside. *)
Definition bracketed_timestamp (bytes ts : list Z) : Prop :=
  Evidence.is_timestamp ts = true /\ ~ In 93 ts /\
  exists j, firstn (List.length ts + 2) (skipn j bytes) = (91 :: ts ++ [93])%list.

(** Every queue item is stored under its own id. *)
Definition ids_match (m : Queue.Items) : Prop :=
  forall k it, In (k, it) m -> Queue.id it = k.

(** A queue event that creates the item [k]: [Enqueued] with item data. *)
Definition creates (ev : Queue.QueueEvent) (k : string) : Prop :=
  Queue.item_id ev = k /\ Queue.event_type ev = Queue.Enqueued /\
  exists d, Queue.data ev = Some (Queue.DItem d).

(** Orders of queue items by [detected_at]. *)
Definition older_first (a b : Queue.QueueItem) : Prop :=
  Queue.detected_at (Queue.idata a) <= Queue.detected_at (Queue.idata b).

Definition newer_first (a b : Queue.QueueItem) : Prop :=
  Queue.detected_at (Queue.idata b) <= Queue.detected_at (Queue.idata a).

(** [QueueStatus::default()] *)
Definition zero_status : Queue.QueueStatus :=
  {| Queue.pending := 0; Queue.processing := 0; Queue.done := 0; Queue.failed := 0;
     Queue.recent := [] |}.

(** Run-level events: those [Run::apply_event] reads the run state from. *)
Definition run_level (e : Orch.Event) : bool :=
  match Orch.event_type e with
  | Orch.RunStarted | Orch.RunCompleted | Orch.RunFailed | Orch.SafetyLimitReached => true
  | _ => false
  end.

(** Step-level events naming the step [s]. *)
Definition touches_step (s : string) (e : Orch.Event) : bool :=
  match Orch.step_id e with
  | Some s' => String.eqb s' s && negb (run_level e)
  | None => false
  end.

(** [r] is the run in [s'], the log of [s'] ends with [r]'s terminal
    event, and [r]'s state is the one that event records. *)
Definition ends_terminal (r : Orch.Run) (s' : Engine.St) : Prop :=
  Engine.run s' = r /\
  exists l e, Orch.log (Engine.store s') = (l ++ [Orch.ERecord e])%list /\
    Orch.run_id e = Orch.id r /\
    ((Orch.state r = Orch.RCompleted /\ Orch.event_type e = Orch.RunCompleted) \/
     (exists m, Orch.state r = Orch.RFailed m /\ Orch.event_type e = Orch.RunFailed /\
                Orch.ev_error e = Some m) \/
     (exists m, Orch.state r = Orch.RSafetyLimitReached m /\
                Orch.event_type e = Orch.SafetyLimitReached /\ Orch.ev_error e = Some m)).

(** Every [Ok] result of [m] is a run in a terminal state. *)
Definition terminal (m : Engine.M Orch.Run) : Prop :=
  forall s, match m s with
            | (inl r, s') => ends_terminal r s'
            | (inr _, _) => True
            end.

(** The errors [run_pipeline] can return for a pipeline that passed
    [Pipeline::validate]. *)
Definition validated_error (e : Orch.Error) : Prop :=
  (exists a b, e = Orch.ESafety (Orch.MaxInputBytes a b)) \/
  (exists x y, e = Orch.EMissingArtifact x y).

(** The computation leaves the artifacts of the run it holds unchanged. *)
Definition keeps_artifacts {A} (m : Engine.M A) : Prop :=
  forall s, Orch.artifacts (Engine.run (snd (m s))) = Orch.artifacts (Engine.run s).

(** The one-byte whitespace of [char::is_whitespace]: ASCII 9 to 13 and
    the space. *)
Definition space_byte (b : Z) : bool := ((9 <=? b) && (b <=? 13)) || (b =? 32).

(** No two spaces (byte 32) in a row. *)
Fixpoint no_double_space (l : list Z) : bool :=
  match l with
  | a :: ((b :: _) as r) => negb ((a =? 32) && (b =? 32)) && no_double_space r
  | _ => true
  end.

End Views.

(* ------------------------------------------------------------------ *)
(** ** A two-step pipeline and a run that stopped after its first step *)

Module Scenario.

Import Orch Engine.
Open Scope string_scope.

(** ASCII upper-casing ([str::to_uppercase] on ASCII text). *)
Definition upper_char (c : ascii) : ascii :=
  let n := nat_of_ascii c in
  if ((97 <=? n) && (n <=? 122))%nat then ascii_of_nat (n - 32) else c.

Fixpoint upper (s : string) : string :=
  match s with
  | EmptyString => EmptyString
  | String c r => String (upper_char c) (upper r)
  end.

(** An executor whose action ["upper"] upper-cases its input and whose
    other actions echo it; every call takes 10 ms. *)
Definition exec (_ : nat) (act inp : string) (_ : Z) : (string + string) * Z :=
  if String.eqb act "upper" then (inl (upper inp), 10%Z) else (inl inp, 10%Z).

Definition lim : SafetyLimits :=
  {| max_steps := 50; max_input_bytes := 1000; max_output_bytes := 1000;
     step_timeout_seconds := 300; run_timeout_seconds := 3600; denylist_patterns := [] |}.

Definition stA : Step :=
  {| step_name := "A"; adapter := Fabric; action := "echo"; input_from := PipelineInput;
     retry_policy := Retry.default_policy; timeout_seconds := None |}.

Definition stB : Step :=
  {| step_name := "B"; adapter := Fabric; action := "upper"; input_from := PreviousStep "A";
     retry_policy := Retry.default_policy; timeout_seconds := None |}.

Definition pipe : Pipeline :=
  {| name := "p"; description := ""; safety_limits := lim; steps := [stA; stB] |}.

(** The directory of run ["R1"] after step [A] completed on input
    ["hello"] and the process stopped: the log holds [RunStarted],
    [StepStarted] and [StepCompleted] for [A], and [artifacts/A.md] holds
    ["hello"]. *)
Definition crashed_store : Store :=
  {| log := [ERecord (mk_event "R1" None RunStarted "R1:start" SRunning);
             ERecord (mk_event "R1" (Some "A") StepStarted
                        (generate_idempotency_key "R1" "A" "hello") SRunning);
             ERecord (with_duration
                        (mk_event "R1" (Some "A") StepCompleted
                           (generate_idempotency_key "R1" "A" "hello") SCompleted) 10)];
     disk := [("A", "hello")] |}.

Definition crashed : St :=
  {| store := crashed_store; calls := 0; clock := 0;
     run := new_run "R1" "p" "hello"; tracker := new_tracker 0 |}.

Definition fresh : St :=
  {| store := {| log := []; disk := [] |}; calls := 0; clock := 0;
     run := new_run "R1" "p" "hello"; tracker := new_tracker 0 |}.

(** A one-step echo pipeline whose output limit (3 bytes) is below the
    size of the input it is given (["hello"], 5 bytes). *)
Definition small_output_lim : SafetyLimits :=
  {| max_steps := 50; max_input_bytes := 1000; max_output_bytes := 3;
     step_timeout_seconds := 300; run_timeout_seconds := 3600; denylist_patterns := [] |}.

Definition echo_pipe : Pipeline :=
  {| name := "e"; description := ""; safety_limits := small_output_lim; steps := [stA] |}.

(** A queue file: recording ["a"] (detected at 5) and ["b"] (detected
    at 3), then a [ProcessingStarted] event for ["a"]. *)
Definition sample_item (p : string) (t : Z) : Queue.QueueItemData :=
  {| Queue.file_path := p; Queue.file_name := Queue.path_file_name p;
     Queue.file_size := 10; Queue.detected_at := t |}.

Definition sample_queue : list Queue.QLine :=
  [Queue.QRecord {| Queue.timestamp := 1; Queue.item_id := "a"; Queue.event_type := Queue.Enqueued;
                    Queue.data := Some (Queue.DItem (sample_item "/in/a.m4a" 5)) |};
   Queue.QBlank;
   Queue.QRecord {| Queue.timestamp := 2; Queue.item_id := "b"; Queue.event_type := Queue.Enqueued;
                    Queue.data := Some (Queue.DItem (sample_item "/in/b.m4a" 3)) |};
   Queue.QRecord {| Queue.timestamp := 4; Queue.item_id := "a";
                    Queue.event_type := Queue.ProcessingStarted; Queue.data := None |}].

(** A pipeline whose second step reads the artifact ["notes"], which no
    step produces. *)
Definition stC : Step :=
  {| step_name := "C"; adapter := Fabric; action := "echo"; input_from := FromArtifact "notes";
     retry_policy := Retry.default_policy; timeout_seconds := None |}.

Definition art_pipe : Pipeline :=
  {| name := "q"; description := ""; safety_limits := lim; steps := [stA; stC] |}.

End Scenario.

(* ================================================================== *)
(** * Properties *)

(* ------------------------------------------------------------------ *)
(** ** Queue item identifiers *)

Module HashFacts.

Import Sha256 Views.

Lemma round_length (st : list Z) (kw : Z * Z) :
  List.length st = 8%nat -> List.length (round st kw) = 8%nat.
Proof.
  intros H.
  destruct st as [|a [|b [|c [|d [|e [|f [|g [|h [|x r]]]]]]]]];
    simpl in *; try discriminate; reflexivity.
Qed.

Lemma fold_round_length (l : list (Z * Z)) (st : list Z) :
  List.length st = 8%nat -> List.length (fold_left round l st) = 8%nat.
Proof.
  revert st; induction l as [|kw l IH]; intros st H; simpl; [exact H|].
  apply IH, round_length, H.
Qed.

Lemma compress_length (hs block : list Z) :
  List.length hs = 8%nat -> List.length (compress hs block) = 8%nat.
Proof.
  intros H. unfold compress.
  rewrite length_map, length_combine, fold_round_length by exact H.
  rewrite H. reflexivity.
Qed.

Lemma process_length (fuel : nat) (hs msg : list Z) :
  List.length hs = 8%nat -> List.length (process fuel hs msg) = 8%nat.
Proof.
  revert hs msg; induction fuel as [|f IH]; intros hs msg H; simpl; [exact H|].
  destruct msg; [exact H|]. apply IH, compress_length, H.
Qed.

Lemma flat_map_word_bytes_length (l : list Z) :
  List.length (flat_map word_bytes l) = (4 * List.length l)%nat.
Proof.
  induction l as [|w l IH]; simpl; [reflexivity|].
  rewrite IH. lia.
Qed.

Lemma digest_length (m : list Z) : List.length (digest m) = 32%nat.
Proof.
  unfold digest. rewrite flat_map_word_bytes_length, process_length; reflexivity.
Qed.

Lemma flat_map_word_bytes_range (l : list Z) :
  Forall (fun b => 0 <= b < 256) (flat_map word_bytes l).
Proof.
  induction l as [|w l IH]; simpl; [constructor|].
  unfold word_bytes; simpl.
  repeat (constructor; [apply Z.mod_pos_bound; lia|]); exact IH.
Qed.

Lemma digest_range (m : list Z) : Forall (fun b => 0 <= b < 256) (digest m).
Proof. apply flat_map_word_bytes_range. Qed.

Lemma hex_encode_length (l : list Z) :
  String.length (hex_encode l) = (2 * List.length l)%nat.
Proof.
  induction l as [|b l IH]; simpl; [reflexivity|].
  rewrite IH. lia.
Qed.

Lemma hex_digit_lower (n : Z) : 0 <= n < 16 -> is_lower_hex (hex_digit n) = true.
Proof.
  intros Hn. unfold hex_digit, is_lower_hex.
  destruct (n <? 10) eqn:E.
  - apply Z.ltb_lt in E.
    rewrite nat_ascii_embedding by lia.
    apply orb_true_intro; left.
    apply andb_true_intro; split; apply Nat.leb_le; lia.
  - apply Z.ltb_ge in E.
    rewrite nat_ascii_embedding by lia.
    apply orb_true_intro; right.
    apply andb_true_intro; split; apply Nat.leb_le; lia.
Qed.

Lemma hex_encode_lower (l : list Z) :
  Forall (fun b => 0 <= b < 256) l -> all_chars is_lower_hex (hex_encode l) = true.
Proof.
  induction 1 as [|b l Hb _ IH]; simpl; [reflexivity|].
  rewrite !hex_digit_lower, IH; [reflexivity| |].
  - apply Z.mod_pos_bound; lia.
  - split; [apply Z.div_pos; lia | apply Z.div_lt_upper_bound; lia].
Qed.

Lemma substring0_length (n : nat) (s : string) :
  (n <= String.length s)%nat -> String.length (substring 0 n s) = n.
Proof.
  revert n; induction s as [|c s IH]; intros n H; destruct n; simpl in *;
    try reflexivity; try lia.
  f_equal. apply IH. lia.
Qed.

Lemma substring0_all_chars (f : ascii -> bool) (n : nat) (s : string) :
  all_chars f s = true -> all_chars f (substring 0 n s) = true.
Proof.
  revert n; induction s as [|c s IH]; intros n H; destruct n; simpl in *;
    try reflexivity; try exact H.
  apply andb_true_iff in H as [H1 H2].
  rewrite H1. apply IH, H2.
Qed.

Lemma substring0_prefix (n : nat) (s : string) : prefix (substring 0 n s) s = true.
Proof.
  revert n; induction s as [|c s IH]; intros n; destruct n; simpl; try reflexivity.
  destruct (ascii_dec c c) as [_|Hcc]; [apply IH | contradiction Hcc; reflexivity].
Qed.

(** Claim C4 (as the code has it): the queue item identifier
    [compute_file_hash] gives for a file's bytes is the first 12 characters
    of the 64-character lowercase hex SHA-256 of those bytes: it has length
    12, holds only [0-9a-f], and is a prefix of the full hex digest. *)
Theorem compute_file_hash_first_12_hex (content : list Z) :
  let full := hex_encode (digest content) in
  String.length full = 64%nat /\
  all_chars is_lower_hex full = true /\
  Queue.compute_file_hash content = substring 0 12 full /\
  String.length (Queue.compute_file_hash content) = 12%nat /\
  all_chars is_lower_hex (Queue.compute_file_hash content) = true /\
  prefix (Queue.compute_file_hash content) full = true.
Proof.
  cbv zeta.
  assert (Hlen : String.length (hex_encode (digest content)) = 64%nat)
    by (rewrite hex_encode_length, digest_length; reflexivity).
  assert (Hhex : all_chars is_lower_hex (hex_encode (digest content)) = true)
    by (apply hex_encode_lower, digest_range).
  unfold Queue.compute_file_hash.
  split; [exact Hlen|]. split; [exact Hhex|]. split; [reflexivity|].
  split; [apply substring0_length; rewrite Hlen; lia|].
  split; [apply substring0_all_chars, Hhex|].
  apply substring0_prefix.
Qed.

(** Claim C4, counterexample: for the empty file the identifier is
    ["e3b0c44298fc"], 12 characters long, and not the first 24 hex
    characters of its SHA-256 ([e3b0c44298fc1c149afbf4c8]). *)
Lemma compute_file_hash_not_24_chars :
  Queue.compute_file_hash [] = "e3b0c44298fc"%string /\
  String.length (Queue.compute_file_hash []) = 12%nat /\
  Queue.compute_file_hash [] <> substring 0 24 (hex_encode (digest [])).
Proof.
  split; [vm_compute; reflexivity|].
  split; [vm_compute; reflexivity|].
  vm_compute. discriminate.
Qed.

End HashFacts.

(* ------------------------------------------------------------------ *)
(** ** The ingest queue's transitions *)

Module QueueFacts.

Import Queue Views.
Open Scope string_scope.

Lemma replay_from_app (items : Items) (f1 f2 : list QLine) :
  replay_from items (f1 ++ f2) =
  match replay_from items f1 with
  | Some i => replay_from i f2
  | None => None
  end.
Proof.
  revert items; induction f1 as [|l f1 IH]; intros items; simpl; [reflexivity|].
  destruct l; [apply IH | apply IH | reflexivity].
Qed.

(** On a file that is empty or ends in '\n', [append_event] adds one
    line, its record, and the file still ends in '\n'. *)
Lemma file_lines_append (file : QFile) (ev : QueueEvent) :
  qtail file = None -> file_lines (append_event file ev) = (file_lines file ++ [QRecord ev])%list.
Proof. unfold file_lines, append_event. intros ->. cbn. rewrite !app_nil_r. reflexivity. Qed.

Lemma qtail_append (file : QFile) (ev : QueueEvent) : qtail (append_event file ev) = None.
Proof. unfold append_event. destruct (qtail file); reflexivity. Qed.

(** Replaying after an append to such a file applies the appended event. *)
Lemma replay_append (file : QFile) (items : Items) (ev : QueueEvent) :
  qtail file = None ->
  replay (file_lines file) = inl items ->
  replay (file_lines (append_event file ev)) = inl (apply_event items ev).
Proof.
  intros Ht. rewrite (file_lines_append _ _ Ht). unfold replay. rewrite replay_from_app.
  destruct (replay_from [] (file_lines file)) as [i|]; intros H; [|discriminate].
  inversion H; subst. reflexivity.
Qed.

Lemma items_get_insert_same (k : string) (v : QueueItem) (m : Items) :
  items_get k (items_insert k v m) = Some v.
Proof.
  induction m as [|[k' v'] m IH]; simpl.
  - rewrite String.eqb_refl. reflexivity.
  - destruct (String.eqb k k') eqn:E; simpl.
    + rewrite String.eqb_refl. reflexivity.
    + rewrite E. exact IH.
Qed.

Lemma items_get_modify_same (k : string) (f : QueueItem -> QueueItem) (m : Items) :
  items_get k (items_modify k f m) = option_map f (items_get k m).
Proof.
  induction m as [|[k' v'] m IH]; simpl; [reflexivity|].
  destruct (String.eqb k k') eqn:E; simpl; rewrite E; [reflexivity | exact IH].
Qed.

Lemma count_enqueued_app (a b : list QLine) :
  count_enqueued (a ++ b) = (count_enqueued a + count_enqueued b)%nat.
Proof. unfold count_enqueued. rewrite filter_app, length_app. reflexivity. Qed.

(** Claim C5 (as the code has it): on a queue file that is empty or
    ends in '\n' and replays, [enqueue] returns [Queued] and appends an
    [Enqueued] event when the content hash is unknown and the path is
    UTF-8; with a path that is not UTF-8 it returns a [Serialization]
    error and writes nothing. For a [Done] item it returns
    [AlreadyProcessed] and writes nothing; for a [Failed] item it appends
    one [ResetForRetry] event, after which the item is [Pending] with
    [retry_count] incremented (as a [u32]), and returns [EResetForRetry];
    otherwise it returns [AlreadyQueued] and writes nothing. Enqueueing the
    same bytes twice (any paths, sizes or times) appends exactly one
    [Enqueued] event if the hash was unknown and one of the paths is UTF-8,
    and none otherwise. A file that does not replay makes [enqueue] return
    the replay error and write nothing. *)
Theorem enqueue_content_addressed (file : QFile) (path : string) (content : list Z)
    (size det now : Z) :
  qtail file = None ->
  let h := compute_file_hash content in
  let res := enqueue file path content size det now in
  match replay (file_lines file) with
  | inr e => res = (inr e, file)
  | inl items =>
      match items_get h items with
      | None =>
          if utf8_valid path then
            res = (inl (Queued h),
                   append_event file
                     {| timestamp := now; item_id := h; event_type := Enqueued;
                        data := Some (DItem {| file_path := path; file_name := path_file_name path;
                                               file_size := size; detected_at := det |}) |})
          else res = (inr Serialization, file)
      | Some it =>
          match status it with
          | Done => res = (inl (AlreadyProcessed h), file)
          | Failed =>
              res = (inl (EResetForRetry h),
                     append_event file
                       {| timestamp := now; item_id := h; event_type := ResetForRetry;
                          data := None |})
              /\ exists items' it',
                   replay (file_lines (snd res)) = inl items' /\ items_get h items' = Some it' /\
                   status it' = Pending /\ retry_count it' = u32_incr (retry_count it)
          | _ => res = (inl (AlreadyQueued h), file)
          end
      end
      /\ forall path2 size2 det2 now2,
           exists ext,
             file_lines (snd (enqueue (snd res) path2 content size2 det2 now2))
               = (file_lines file ++ ext)%list /\
             qtail (snd (enqueue (snd res) path2 content size2 det2 now2)) = None /\
             count_enqueued ext =
               match items_get h items with
               | None => if utf8_valid path || utf8_valid path2 then 1%nat else 0%nat
               | Some _ => 0%nat
               end
  end.
Proof.
  intros Ht. cbv zeta.
  destruct (replay (file_lines file)) as [items|e] eqn:Hr;
    [|unfold enqueue; rewrite Hr; reflexivity].
  destruct (items_get (compute_file_hash content) items) as [it|] eqn:Hg.
  - destruct (status it) eqn:Hs.
    1,2: assert (E : forall p sz d n, enqueue file p content sz d n
                       = (inl (AlreadyQueued (compute_file_hash content)), file))
           by (intros; unfold enqueue; rewrite Hr, Hg, Hs; reflexivity).
    3: assert (E : forall p sz d n, enqueue file p content sz d n
                     = (inl (AlreadyProcessed (compute_file_hash content)), file))
         by (intros; unfold enqueue; rewrite Hr, Hg, Hs; reflexivity).
    1,2,3: rewrite E; split; [reflexivity|];
      intros; exists []; cbn [snd]; rewrite E, app_nil_r;
      split; [reflexivity | split; [exact Ht | reflexivity]].
    (* Failed *)
    set (ev := {| timestamp := now; item_id := compute_file_hash content;
                  event_type := ResetForRetry; data := None |}).
    assert (E : enqueue file path content size det now
                = (inl (EResetForRetry (compute_file_hash content)), append_event file ev))
      by (unfold enqueue; rewrite Hr, Hg, Hs; reflexivity).
    pose proof (replay_append file items ev Ht Hr) as Hr'.
    assert (Hg' : items_get (compute_file_hash content) (apply_event items ev)
                  = Some {| id := id it; status := Pending; idata := idata it;
                            started_at := None; completed_at := None; error := None;
                            retry_count := u32_incr (retry_count it) |})
      by (unfold apply_event; simpl; rewrite items_get_modify_same, Hg; reflexivity).
    rewrite E. split; [split; [reflexivity|]|].
    + eexists _, _. cbn [snd]. split; [exact Hr'|]. split; [exact Hg'|]. split; reflexivity.
    + intros. exists [QRecord ev]. cbn [snd].
      assert (E2 : enqueue (append_event file ev) path2 content size2 det2 now2
                   = (inl (AlreadyQueued (compute_file_hash content)), append_event file ev))
        by (unfold enqueue; rewrite Hr', Hg'; reflexivity).
      rewrite E2. cbn [snd].
      split; [apply file_lines_append, Ht | split; [apply qtail_append | reflexivity]].
  - destruct (utf8_valid path) eqn:Hu.
    + set (ev := {| timestamp := now; item_id := compute_file_hash content; event_type := Enqueued;
                    data := Some (DItem {| file_path := path; file_name := path_file_name path;
                                           file_size := size; detected_at := det |}) |}).
      assert (E : enqueue file path content size det now
                  = (inl (Queued (compute_file_hash content)), append_event file ev))
        by (unfold enqueue; rewrite Hr, Hg, Hu; reflexivity).
      rewrite E. split; [reflexivity|].
      intros. exists [QRecord ev]. cbn [snd].
      pose proof (replay_append file items ev Ht Hr) as Hr'.
      assert (Hg' : items_get (compute_file_hash content) (apply_event items ev)
                    = Some {| id := compute_file_hash content; status := Pending;
                              idata := {| file_path := path; file_name := path_file_name path;
                                          file_size := size; detected_at := det |};
                              started_at := None; completed_at := None; error := None;
                              retry_count := 0 |})
        by (unfold apply_event; simpl; apply items_get_insert_same).
      assert (E2 : enqueue (append_event file ev) path2 content size2 det2 now2
                   = (inl (AlreadyQueued (compute_file_hash content)), append_event file ev))
        by (unfold enqueue; rewrite Hr', Hg'; reflexivity).
      rewrite E2. cbn [snd].
      split; [apply file_lines_append, Ht | split; [apply qtail_append | reflexivity]].
    + assert (E : enqueue file path content size det now = (inr Serialization, file))
        by (unfold enqueue; rewrite Hr, Hg, Hu; reflexivity).
      rewrite E. split; [reflexivity|].
      intros. cbn [snd orb].
      destruct (utf8_valid path2) eqn:Hu2.
      * set (ev2 := {| timestamp := now2; item_id := compute_file_hash content;
                       event_type := Enqueued;
                       data := Some (DItem {| file_path := path2; file_name := path_file_name path2;
                                              file_size := size2; detected_at := det2 |}) |}).
        assert (E2 : enqueue file path2 content size2 det2 now2
                     = (inl (Queued (compute_file_hash content)), append_event file ev2))
          by (unfold enqueue; rewrite Hr, Hg, Hu2; reflexivity).
        exists [QRecord ev2]. rewrite E2. cbn [snd].
        split; [apply file_lines_append, Ht | split; [apply qtail_append | reflexivity]].
      * assert (E2 : enqueue file path2 content size2 det2 now2 = (inr Serialization, file))
          by (unfold enqueue; rewrite Hr, Hg, Hu2; reflexivity).
        exists []. rewrite E2, app_nil_r. cbn [snd].
        split; [reflexivity | split; [exact Ht | reflexivity]].
Qed.

Lemma enqueue_content_addressed_witness :
  qtail empty_file = None /\
  enqueue empty_file "/in/a.m4a" [1; 2; 3] 3 5 7
  = (inl (Queued (compute_file_hash [1; 2; 3])),
     append_event empty_file
       {| timestamp := 7; item_id := compute_file_hash [1; 2; 3]; event_type := Enqueued;
          data := Some (DItem {| file_path := "/in/a.m4a"; file_name := path_file_name "/in/a.m4a";
                                 file_size := 3; detected_at := 5 |}) |}).
Proof.
  split; [reflexivity|].
  pose proof (enqueue_content_addressed empty_file "/in/a.m4a" [1; 2; 3] 3 5 7 eq_refl) as H.
  cbv zeta in H.
  change (replay (file_lines empty_file)) with (@inl Items VoiceQueueError []) in H.
  change (items_get (compute_file_hash [1; 2; 3]) []) with (@None QueueItem) in H.
  change (utf8_valid "/in/a.m4a") with true in H.
  cbv beta iota in H.
  exact (proj1 H).
Defined.

(** Claim C5, counterexample: a path that is not UTF-8 (the byte 255)
    makes [enqueue] of unknown bytes return a [Serialization] error and
    write nothing, not [Queued]. And when the queue file ends in a
    [Failed] record without '\n', [enqueue] returns [EResetForRetry]
    but its [ResetForRetry] record is written onto that line, and the file
    no longer replays: the item does not come back [Pending]. *)
Lemma enqueue_counterexamples :
  enqueue empty_file ("/in/" ++ String (ascii_of_nat 255) "") [1] 1 0 0
    = (inr Serialization, empty_file) /\
  (let h := compute_file_hash [1] in
  let f := {| qlines := [QRecord {| timestamp := 0; item_id := h; event_type := Enqueued;
                                    data := Some (DItem {| file_path := "/in/a"; file_name := "a";
                                                           file_size := 1; detected_at := 0 |}) |}];
              qtail := Some (QTRecord {| timestamp := 1; item_id := h; event_type := QFailed;
                                         data := None |}) |} in
  match get (file_lines f) h with inl (Some it) => status it = Failed | _ => False end /\
  fst (enqueue f "/in/a" [1] 1 0 2) = inl (EResetForRetry h) /\
  get (file_lines (snd (enqueue f "/in/a" [1] 1 0 2))) h = inr Serialization).
Proof.
  split; [vm_compute; reflexivity|].
  cbv zeta. split; [|split]; vm_compute; reflexivity.
Qed.

(** Claim C7 (as the code has it): on a queue file that replays,
    [mark_processing] appends exactly one [ProcessingStarted] event when
    the item is [Pending] (and if the file was empty or ended in '\n',
    the item then replays as [Processing]); when the item exists in
    another state it returns [InvalidTransition] and writes nothing; when
    no item has that id it returns [NotFound] and writes nothing. A file
    that does not replay gives the replay error and no write. *)
Theorem mark_processing_transitions (file : QFile) (qid : string) (now : Z) :
  let res := mark_processing file qid now in
  match replay (file_lines file) with
  | inr e => res = (inr e, file)
  | inl items =>
      match items_get qid items with
      | None => res = (inr (NotFound qid), file)
      | Some it =>
          match status it with
          | Pending =>
              res = (inl tt, append_event file
                               {| timestamp := now; item_id := qid;
                                  event_type := ProcessingStarted; data := None |})
              /\ (qtail file = None ->
                  file_lines (snd res)
                  = (file_lines file ++ [QRecord {| timestamp := now; item_id := qid;
                                                    event_type := ProcessingStarted;
                                                    data := None |}])%list /\
                  exists items' it',
                    replay (file_lines (snd res)) = inl items' /\
                    items_get qid items' = Some it' /\ status it' = Processing)
          | st => res = (inr (InvalidTransition st Processing), file)
          end
      end
  end.
Proof.
  cbv zeta. unfold mark_processing.
  destruct (replay (file_lines file)) as [items|e] eqn:Hr; [|reflexivity].
  destruct (items_get qid items) as [it|] eqn:Hg; [|reflexivity].
  destruct (status it) eqn:Hs; simpl; try reflexivity.
  split; [reflexivity|].
  intros Ht.
  set (ev := {| timestamp := now; item_id := qid; event_type := ProcessingStarted; data := None |}).
  split; [apply file_lines_append, Ht|].
  exists (apply_event items ev).
  eexists. split; [apply replay_append; [exact Ht | exact Hr]|].
  unfold apply_event; simpl. rewrite items_get_modify_same, Hg.
  split; reflexivity.
Qed.

(** Claim C7, counterexample: on an empty queue file, [mark_processing]
    of an id with no item returns [NotFound], not an [InvalidTransition]
    error. *)
Lemma mark_processing_unknown_not_found :
  mark_processing empty_file "abc" 0 = (inr (NotFound "abc"), empty_file) /\
  (forall from to, fst (mark_processing empty_file "abc" 0) <> inr (InvalidTransition from to)).
Proof.
  split; [reflexivity|].
  intros from to. simpl. discriminate.
Qed.

End QueueFacts.

(* ------------------------------------------------------------------ *)
(** ** The event store and run reconstruction *)

Module StoreFacts.

Import Orch Engine Views.
Open Scope string_scope.

Lemma replay_lines_app (a b : list ELine) :
  replay_lines (a ++ b) =
  match replay_lines a with
  | Some x => option_map (fun y => (x ++ y)%list) (replay_lines b)
  | None => None
  end.
Proof.
  induction a as [|l a IH]; simpl.
  - destruct (replay_lines b); reflexivity.
  - destruct l; [| exact IH | reflexivity].
    rewrite IH. destruct (replay_lines a), (replay_lines b); reflexivity.
Qed.

Lemma existsb_app_r {A} (f : A -> bool) (a b : list A) :
  existsb f b = true -> existsb f (a ++ b) = true.
Proof. intros H. rewrite existsb_app, H, orb_true_r. reflexivity. Qed.

Lemma apply_event_current_step (r : Run) (e : Event) :
  current_step (apply_event r e) =
  (current_step r + match event_type e, step_id e with
                    | StepCompleted, Some _ => 1
                    | _, _ => 0
                    end)%nat.
Proof.
  unfold apply_event.
  destruct (event_type e), (step_id e); simpl; lia.
Qed.

Lemma apply_event_artifacts (r : Run) (e : Event) :
  artifacts (apply_event r e) = artifacts r.
Proof.
  unfold apply_event.
  destruct (event_type e), (step_id e); reflexivity.
Qed.

Lemma fold_apply_current_step (evs : list Event) (r : Run) :
  current_step (fold_left apply_event evs r) = (current_step r + count_completed evs)%nat.
Proof.
  unfold count_completed.
  revert r; induction evs as [|e evs IH]; intros r; simpl; [lia|].
  rewrite IH, apply_event_current_step.
  destruct (event_type e), (step_id e); simpl; lia.
Qed.

Lemma fold_apply_artifacts (evs : list Event) (r : Run) :
  artifacts (fold_left apply_event evs r) = artifacts r.
Proof.
  revert r; induction evs as [|e evs IH]; intros r; simpl; [reflexivity|].
  rewrite IH. apply apply_event_artifacts.
Qed.

Lemma skipn_combine {A B} (n : nat) (a : list A) (b : list B) :
  skipn n (combine a b) = combine (skipn n a) (skipn n b).
Proof.
  revert a b; induction n as [|n IH]; intros a b; [reflexivity|].
  destruct a as [|x a]; [reflexivity|].
  destruct b as [|y b]; simpl.
  - rewrite combine_nil. reflexivity.
  - apply IH.
Qed.

Lemma skipn_seq (n start len : nat) : skipn n (seq start len) = seq (start + n) (len - n).
Proof.
  revert start len; induction n as [|n IH]; intros start len.
  - rewrite Nat.add_0_r, Nat.sub_0_r. reflexivity.
  - destruct len; simpl; [reflexivity|].
    rewrite IH. f_equal. lia.
Qed.

Lemma map_fst_combine {A B} (a : list A) (b : list B) :
  (List.length a <= List.length b)%nat -> map fst (combine a b) = a.
Proof.
  revert b; induction a as [|x a IH]; intros b H; [reflexivity|].
  destruct b; simpl in *; [lia|]. f_equal. apply IH. lia.
Qed.

Lemma map_snd_combine {A B} (a : list A) (b : list B) :
  (List.length b <= List.length a)%nat -> map snd (combine a b) = b.
Proof.
  revert b; induction a as [|x a IH]; intros b H.
  - destruct b; simpl in *; [reflexivity | lia].
  - destruct b; simpl in *; [reflexivity|]. f_equal. apply IH. lia.
Qed.

(** [resume_schedule p n] visits the steps from index [n] on, in order,
    each paired with its own index. *)
Lemma resume_schedule_from (p : Pipeline) (n : nat) :
  map fst (resume_schedule p n) = seq n (List.length (steps p) - n) /\
  map snd (resume_schedule p n) = skipn n (steps p).
Proof.
  unfold resume_schedule, enumerate.
  rewrite skipn_combine, skipn_seq. simpl.
  split.
  - apply map_fst_combine. rewrite length_seq, length_skipn. lia.
  - apply map_snd_combine. rewrite length_seq, length_skipn. lia.
Qed.

(** On a file that is empty or ends in '\n', [append] adds one line,
    its record. *)
Lemma events_lines_append (f : EventsFile) (e : Event) :
  etail f = None -> events_lines (file_append f e) = (events_lines f ++ [ERecord e])%list.
Proof. unfold events_lines, file_append. intros ->. cbn. rewrite !app_nil_r. reflexivity. Qed.

(** The orchestrator's [Store] keeps the events file of this case:
    [store_append] and [store_is_step_completed] are [file_append] and
    [file_is_step_completed] on a file that ends in '\n'. *)
Lemma store_file_model (s : Store) (e : Event) (k : string) :
  file_append {| elines := log s; etail := None |} e
    = {| elines := log (store_append s e); etail := None |} /\
  store_is_step_completed s k = file_is_step_completed {| elines := log s; etail := None |} k.
Proof.
  split; [reflexivity|].
  unfold store_is_step_completed, file_is_step_completed, events_lines. cbn.
  rewrite app_nil_r. reflexivity.
Qed.

(** Claim C9 (as the code has it): for every events file that is empty
    or ends in '\n' and replays, once a [StepCompleted] event with
    idempotency key [K] has been appended, [is_step_completed K] returns
    [true]. On a file holding a line that does not parse,
    [is_step_completed] fails with that error both before and after the
    append. *)
Theorem is_step_completed_after_append (f : EventsFile) (e : Event) :
  event_type e = StepCompleted ->
  etail f = None ->
  match replay_lines (events_lines f) with
  | Some _ => file_is_step_completed (file_append f e) (idempotency_key e) = Some true
  | None => file_is_step_completed (file_append f e) (idempotency_key e) = None
  end.
Proof.
  intros He Ht. unfold file_is_step_completed.
  rewrite (events_lines_append f e Ht), replay_lines_app. simpl.
  destruct (replay_lines (events_lines f)) as [evs|]; [|reflexivity].
  simpl. f_equal. apply existsb_app_r. simpl.
  rewrite String.eqb_refl, He. reflexivity.
Qed.

Lemma is_step_completed_after_append_witness :
  event_type (mk_event "R" (Some "A") StepCompleted "R:A:k" SCompleted) = StepCompleted /\
  etail {| elines := [ERecord (mk_event "R" None RunStarted "R:start" SRunning)];
           etail := None |} = None /\
  file_is_step_completed
    (file_append {| elines := [ERecord (mk_event "R" None RunStarted "R:start" SRunning)];
                    etail := None |}
                 (mk_event "R" (Some "A") StepCompleted "R:A:k" SCompleted)) "R:A:k" = Some true.
Proof.
  split; [reflexivity|]. split; [reflexivity|].
  exact (is_step_completed_after_append
           {| elines := [ERecord (mk_event "R" None RunStarted "R:start" SRunning)];
              etail := None |}
           (mk_event "R" (Some "A") StepCompleted "R:A:k" SCompleted) eq_refl eq_refl).
Defined.

(** Claim C9, counterexample: after an earlier line of the log fails to
    parse, appending a [StepCompleted] event with key ["K"] succeeds, but
    [is_step_completed "K"] returns an error, not [true]. The same happens
    when the file ends in a valid record without '\n': it replays, but
    the appended record is written onto that line, which then fails to
    parse. *)
Lemma is_step_completed_bad_line :
  file_is_step_completed
    (file_append {| elines := [EBad]; etail := None |}
                 (mk_event "R" (Some "A") StepCompleted "K" SCompleted)) "K" = None /\
  file_is_step_completed
    {| elines := []; etail := Some (ETRecord (mk_event "R" None RunStarted "R:start" SRunning)) |}
    "K" = Some false /\
  file_is_step_completed
    (file_append
       {| elines := []; etail := Some (ETRecord (mk_event "R" None RunStarted "R:start" SRunning)) |}
       (mk_event "R" (Some "A") StepCompleted "K" SCompleted)) "K" = None.
Proof. split; [|split]; reflexivity. Qed.

(** Claim C10 (as the code has it): [Run::from_events] fails only on the
    empty list; otherwise [current_step] is the number of [StepCompleted]
    events that carry a step id (each one counted, whatever its step name
    or key), the artifact map is empty, and [resume_run] on a store whose
    log replays to these events runs the step loop over the steps with
    indices [current_step], [current_step + 1], ... of the pipeline. *)
Theorem from_events_current_step_resume (evs : list Event) :
  match from_events evs with
  | None => evs = []
  | Some r =>
      current_step r = count_completed evs /\
      artifacts r = [] /\
      forall execute rid p inp st,
        replay_lines (log (store st)) = Some evs ->
        resume_run execute rid p inp st =
        resume_steps execute (safety_limits p) rid inp
          (resume_schedule p (count_completed evs)) []
          {| store := store st; calls := calls st; clock := clock st; run := r;
             tracker := new_tracker (clock st) |} /\
        map fst (resume_schedule p (count_completed evs))
          = seq (count_completed evs) (List.length (steps p) - count_completed evs) /\
        map snd (resume_schedule p (count_completed evs)) = skipn (count_completed evs) (steps p)
  end.
Proof.
  destruct evs as [|e0 evs0]; [reflexivity|].
  destruct (from_events (e0 :: evs0)) as [r|] eqn:Hf; [|discriminate].
  assert (Hc : current_step r = count_completed (e0 :: evs0) /\ artifacts r = []).
  { unfold from_events in Hf. cbn beta iota in Hf. injection Hf as <-.
    rewrite fold_apply_current_step, fold_apply_artifacts.
    rewrite apply_event_current_step, apply_event_artifacts.
    unfold count_completed; simpl.
    split; [destruct (event_type e0), (step_id e0); reflexivity | reflexivity]. }
  destruct Hc as [Hc Ha].
  split; [exact Hc|]. split; [exact Ha|].
  intros execute rid p inp st Hr.
  split; [|apply resume_schedule_from].
  unfold resume_run, bind, replay. rewrite Hr. cbn beta iota. rewrite Hf.
  rewrite Hc, Ha. reflexivity.
Qed.

Lemma from_events_current_step_resume_witness :
  let evs := [mk_event "R1" None RunStarted "R1:start" SRunning;
              mk_event "R1" (Some "A") StepCompleted "R1:A:k" SCompleted;
              mk_event "R1" (Some "A") StepCompleted "R1:A:k" SCompleted] in
  let p := {| name := "p"; description := ""; safety_limits := Scenario.lim;
              steps := [Scenario.stA; Scenario.stB; Scenario.stC] |} in
  let st := {| store := {| log := map ERecord evs; disk := [("A", "hello")] |};
               calls := 0; clock := 0; run := new_run "R1" "p" "hello";
               tracker := new_tracker 0 |} in
  exists r,
    from_events evs = Some r /\ current_step r = 2%nat /\
    resume_run Scenario.exec "R1" p "hello" st =
    resume_steps Scenario.exec Scenario.lim "R1" "hello" (resume_schedule p 2) []
      {| store := store st; calls := 0; clock := 0; run := r; tracker := new_tracker 0 |} /\
    map fst (resume_schedule p 2) = [2%nat] /\
    map snd (resume_schedule p 2) = [Scenario.stC].
Proof.
  cbv zeta.
  pose proof (from_events_current_step_resume
                [mk_event "R1" None RunStarted "R1:start" SRunning;
                 mk_event "R1" (Some "A") StepCompleted "R1:A:k" SCompleted;
                 mk_event "R1" (Some "A") StepCompleted "R1:A:k" SCompleted]) as H.
  revert H. cbn [from_events]. intros [Hc [_ H]].
  eexists. split; [reflexivity|]. split; [exact Hc|].
  exact (H Scenario.exec "R1"
           {| name := "p"; description := ""; safety_limits := Scenario.lim;
              steps := [Scenario.stA; Scenario.stB; Scenario.stC] |} "hello"
           {| store := {| log := map ERecord
                                   [mk_event "R1" None RunStarted "R1:start" SRunning;
                                    mk_event "R1" (Some "A") StepCompleted "R1:A:k" SCompleted;
                                    mk_event "R1" (Some "A") StepCompleted "R1:A:k" SCompleted];
                          disk := [("A", "hello")] |};
              calls := 0; clock := 0; run := new_run "R1" "p" "hello";
              tracker := new_tracker 0 |} eq_refl).
Defined.

(** Claim C10, counterexample: a [StepCompleted] event without a step id
    is not counted: [from_events] of that single event gives
    [current_step = 0] although the list holds one [StepCompleted]
    event. *)
Lemma from_events_uncounted_completion :
  option_map current_step (from_events [mk_event "R" None StepCompleted "R:k" SCompleted])
    = Some 0%nat /\
  count_step_completed [mk_event "R" None StepCompleted "R:k" SCompleted] = 1%nat.
Proof. split; reflexivity. Qed.

End StoreFacts.

(* ------------------------------------------------------------------ *)
(** ** Quote resolution and anchor text *)

Module SpanFacts.

Import Spans Views.

Lemma bytes_eqb_eq (a b : list Z) : bytes_eqb a b = true <-> a = b.
Proof.
  revert b; induction a as [|x a IH]; intros [|y b]; simpl;
    try (split; congruence).
  rewrite andb_true_iff, Z.eqb_eq, IH.
  split; [intros [-> ->]; reflexivity | intros H; injection H as -> ->; split; reflexivity].
Qed.

Lemma filter_all_false {A} (f : A -> bool) (l : list A) :
  (forall x, In x l -> f x = false) -> filter f l = [].
Proof.
  induction l as [|x l IH]; intros H; simpl; [reflexivity|].
  rewrite H by (left; reflexivity). apply IH. intros y Hy. apply H. right. exact Hy.
Qed.

Lemma find_exact_matches_fold (t q : list Z) (l : list nat) acc :
  fold_left
    (fun acc i =>
       if bytes_eqb (firstn (List.length q) (skipn i t)) q
       then acc ++ [(i, (i + List.length q)%nat)] else acc) l acc
  = acc ++ map (fun i => (i, (i + List.length q)%nat))
               (filter (fun i => bytes_eqb (firstn (List.length q) (skipn i t)) q) l).
Proof.
  revert acc; induction l as [|i l IH]; intros acc; simpl.
  - rewrite app_nil_r. reflexivity.
  - destruct (bytes_eqb (firstn (List.length q) (skipn i t)) q); rewrite IH;
      [rewrite <- app_assoc; reflexivity | reflexivity].
Qed.

(** For a non-empty quote the sliding window finds exactly the
    occurrences, in ascending order. *)
Lemma find_exact_matches_occurrences (t q : list Z) :
  q <> [] ->
  find_exact_matches t q = map (fun i => (i, (i + List.length q)%nat)) (occurrences t q).
Proof.
  intros Hq. unfold find_exact_matches, occurrences.
  assert (Hl : List.length q <> 0%nat) by (destruct q; [contradiction | discriminate]).
  apply Nat.eqb_neq in Hl. rewrite Hl. simpl orb.
  destruct (List.length t <? List.length q)%nat eqn:Hlt.
  - apply Nat.ltb_lt in Hlt.
    rewrite filter_all_false; [reflexivity|].
    intros i _. unfold occurs_at.
    destruct (i + List.length q <=? List.length t)%nat eqn:E; [|apply andb_false_r].
    apply Nat.leb_le in E. lia.
  - apply Nat.ltb_ge in Hlt.
    rewrite find_exact_matches_fold. simpl app.
    replace (S (List.length t))
      with ((List.length t - List.length q + 1) + List.length q)%nat by lia.
    rewrite (seq_app (List.length t - List.length q + 1) (List.length q) 0), filter_app.
    rewrite (filter_all_false _ (seq (0 + _) _)), app_nil_r.
    + f_equal. apply filter_ext_in.
      intros i Hi. apply in_seq in Hi. unfold occurs_at.
      replace (i + List.length q <=? List.length t)%nat with true
        by (symmetry; apply Nat.leb_le; lia).
      rewrite andb_true_r. reflexivity.
    + intros i Hi. apply in_seq in Hi. unfold occurs_at.
      destruct (i + List.length q <=? List.length t)%nat eqn:E; [|apply andb_false_r].
      apply Nat.leb_le in E. lia.
Qed.

Lemma find_exact_matches_empty_quote (t : list Z) : find_exact_matches t [] = [].
Proof. reflexivity. Qed.

Lemma occurrences_spec (t q : list Z) (i : nat) :
  In i (occurrences t q) <->
  (i + List.length q <= List.length t)%nat /\ firstn (List.length q) (skipn i t) = q.
Proof.
  unfold occurrences, occurs_at. rewrite filter_In, in_seq, andb_true_iff, bytes_eqb_eq, Nat.leb_le.
  split; [intros [_ [H1 H2]]; split; assumption | intros [H1 H2]; repeat split; lia || assumption].
Qed.

Lemma hd_filter_seq_min (f : nat -> bool) (a n h i : nat) :
  hd_error (filter f (seq a n)) = Some h -> In i (filter f (seq a n)) -> (h <= i)%nat.
Proof.
  revert a; induction n as [|n IH]; intros a Hh Hi; simpl in *; [discriminate|].
  destruct (f a) eqn:Fa; simpl in *.
  - injection Hh as <-. destruct Hi as [<-|Hi]; [lia|].
    apply filter_In in Hi as [Hi _]. apply in_seq in Hi. lia.
  - eapply IH; eassumption.
Qed.

(** Claim C3 (as the code has it): for a non-empty quote [q],
    [find_quote t q] lists the spans [(i, i + |q|)] for exactly the offsets
    [i] where [q] occurs in [t], in ascending order; so its status is
    [Unresolved], [Resolved] or [Ambiguous] for zero, one or several
    occurrences, the selected span is the lowest occurrence, [match_info]
    is (number of occurrences, rank 1), and every span's bytes equal the
    quote. For the empty quote [find_quote] finds no span. *)
Theorem find_quote_resolution (t q : list Z) :
  (q = [] -> matches (find_quote t q) = [] /\ status (find_quote t q) = Unresolved) /\
  (q <> [] ->
   let r := find_quote t q in
   let occ := occurrences t q in
   (forall i, In i occ <->
              (i + List.length q <= List.length t)%nat /\ firstn (List.length q) (skipn i t) = q) /\
   matches r = map (fun i => (i, (i + List.length q)%nat)) occ /\
   status r = count_status (List.length occ) /\
   match_info r = (List.length occ, 1%nat) /\
   selected_match r = option_map (fun i => (i, (i + List.length q)%nat)) (hd_error occ) /\
   (forall s e, selected_match r = Some (s, e) -> forall i, In i occ -> (s <= i)%nat) /\
   (forall s e, In (s, e) (matches r) ->
                (e <= List.length t)%nat /\ firstn (e - s) (skipn s t) = q)).
Proof.
  split.
  - intros ->. split; reflexivity.
  - intros Hq. cbv zeta.
    assert (Hm : matches (find_quote t q)
                 = map (fun i => (i, (i + List.length q)%nat)) (occurrences t q))
      by (apply find_exact_matches_occurrences, Hq).
    split; [apply occurrences_spec|].
    split; [exact Hm|].
    split.
    { unfold status. rewrite Hm.
      destruct (occurrences t q) as [|a [|b l]]; reflexivity. }
    split.
    { unfold match_info. rewrite Hm, length_map. reflexivity. }
    split.
    { unfold selected_match. rewrite Hm. destruct (occurrences t q); reflexivity. }
    split.
    { intros s0 e0 Hs i Hi. unfold selected_match in Hs. rewrite Hm in Hs.
      destruct (occurrences t q) as [|h l] eqn:Ho; [discriminate|].
      simpl in Hs. injection Hs as <- _.
      unfold occurrences in Ho.
      eapply hd_filter_seq_min; [rewrite Ho; reflexivity|]. rewrite Ho. exact Hi. }
    intros s0 e0 Hin. rewrite Hm in Hin.
    apply in_map_iff in Hin as [i [Hi Hocc]]. injection Hi as <- <-.
    apply occurrences_spec in Hocc as [H1 H2].
    replace (i + List.length q - i)%nat with (List.length q) by lia.
    split; [exact H1 | exact H2].
Qed.

Lemma find_quote_resolution_witness :
  (find_quote [102; 111; 111; 32; 102; 111; 111] [102; 111; 111]).(matches)
    = map (fun i => (i, (i + 3)%nat)) (occurrences [102; 111; 111; 32; 102; 111; 111] [102; 111; 111])
  /\ occurrences [102; 111; 111; 32; 102; 111; 111] [102; 111; 111] = [0%nat; 4%nat].
Proof.
  split; [|vm_compute; reflexivity].
  refine (proj1 (proj2 (proj2 (find_quote_resolution
                                 [102; 111; 111; 32; 102; 111; 111] [102; 111; 111]) _))).
  discriminate.
Defined.

(** Claim C3, counterexample: the empty quote occurs (as the empty
    slice) at offsets 0 and 1 of a one-byte text, yet [find_quote] gives
    [Unresolved] with no span, where two occurrences call for
    [Ambiguous]. *)
Lemma find_quote_empty_quote_unresolved :
  occurrences [97] [] = [0%nat; 1%nat] /\
  status (find_quote [97] []) = Unresolved /\
  status (find_quote [97] []) <> count_status (List.length (occurrences [97] [])).
Proof.
  split; [reflexivity|]. split; [reflexivity|]. vm_compute. discriminate.
Qed.

(** *** UTF-8 well-formedness under splitting and joining *)

Lemma cont_not_lead (x : Z) : is_cont x = true -> lead_class x = None.
Proof.
  unfold is_cont, in_range. intros H. apply andb_true_iff in H as [H1 H2].
  apply Z.leb_le in H1. apply Z.leb_le in H2.
  unfold lead_class.
  replace (x <=? 0x7F) with false by (symmetry; apply Z.leb_gt; lia).
  replace (0xC2 <=? x) with false by (symmetry; apply Z.leb_gt; lia).
  replace (x =? 0xE0) with false by (symmetry; apply Z.eqb_neq; lia).
  replace (0xE1 <=? x) with false by (symmetry; apply Z.leb_gt; lia).
  replace (0xEE <=? x) with false by (symmetry; apply Z.leb_gt; lia).
  replace (x =? 0xED) with false by (symmetry; apply Z.eqb_neq; lia).
  replace (x =? 0xF0) with false by (symmetry; apply Z.eqb_neq; lia).
  replace (0xF1 <=? x) with false by (symmetry; apply Z.leb_gt; lia).
  replace (x =? 0xF4) with false by (symmetry; apply Z.eqb_neq; lia).
  rewrite !andb_false_r. reflexivity.
Qed.

Lemma lead_not_cont (x : Z) c : lead_class x = Some c -> is_cont x = false.
Proof.
  intros H. destruct (is_cont x) eqn:E; [|reflexivity].
  rewrite (cont_not_lead x E) in H. discriminate.
Qed.

(** The first byte after a multi-byte lead lies in a continuation range. *)
Lemma lead_range_cont (x lo hi b : Z) (k : nat) :
  lead_class x = Some (S k, lo, hi) -> in_range lo hi b = true -> is_cont b = true.
Proof.
  intros H Hb. unfold is_cont, in_range in *.
  apply andb_true_iff in Hb as [H1 H2]. apply Z.leb_le in H1. apply Z.leb_le in H2.
  assert (0x80 <= lo /\ hi <= 0xBF) as [L1 L2].
  { unfold lead_class in H.
    repeat match type of H with context [if ?c then _ else _] => destruct c end;
      inversion H; subst; lia. }
  apply andb_true_iff; split; apply Z.leb_le; lia.
Qed.

Lemma valid_head_ok (s : list Z) : utf8_valid s = true -> head_ok s.
Proof.
  destruct s as [|x r]; intros H; [left; reflexivity|].
  right. exists x, r. split; [reflexivity|].
  simpl in H. destruct (lead_class x) eqn:Hx; [|discriminate].
  eapply lead_not_cont; exact Hx.
Qed.

Lemma utf8_valid_app_n (n : nat) (a b : list Z) :
  (List.length a <= n)%nat -> utf8_valid a = true -> utf8_valid b = true ->
  utf8_valid (a ++ b) = true.
Proof.
  revert a; induction n as [|n IH]; intros a Hl Ha Hb.
  - destruct a; [exact Hb | simpl in Hl; lia].
  - destruct a as [|x a']; [exact Hb|].
    simpl in Ha |- *. destruct (lead_class x) as [[[k lo] hi]|]; [|discriminate].
    simpl in Hl.
    destruct k as [|[|[|[|k]]]]; try discriminate.
    + apply IH; [lia | exact Ha | exact Hb].
    + destruct a' as [|y a'']; [discriminate|].
      apply andb_true_iff in Ha as [H1 H2]. simpl.
      rewrite H1, IH; [reflexivity | simpl in Hl; lia | exact H2 | exact Hb].
    + destruct a' as [|y [|z a'']]; try discriminate.
      apply andb_true_iff in Ha as [Ha H3]. apply andb_true_iff in Ha as [H1 H2].
      simpl. rewrite H1, H2, IH; [reflexivity | simpl in Hl; lia | exact H3 | exact Hb].
    + destruct a' as [|y [|z [|w a'']]]; try discriminate.
      apply andb_true_iff in Ha as [Ha H4]. apply andb_true_iff in Ha as [Ha H3].
      apply andb_true_iff in Ha as [H1 H2].
      simpl. rewrite H1, H2, H3, IH; [reflexivity | simpl in Hl; lia | exact H4 | exact Hb].
Qed.

Lemma utf8_valid_app (a b : list Z) :
  utf8_valid a = true -> utf8_valid b = true -> utf8_valid (a ++ b) = true.
Proof. apply utf8_valid_app_n with (n := List.length a). lia. Qed.

(** Ltac for the cases where a character would straddle the split point:
    the byte after the split is a continuation byte, against [head_ok]. *)
Ltac straddle Hx Hb Hv :=
  destruct Hb as [->|[w [b' [-> Hw]]]]; [discriminate|];
  repeat match type of Hv with
         | match ?l with [] => _ | _ :: _ => _ end = true => destruct l; [discriminate|]
         end;
  repeat match type of Hv with
         | _ && _ = true => apply andb_true_iff in Hv as [Hv ?]
         end;
  match goal with
  | H : in_range _ _ w = true |- _ =>
      rewrite (lead_range_cont _ _ _ _ _ Hx H) in Hw; discriminate
  | H : is_cont w = true |- _ => rewrite H in Hw; discriminate
  end.

Lemma utf8_valid_split_n (n : nat) (a b : list Z) :
  (List.length a <= n)%nat -> utf8_valid (a ++ b) = true -> head_ok b ->
  utf8_valid a = true /\ utf8_valid b = true.
Proof.
  revert a; induction n as [|n IH]; intros a Hl Hv Hb.
  - destruct a; [split; [reflexivity | exact Hv] | simpl in Hl; lia].
  - destruct a as [|x a']; [split; [reflexivity | exact Hv]|].
    simpl in Hl. simpl in Hv |- *.
    destruct (lead_class x) as [[[k lo] hi]|] eqn:Hx; [|discriminate].
    destruct k as [|[|[|[|k]]]]; try discriminate.
    + apply IH; [lia | exact Hv | exact Hb].
    + destruct a' as [|y a''].
      * simpl in Hv. straddle Hx Hb Hv.
      * simpl in Hv. apply andb_true_iff in Hv as [H1 H2].
        destruct (IH a'' ltac:(simpl in Hl; lia) H2 Hb) as [IH1 IH2].
        rewrite H1, IH1. split; [reflexivity | exact IH2].
    + destruct a' as [|y [|z a'']].
      * simpl in Hv. straddle Hx Hb Hv.
      * simpl in Hv. straddle Hx Hb Hv.
      * simpl in Hv. apply andb_true_iff in Hv as [Hv H3]. apply andb_true_iff in Hv as [H1 H2].
        destruct (IH a'' ltac:(simpl in Hl; lia) H3 Hb) as [IH1 IH2].
        rewrite H1, H2, IH1. split; [reflexivity | exact IH2].
    + destruct a' as [|y [|z [|u a'']]].
      * simpl in Hv. straddle Hx Hb Hv.
      * simpl in Hv. straddle Hx Hb Hv.
      * simpl in Hv. straddle Hx Hb Hv.
      * simpl in Hv. apply andb_true_iff in Hv as [Hv H4]. apply andb_true_iff in Hv as [Hv H3].
        apply andb_true_iff in Hv as [H1 H2].
        destruct (IH a'' ltac:(simpl in Hl; lia) H4 Hb) as [IH1 IH2].
        rewrite H1, H2, H3, IH1. split; [reflexivity | exact IH2].
Qed.

Lemma utf8_valid_split (a b : list Z) :
  utf8_valid (a ++ b) = true -> head_ok b -> utf8_valid a = true /\ utf8_valid b = true.
Proof. apply utf8_valid_split_n with (n := List.length a). lia. Qed.

(** *** Character boundaries *)

Lemma boundary_le (s : list Z) (i : nat) :
  is_char_boundary s i = true -> (i <= List.length s)%nat.
Proof.
  unfold is_char_boundary. destruct i as [|k]; [lia|].
  destruct (nth_error s (S k)) eqn:E; intros H.
  - assert (Hs : nth_error s (S k) <> None) by (rewrite E; discriminate).
    apply nth_error_Some in Hs. lia.
  - apply Nat.eqb_eq in H. lia.
Qed.

Lemma boundary_len (s : list Z) : is_char_boundary s (List.length s) = true.
Proof.
  unfold is_char_boundary. destruct (List.length s) eqn:E; [reflexivity|].
  rewrite <- E. rewrite (proj2 (nth_error_None s (List.length s)) (le_n _)).
  apply Nat.eqb_refl.
Qed.

Lemma nth_error_skipn_cons (s : list Z) (i : nat) (b : Z) :
  nth_error s i = Some b -> exists r, skipn i s = b :: r.
Proof.
  revert s; induction i as [|i IH]; intros [|x s] H; simpl in *; try discriminate.
  - injection H as ->. exists s. reflexivity.
  - apply IH, H.
Qed.

Lemma boundary_head_ok (s : list Z) (i : nat) :
  utf8_valid s = true -> is_char_boundary s i = true -> head_ok (skipn i s).
Proof.
  intros Hv Hb. destruct i as [|k]; [apply valid_head_ok, Hv|].
  unfold is_char_boundary in Hb.
  destruct (nth_error s (S k)) as [b|] eqn:E.
  - destruct (nth_error_skipn_cons s (S k) b E) as [r Hr].
    right. exists b, r. split; [exact Hr|]. apply negb_true_iff, Hb.
  - left. apply skipn_all2. apply nth_error_None, E.
Qed.

(** A well-formed string splits at a boundary into two well-formed
    strings. *)
Lemma valid_skipn_boundary (s : list Z) (i : nat) :
  utf8_valid s = true -> is_char_boundary s i = true ->
  utf8_valid (firstn i s) = true /\ utf8_valid (skipn i s) = true.
Proof.
  intros Hv Hb. apply utf8_valid_split; [rewrite firstn_skipn; exact Hv|].
  apply boundary_head_ok; assumption.
Qed.

(** [&s[a..b]] of a well-formed string between boundaries is well
    formed. *)
Lemma valid_slice (s : list Z) (a b : nat) :
  utf8_valid s = true -> (a <= b)%nat ->
  is_char_boundary s a = true -> is_char_boundary s b = true ->
  utf8_valid (firstn (b - a) (skipn a s)) = true.
Proof.
  intros Hv Hab Ha Hb.
  destruct (valid_skipn_boundary s a Hv Ha) as [_ Hs].
  apply (utf8_valid_split _ (skipn (b - a) (skipn a s))).
  - rewrite firstn_skipn. exact Hs.
  - rewrite skipn_skipn. replace (b - a + a)%nat with b by lia.
    apply boundary_head_ok; assumption.
Qed.

Lemma snap_back_spec (s : list Z) (i : nat) :
  is_char_boundary s (snap_back s i) = true /\ (snap_back s i <= i)%nat.
Proof.
  induction i as [|k IH]; cbn [snap_back]; [split; [reflexivity | lia]|].
  destruct (is_char_boundary s (S k)) eqn:E; [split; [exact E | lia]|].
  destruct IH as [IH1 IH2]. split; [exact IH1 | lia].
Qed.

Lemma snap_fwd_spec (s : list Z) (fuel i : nat) :
  (i <= List.length s)%nat -> (List.length s - i <= fuel)%nat ->
  (i <= snap_fwd s fuel i <= List.length s)%nat /\
  is_char_boundary s (snap_fwd s fuel i) = true.
Proof.
  revert i; induction fuel as [|f IH]; intros i H1 H2; simpl.
  - replace i with (List.length s) by lia. split; [lia | apply boundary_len].
  - destruct ((i <? List.length s)%nat && negb (is_char_boundary s i)) eqn:E.
    + apply andb_true_iff in E as [E _]. apply Nat.ltb_lt in E.
      destruct (IH (S i) ltac:(lia) ltac:(lia)) as [[L1 L2] B].
      split; [lia | exact B].
    + split; [lia|].
      apply andb_false_iff in E as [E|E].
      * apply Nat.ltb_ge in E. replace i with (List.length s) by lia. apply boundary_len.
      * apply negb_false_iff, E.
Qed.

(** Claim C8: for a well-formed UTF-8 transcript (of fewer than [2^63]
    bytes, as any Rust allocation) and character boundaries
    [start <= end_ <= len], with a [usize] [window],
    [extract_anchor_text] does not panic: it slices between boundaries
    [a <= start] and [end_ <= b <= len] found by snapping outward, and
    the returned anchor, with its ellipses, is well-formed UTF-8. *)
Theorem extract_anchor_text_utf8 (t : list Z) (start end_ window : nat) :
  utf8_valid t = true ->
  (start <= end_ <= List.length t)%nat ->
  is_char_boundary t start = true -> is_char_boundary t end_ = true ->
  Z.of_nat (List.length t) < 2 ^ 63 -> Z.of_nat window < 2 ^ 64 ->
  exists a b r,
    (a <= start)%nat /\ (end_ <= b <= List.length t)%nat /\
    is_char_boundary t a = true /\ is_char_boundary t b = true /\
    r = (if (0 <? a)%nat then ellipsis else []) ++ firstn (b - a) (skipn a t)
        ++ (if (b <? List.length t)%nat then ellipsis else []) /\
    extract_anchor_text t start end_ window = Some r /\
    utf8_valid r = true.
Proof.
  intros Hv [Hse Hel] _ _ Hlen Hwin.
  unfold extract_anchor_text.
  replace (end_ <? start)%nat with false by (symmetry; apply Nat.ltb_ge; lia).
  set (each := Nat.div (window - (end_ - start)) 2).
  assert (Hov : Z.of_nat (end_ + each) < 2 ^ 64).
  { unfold each. rewrite Nat2Z.inj_add, Nat2Z.inj_div.
    set (m := Z.of_nat (window - (end_ - start))).
    assert (Hw : 0 <= m <= Z.of_nat window) by (unfold m; lia).
    assert (Hd : 2 * (m / 2) <= m) by (apply Z.mul_div_le; lia).
    assert (Hp : 0 <= m / 2) by (apply Z.div_pos; lia).
    simpl (Z.of_nat 2). lia. }
  replace (Z.of_nat (end_ + each) >=? 2 ^ 64) with false
    by (symmetry; rewrite Z.geb_leb; apply Z.leb_gt; lia).
  set (a := snap_back t (start - each)).
  set (e0 := Nat.min (end_ + each) (List.length t)).
  set (b := snap_fwd t (List.length t - e0) e0).
  destruct (snap_back_spec t (start - each)) as [Ba La]. fold a in Ba, La.
  destruct (snap_fwd_spec t (List.length t - e0) e0 ltac:(unfold e0; lia) ltac:(lia))
    as [[Lb1 Lb2] Bb]. fold b in Lb1, Lb2, Bb.
  assert (Hab : (a <= b)%nat) by (unfold e0 in Lb1; lia).
  assert (Hsl : str_slice t a b = Some (firstn (b - a) (skipn a t))).
  { unfold str_slice. rewrite Ba, Bb.
    replace (a <=? b)%nat with true by (symmetry; apply Nat.leb_le; exact Hab).
    reflexivity. }
  rewrite Hsl.
  eexists a, b, _.
  split; [lia|]. split; [unfold e0 in Lb1; lia|].
  split; [exact Ba|]. split; [exact Bb|].
  split; [reflexivity|]. split; [reflexivity|].
  apply utf8_valid_app; [destruct (0 <? a)%nat; reflexivity|].
  apply utf8_valid_app; [apply valid_slice; assumption|].
  destruct (b <? List.length t)%nat; reflexivity.
Qed.

Lemma extract_anchor_text_utf8_witness :
  extract_anchor_text [104; 195; 169; 108; 108; 111; 226; 130; 172] 3 5 4
    = Some [46; 46; 46; 195; 169; 108; 108; 111; 46; 46; 46] /\
  exists a b r,
    (a <= 3)%nat /\ (5 <= b <= 9)%nat /\
    is_char_boundary [104; 195; 169; 108; 108; 111; 226; 130; 172] a = true /\
    is_char_boundary [104; 195; 169; 108; 108; 111; 226; 130; 172] b = true /\
    r = (if (0 <? a)%nat then ellipsis else [])
        ++ firstn (b - a) (skipn a [104; 195; 169; 108; 108; 111; 226; 130; 172])
        ++ (if (b <? 9)%nat then ellipsis else []) /\
    extract_anchor_text [104; 195; 169; 108; 108; 111; 226; 130; 172] 3 5 4 = Some r /\
    utf8_valid r = true.
Proof.
  split; [vm_compute; reflexivity|].
  apply (extract_anchor_text_utf8 [104; 195; 169; 108; 108; 111; 226; 130; 172] 3 5 4).
  - vm_compute. reflexivity.
  - simpl. lia.
  - vm_compute. reflexivity.
  - vm_compute. reflexivity.
  - simpl. lia.
  - simpl. lia.
Defined.

End SpanFacts.

(* ------------------------------------------------------------------ *)
(** ** Retry back-off *)

Module RetryFacts.

Import Retry Views.




End RetryFacts.

(* ------------------------------------------------------------------ *)
(** ** Runs and resumption *)

Module EngineFacts.

Import Orch Engine Views.
Open Scope string_scope.

(** Claim C1: on resume, the artifact map that step inputs are resolved
    against starts empty and is not read back from the artifact store:
    when the first step [resume_run] visits takes its input from a
    previous step (which the log records as completed), [resume_run]
    fails with the missing-artifact error, whatever the store holds on
    disk, before calling the executor and without appending to the
    log. *)
Theorem resume_run_ignores_stored_artifacts
    (execute : nat -> string -> string -> Z -> (string + string) * Z)
    (rid : string) (p : Pipeline) (inp : string) (st : St)
    (evs : list Event) (r : Run) (i : nat) (s : Step) (rest : list (nat * Step)) (q : string) :
  replay_lines (log (store st)) = Some evs ->
  from_events evs = Some r ->
  resume_schedule p (current_step r) = (i, s) :: rest ->
  input_from s = PreviousStep q ->
  check (safety_limits p) (new_tracker (clock st)) (clock st) = None ->
  fst (resume_run execute rid p inp st) = inr (EMissingStep (step_name s) q) /\
  store (snd (resume_run execute rid p inp st)) = store st /\
  calls (snd (resume_run execute rid p inp st)) = calls st.
Proof.
  intros Hr Hf Hs Hin Hc.
  assert (Ha : artifacts r = []).
  { destruct evs as [|e0 evs0]; [discriminate|].
    unfold from_events in Hf. cbn beta iota in Hf. injection Hf as <-.
    rewrite StoreFacts.fold_apply_artifacts, StoreFacts.apply_event_artifacts. reflexivity. }
  assert (E : resume_run execute rid p inp st =
              (inr (EMissingStep (step_name s) q),
               {| store := store st; calls := calls st; clock := clock st;
                  run := set_current_step r i; tracker := new_tracker (clock st) |})).
  { unfold resume_run, bind, replay. rewrite Hr.
    destruct evs as [|e0 evs0]; [discriminate|]. cbn beta iota. rewrite Hf, Hs, Ha.
    cbn -[check resolve_input]. rewrite Hc.
    unfold resolve_input. rewrite Hin. reflexivity. }
  rewrite E. split; [reflexivity|]. split; reflexivity.
Qed.

(** The run of [Scenario.pipe] started afresh on ["hello"] completes with
    the artifacts [A = "hello"] and [B = "HELLO"]. *)
Example run_pipeline_fresh_completes :
  let res := run_pipeline Scenario.exec (fun _ _ => false) Scenario.pipe "hello" "R1" Scenario.fresh in
  fst res = inl (run (snd res)) /\
  state (run (snd res)) = RCompleted /\
  option_map content (amap_get "A" (artifacts (run (snd res)))) = Some "hello" /\
  option_map content (amap_get "B" (artifacts (run (snd res)))) = Some "HELLO".
Proof. vm_compute. repeat split. Qed.

(** Resuming run ["R1"] of [Scenario.pipe] after step [A] completed, with
    ["hello"] stored as [A]'s artifact, fails: step [B] does not see it. *)
Lemma resume_run_ignores_stored_artifacts_witness :
  store_load_artifact Scenario.crashed_store "A" = Some "hello" /\
  fst (resume_run Scenario.exec "R1" Scenario.pipe "hello" Scenario.crashed)
    = inr (EMissingStep "B" "A") /\
  store (snd (resume_run Scenario.exec "R1" Scenario.pipe "hello" Scenario.crashed))
    = Scenario.crashed_store /\
  calls (snd (resume_run Scenario.exec "R1" Scenario.pipe "hello" Scenario.crashed)) = 0%nat.
Proof.
  split; [reflexivity|].
  eapply (resume_run_ignores_stored_artifacts Scenario.exec "R1" Scenario.pipe "hello"
            Scenario.crashed _ _ 1 Scenario.stB [] "A").
  - reflexivity.
  - reflexivity.
  - vm_compute. reflexivity.
  - reflexivity.
  - vm_compute. reflexivity.
Defined.

Section Safety.

Variable execute : nat -> string -> string -> Z -> (string + string) * Z.
Variable glob : string -> string -> bool.

(** A violation found by the check before a step ends the run in
    [SafetyLimitReached], appending its [SafetyLimitReached] event,
    without calling the executor. *)
Lemma run_steps_check_violation (lim : SafetyLimits) (pinput : string) (idx : nat)
    (s : Step) (rest : list Step) (arts : amap Artifact) (st : St) (v : SafetyViolation) :
  check lim (tracker st) (clock st) = Some v ->
  run_steps execute glob lim pinput idx (s :: rest) arts st =
  (inl (set_state (set_current_step (run st) idx) (RSafetyLimitReached (violation_to_string v))),
   {| store := store_append (store st)
                 (with_error (mk_event (id (run st)) None SafetyLimitReached
                                (id (run st) ++ ":safety") SFailed) (violation_to_string v));
      calls := calls st; clock := clock st;
      run := set_state (set_current_step (run st) idx) (RSafetyLimitReached (violation_to_string v));
      tracker := tracker st |}).
Proof. intros Hc. cbn -[check]. rewrite Hc. reflexivity. Qed.

Lemma resume_steps_check_violation (lim : SafetyLimits) (rid pinput : string) (idx : nat)
    (s : Step) (rest : list (nat * Step)) (arts : amap Artifact) (st : St) (v : SafetyViolation) :
  check lim (tracker st) (clock st) = Some v ->
  resume_steps execute lim rid pinput ((idx, s) :: rest) arts st =
  (inl (set_state (set_current_step (run st) idx) (RSafetyLimitReached (violation_to_string v))),
   {| store := store_append (store st)
                 (with_error (mk_event (id (run st)) None SafetyLimitReached
                                (id (run st) ++ ":safety") SFailed) (violation_to_string v));
      calls := calls st; clock := clock st;
      run := set_state (set_current_step (run st) idx) (RSafetyLimitReached (violation_to_string v));
      tracker := tracker st |}).
Proof. intros Hc. cbn -[check]. rewrite Hc. reflexivity. Qed.

(** An attempt whose output is over the limit stops the retry loop with
    the violation, after one executor call. *)
Lemma attempt_loop_output_violation fuel (s : Step) (inp : string) (lim : SafetyLimits) key attempt (st : St) out dt v :
  execute (calls st) (action s) inp (step_timeout s lim) = (inl out, dt) ->
  validate_output lim out = Some v ->
  attempt_loop execute fuel s inp lim key attempt st =
  (inr (ESafety v),
   {| store := store_append (store st) (mk_event (id (run st)) (Some (step_name s)) StepStarted key SRunning);
      calls := S (calls st); clock := (clock st + dt)%Z;
      run := set_step_status (run st) (step_name s) SRunning; tracker := tracker st |}).
Proof.
  intros Hex Hout.
  destruct fuel; cbn -[validate_output]; unfold bind at 1, call_executor; cbn [calls store clock run tracker]; rewrite Hex; cbn -[validate_output]; rewrite Hout; reflexivity.
Qed.

(** A step not yet completed goes to the retry loop from attempt 1. *)
Lemma execute_step_with_retry_fresh (s : Step) (sin : string) (lim : SafetyLimits) (st : St) :
  store_is_step_completed (store st) (generate_idempotency_key (id (run st)) (step_name s) sin)
    = Some false ->
  execute_step_with_retry execute s sin lim st =
  attempt_loop execute (Z.to_nat (Retry.max_attempts (retry_policy s))) s sin lim
    (generate_idempotency_key (id (run st)) (step_name s) sin) 1 st.
Proof.
  intros Hd. unfold execute_step_with_retry, bind at 1, get_run, bind, is_step_completed.
  rewrite Hd. reflexivity.
Qed.


(** An output over [max_output_bytes] is not retried: the step's single
    executor call is followed by [handle_run_failure], so the run ends in
    [Failed] with a [RunFailed] event and no [SafetyLimitReached]
    event. *)
Lemma run_steps_output_violation (lim : SafetyLimits) (pinput : string) (idx : nat)
    (s : Step) (rest : list Step) (arts : amap Artifact) (st : St)
    (sin out : string) (dt : Z) (v : SafetyViolation) :
  check lim (tracker st) (clock st) = None ->
  resolve_input pinput arts s = inl sin ->
  validate_input glob lim sin None = None ->
  store_is_step_completed (store st)
    (generate_idempotency_key (id (run st)) (step_name s) sin) = Some false ->
  execute (calls st) (action s) sin (step_timeout s lim) = (inl out, dt) ->
  validate_output lim out = Some v ->
  let res := run_steps execute glob lim pinput idx (s :: rest) arts st in
  fst res = inl (run (snd res)) /\
  state (run (snd res)) = RFailed (violation_to_string v) /\
  calls (snd res) = S (calls st) /\
  log (store (snd res)) =
    (log (store st) ++
     [ERecord (mk_event (id (run st)) (Some (step_name s)) StepStarted
                 (generate_idempotency_key (id (run st)) (step_name s) sin) SRunning);
      ERecord (with_error (mk_event (id (run st)) None RunFailed
                             (id (run st) ++ ":complete") SFailed) (violation_to_string v))])%list.
Proof.
  intros Hc Hres Hval Hdone Hex Hout. cbv zeta.
  cbn -[check resolve_input validate_input execute_step_with_retry].
  rewrite Hc, Hres, Hval.
  unfold catch.
  rewrite (execute_step_with_retry_fresh s sin lim
             {| store := store st; calls := calls st; clock := clock st;
                run := set_current_step (run st) idx; tracker := tracker st |} Hdone).
  rewrite (attempt_loop_output_violation _ s sin lim _ 1
             {| store := store st; calls := calls st; clock := clock st;
                run := set_current_step (run st) idx; tracker := tracker st |} out dt v Hex Hout).
  cbn -[error_to_string generate_idempotency_key].
  split; [reflexivity|]. split; [reflexivity|]. split; [reflexivity|].
  rewrite <- app_assoc. reflexivity.
Qed.

(** An input over [max_input_bytes] makes [run_pipeline]'s step loop
    return the error at once: no terminal state, no event. *)
Lemma run_steps_input_violation (lim : SafetyLimits) (pinput : string) (idx : nat)
    (s : Step) (rest : list Step) (arts : amap Artifact) (st : St) (sin : string) :
  check lim (tracker st) (clock st) = None ->
  resolve_input pinput arts s = inl sin ->
  (max_input_bytes lim < Z.of_nat (String.length sin))%Z ->
  run_steps execute glob lim pinput idx (s :: rest) arts st =
  (inr (ESafety (MaxInputBytes (Z.of_nat (String.length sin)) (max_input_bytes lim))),
   {| store := store st; calls := calls st; clock := clock st;
      run := set_current_step (run st) idx; tracker := tracker st |}).
Proof.
  intros Hc Hres Hlt.
  cbn -[check resolve_input validate_input]. rewrite Hc, Hres.
  unfold validate_input. rewrite (proj2 (Z.ltb_lt _ _) Hlt). reflexivity.
Qed.

(** Without a source path, [validate_input] only reports the size. *)
Lemma validate_input_without_path (lim : SafetyLimits) (inp : string) (v : SafetyViolation) :
  validate_input glob lim inp None = Some v ->
  v = MaxInputBytes (Z.of_nat (String.length inp)) (max_input_bytes lim).
Proof.
  unfold validate_input. destruct (max_input_bytes lim <? _)%Z; [|discriminate].
  intros H; injection H as <-. reflexivity.
Qed.

(** A failed executor call (a timeout included) with attempts left is
    retried: [StepRetrying] is logged, the delay slept, and the next
    attempt made. *)
Lemma attempt_loop_failure_retried (f : nat) (s : Step) (inp : string) (lim : SafetyLimits)
    (key : string) (attempt : Z) (st : St) (msg : string) (dt : Z) :
  execute (calls st) (action s) inp (step_timeout s lim) = (inr msg, dt) ->
  Retry.should_retry (retry_policy s) attempt = true ->
  attempt_loop execute (S f) s inp lim key attempt st =
  attempt_loop execute f s inp lim key (attempt + 1)
    {| store := store_append
                  (store_append (store st)
                     (mk_event (id (run st)) (Some (step_name s)) StepStarted key SRunning))
                  (with_error (mk_event (id (run st)) (Some (step_name s)) StepRetrying
                                 (key ++ ":retry:" ++ z_to_dec attempt) SRunning) msg);
       calls := S (calls st);
       clock := (clock st + dt + Retry.delay_for_attempt (retry_policy s) attempt)%Z;
       run := set_step_status (run st) (step_name s) SRunning; tracker := tracker st |}.
Proof.
  intros Hex Hr.
  cbn -[Retry.should_retry Retry.delay_for_attempt z_to_dec].
  unfold bind at 1, call_executor; cbn [calls store clock run tracker]; rewrite Hex.
  cbn -[Retry.should_retry Retry.delay_for_attempt z_to_dec attempt_loop]. rewrite Hr.
  reflexivity.
Qed.
End Safety.

(** Claim C2 (as the code has it): of the safety violations, only those
    found by the check before a step ([MaxSteps], [RunTimeout]) end the run
    in [SafetyLimitReached] with a [SafetyLimitReached] event, in
    [run_pipeline] and in [resume_run], without calling the executor. An
    output over [max_output_bytes] is not retried but ends the run in
    [Failed], logging [RunFailed] and no [SafetyLimitReached] event. An
    input over [max_input_bytes] makes [run_pipeline] return the error
    with no terminal state or event. [validate_input] is called without a
    path, so it never reports [DenylistMatch]; and an executor failure,
    a timeout included, is an ordinary failure that is retried while
    attempts remain (no [StepTimeout] violation arises). *)
Theorem safety_violation_outcomes
    (execute : nat -> string -> string -> Z -> (string + string) * Z)
    (glob : string -> string -> bool) :
  (forall lim pinput idx s rest arts st v,
     check lim (tracker st) (clock st) = Some v ->
     let res := run_steps execute glob lim pinput idx (s :: rest) arts st in
     fst res = inl (run (snd res)) /\
     state (run (snd res)) = RSafetyLimitReached (violation_to_string v) /\
     log (store (snd res)) =
       (log (store st) ++
        [ERecord (with_error (mk_event (id (run st)) None SafetyLimitReached
                                (id (run st) ++ ":safety") SFailed) (violation_to_string v))])%list /\
     calls (snd res) = calls st) /\
  (forall lim rid pinput idx s rest arts st v,
     check lim (tracker st) (clock st) = Some v ->
     let res := resume_steps execute lim rid pinput ((idx, s) :: rest) arts st in
     fst res = inl (run (snd res)) /\
     state (run (snd res)) = RSafetyLimitReached (violation_to_string v) /\
     log (store (snd res)) =
       (log (store st) ++
        [ERecord (with_error (mk_event (id (run st)) None SafetyLimitReached
                                (id (run st) ++ ":safety") SFailed) (violation_to_string v))])%list /\
     calls (snd res) = calls st) /\
  (forall lim pinput idx s rest arts st sin out dt v,
     check lim (tracker st) (clock st) = None ->
     resolve_input pinput arts s = inl sin ->
     validate_input glob lim sin None = None ->
     store_is_step_completed (store st)
       (generate_idempotency_key (id (run st)) (step_name s) sin) = Some false ->
     execute (calls st) (action s) sin (step_timeout s lim) = (inl out, dt) ->
     validate_output lim out = Some v ->
     let res := run_steps execute glob lim pinput idx (s :: rest) arts st in
     fst res = inl (run (snd res)) /\
     state (run (snd res)) = RFailed (violation_to_string v) /\
     calls (snd res) = S (calls st) /\
     log (store (snd res)) =
       (log (store st) ++
        [ERecord (mk_event (id (run st)) (Some (step_name s)) StepStarted
                    (generate_idempotency_key (id (run st)) (step_name s) sin) SRunning);
         ERecord (with_error (mk_event (id (run st)) None RunFailed
                                (id (run st) ++ ":complete") SFailed) (violation_to_string v))])%list) /\
  (forall lim pinput idx s rest arts st sin,
     check lim (tracker st) (clock st) = None ->
     resolve_input pinput arts s = inl sin ->
     max_input_bytes lim < Z.of_nat (String.length sin) ->
     let res := run_steps execute glob lim pinput idx (s :: rest) arts st in
     fst res = inr (ESafety (MaxInputBytes (Z.of_nat (String.length sin)) (max_input_bytes lim))) /\
     store (snd res) = store st /\ calls (snd res) = calls st) /\
  (forall lim inp v,
     validate_input glob lim inp None = Some v ->
     v = MaxInputBytes (Z.of_nat (String.length inp)) (max_input_bytes lim)) /\
  (forall f s inp lim key attempt st msg dt,
     execute (calls st) (action s) inp (step_timeout s lim) = (inr msg, dt) ->
     Retry.should_retry (retry_policy s) attempt = true ->
     attempt_loop execute (S f) s inp lim key attempt st =
     attempt_loop execute f s inp lim key (attempt + 1)
       {| store := store_append
                     (store_append (store st)
                        (mk_event (id (run st)) (Some (step_name s)) StepStarted key SRunning))
                     (with_error (mk_event (id (run st)) (Some (step_name s)) StepRetrying
                                    (key ++ ":retry:" ++ z_to_dec attempt) SRunning) msg);
          calls := S (calls st);
          clock := clock st + dt + Retry.delay_for_attempt (retry_policy s) attempt;
          run := set_step_status (run st) (step_name s) SRunning; tracker := tracker st |}).
Proof.
  split.
  { intros lim pinput idx s rest arts st v Hc. cbv zeta.
    rewrite (run_steps_check_violation execute glob lim pinput idx s rest arts st v Hc).
    repeat split. }
  split.
  { intros lim rid pinput idx s rest arts st v Hc. cbv zeta.
    rewrite (resume_steps_check_violation execute lim rid pinput idx s rest arts st v Hc).
    repeat split. }
  split.
  { intros lim pinput idx s rest arts st sin out dt v Hc Hr Hv Hd He Ho.
    exact (run_steps_output_violation execute glob lim pinput idx s rest arts st sin out dt v
             Hc Hr Hv Hd He Ho). }
  split.
  { intros lim pinput idx s rest arts st sin Hc Hr Hlt. cbv zeta.
    rewrite (run_steps_input_violation execute glob lim pinput idx s rest arts st sin Hc Hr Hlt).
    repeat split. }
  split.
  { apply validate_input_without_path. }
  intros f s inp lim key attempt st msg dt He Hr.
  apply attempt_loop_failure_retried; assumption.
Qed.

Lemma safety_violation_outcomes_witness :
  let res := run_steps Scenario.exec (fun _ _ => false) Scenario.small_output_lim "hello" 0
               [Scenario.stA] [] Scenario.fresh in
  fst res = inl (run (snd res)) /\
  state (run (snd res)) = RFailed "Maximum output bytes exceeded: 5 > 3" /\
  calls (snd res) = 1%nat /\
  log (store (snd res)) =
    [ERecord (mk_event "R1" (Some "A") StepStarted (generate_idempotency_key "R1" "A" "hello") SRunning);
     ERecord (with_error (mk_event "R1" None RunFailed "R1:complete" SFailed)
                         "Maximum output bytes exceeded: 5 > 3")].
Proof.
  apply (proj1 (proj2 (proj2 (safety_violation_outcomes Scenario.exec (fun _ _ => false))))
           Scenario.small_output_lim "hello" 0%nat Scenario.stA [] [] Scenario.fresh "hello" "hello" 10
           (MaxOutputBytes 5 3)).
  - vm_compute. reflexivity.
  - reflexivity.
  - vm_compute. reflexivity.
  - vm_compute. reflexivity.
  - reflexivity.
  - vm_compute. reflexivity.
Defined.

(** Claim C2, counterexample: a one-step pipeline whose step outputs 5
    bytes under a 3-byte output limit ends in [Failed], not
    [SafetyLimitReached]: the executor ran once, and the log holds a
    [RunFailed] event and no [SafetyLimitReached] event. *)
Lemma output_violation_fails_run :
  let res := run_pipeline Scenario.exec (fun _ _ => false) Scenario.echo_pipe "hello" "R2"
               Scenario.fresh in
  fst res = inl (run (snd res)) /\
  state (run (snd res)) = RFailed "Maximum output bytes exceeded: 5 > 3" /\
  calls (snd res) = 1%nat /\
  existsb (fun l => match l with
                    | ERecord e => match event_type e with SafetyLimitReached => true | _ => false end
                    | _ => false
                    end) (log (store (snd res))) = false /\
  existsb (fun l => match l with
                    | ERecord e => match event_type e with RunFailed => true | _ => false end
                    | _ => false
                    end) (log (store (snd res))) = true.
Proof. vm_compute. repeat split. Qed.

End EngineFacts.

(* ------------------------------------------------------------------ *)
(** ** Evidence hashes, ids, positions and timestamps *)

Module EvidenceFacts.

Import Sha256 Spans Evidence Views SpanFacts.

Lemma string_append_length (s1 s2 : string) :
  String.length (String.append s1 s2) = (String.length s1 + String.length s2)%nat.
Proof. induction s1 as [|c s1 IH]; simpl; [reflexivity | rewrite IH; reflexivity]. Qed.

Lemma all_chars_append (f : ascii -> bool) (s1 s2 : string) :
  all_chars f (String.append s1 s2) = all_chars f s1 && all_chars f s2.
Proof.
  induction s1 as [|c s1 IH]; simpl; [reflexivity|].
  rewrite IH, andb_assoc. reflexivity.
Qed.

Lemma bytes_of_string_append (s1 s2 : string) :
  Orch.bytes_of_string (String.append s1 s2)
  = (Orch.bytes_of_string s1 ++ Orch.bytes_of_string s2)%list.
Proof.
  unfold Orch.bytes_of_string.
  induction s1 as [|c s1 IH]; simpl; [reflexivity | rewrite IH; reflexivity].
Qed.

Lemma string_append_assoc (s1 s2 s3 : string) :
  String.append s1 (String.append s2 s3) = String.append (String.append s1 s2) s3.
Proof. induction s1 as [|c s1 IH]; simpl; [reflexivity | rewrite IH; reflexivity]. Qed.

Lemma firstn_range (n : nat) (l : list Z) :
  Forall (fun b => 0 <= b < 256) l -> Forall (fun b => 0 <= b < 256) (firstn n l).
Proof.
  intros H. revert n; induction H as [|x l Hx _ IH]; intros [|n]; simpl;
    [constructor | constructor | constructor | constructor; [exact Hx | apply IH]].
Qed.

(** The full lowercase hex of a digest is 64 characters. *)
Lemma hex_digest_format (m : list Z) :
  String.length (hex_encode (digest m)) = 64%nat /\
  all_chars is_lower_hex (hex_encode (digest m)) = true.
Proof.
  split; [rewrite HashFacts.hex_encode_length, HashFacts.digest_length; reflexivity|].
  apply HashFacts.hex_encode_lower, HashFacts.digest_range.
Qed.

(** [compute_hash] gives ["sha256:"] followed by the 64 lowercase hex
    characters of the SHA-256 of the bytes, 71 characters in all. *)
Theorem compute_hash_format (bytes : list Z) :
  exists h, compute_hash bytes = String.append "sha256:" h /\
            h = hex_encode (digest bytes) /\
            String.length h = 64%nat /\ all_chars is_lower_hex h = true /\
            String.length (compute_hash bytes) = 71%nat.
Proof.
  destruct (hex_digest_format bytes) as [L H].
  exists (hex_encode (digest bytes)). unfold compute_hash.
  repeat split; try assumption; try reflexivity.
  rewrite string_append_length, L. reflexivity.
Qed.

(** [compute_slice_hash t s e] panics exactly when [e < s] or [e] is past
    the end of [t]; on every span [find_exact_matches t q] reports, it is
    the [compute_hash] of the quote itself. *)
Theorem compute_slice_hash_spec (t q : list Z) (s e : nat) :
  (compute_slice_hash t s e = None <-> (e < s \/ List.length t < e)%nat) /\
  (In (s, e) (find_exact_matches t q) -> compute_slice_hash t s e = Some (compute_hash q)).
Proof.
  split.
  - unfold compute_slice_hash.
    destruct (s <=? e)%nat eqn:E1; destruct (e <=? List.length t)%nat eqn:E2; simpl;
      rewrite ?Nat.leb_le, ?Nat.leb_gt in *;
      split; intros H; try discriminate; try reflexivity; try lia.
  - intros Hin. destruct q as [|b q'] eqn:Hq; [rewrite find_exact_matches_empty_quote in Hin; destruct Hin|].
    rewrite <- Hq in Hin |- *.
    assert (Hne : q <> []) by (rewrite Hq; discriminate).
    rewrite find_exact_matches_occurrences in Hin by exact Hne.
    apply in_map_iff in Hin as [i [Hi Hocc]]. injection Hi as H1 H2. subst s e.
    apply occurrences_spec in Hocc as [Hle Heq].
    unfold compute_slice_hash.
    replace ((i <=? i + List.length q)%nat && (i + List.length q <=? List.length t)%nat) with true
      by (symmetry; apply andb_true_iff; split; apply Nat.leb_le; lia).
    replace (i + List.length q - i)%nat with (List.length q) by lia.
    rewrite Heq. reflexivity.
Qed.

(** [compute_evidence_id] is 16 lowercase hex characters, and it depends
    only on the concatenation of its text inputs and on the concatenated
    decimal texts of the span's ends: the boundaries between the fields
    are not hashed, so inputs that concatenate alike get the same id. *)
Theorem compute_evidence_id_concat (c1 x1 q1 c2 x2 q2 : string) (sp1 sp2 : option (nat * nat)) :
  String.append c1 (String.append x1 q1) = String.append c2 (String.append x2 q2) ->
  match sp1 with
  | Some (s, e) => String.append (Orch.z_to_dec (Z.of_nat s)) (Orch.z_to_dec (Z.of_nat e))
  | None => EmptyString
  end =
  match sp2 with
  | Some (s, e) => String.append (Orch.z_to_dec (Z.of_nat s)) (Orch.z_to_dec (Z.of_nat e))
  | None => EmptyString
  end ->
  String.length (compute_evidence_id c1 x1 q1 sp1) = 16%nat /\
  all_chars is_lower_hex (compute_evidence_id c1 x1 q1 sp1) = true /\
  compute_evidence_id c1 x1 q1 sp1 = compute_evidence_id c2 x2 q2 sp2.
Proof.
  intros Hc Hs. unfold compute_evidence_id.
  split; [rewrite HashFacts.hex_encode_length, length_firstn, HashFacts.digest_length; reflexivity|].
  split; [apply HashFacts.hex_encode_lower, firstn_range, HashFacts.digest_range|].
  assert (Ht : forall sp : option (nat * nat),
             match sp with
             | Some (s, e) => (Orch.bytes_of_string (Orch.z_to_dec (Z.of_nat s))
                               ++ Orch.bytes_of_string (Orch.z_to_dec (Z.of_nat e)))%list
             | None => []
             end
             = Orch.bytes_of_string
                 match sp with
                 | Some (s, e) => String.append (Orch.z_to_dec (Z.of_nat s)) (Orch.z_to_dec (Z.of_nat e))
                 | None => EmptyString
                 end).
  { intros [[s e]|]; [rewrite bytes_of_string_append|]; reflexivity. }
  rewrite !Ht, Hs, <- !bytes_of_string_append.
  rewrite (string_append_assoc x1 q1), (string_append_assoc c1 (String.append x1 q1)), Hc.
  rewrite <- (string_append_assoc c2 (String.append x2 q2)), <- (string_append_assoc x2 q2).
  reflexivity.
Qed.

(** Witness: the ids of the span [(1, 234)] and of the span [(12, 34)],
    and of the fields ["ab"; "c"] and ["a"; "bc"], coincide. *)
Lemma compute_evidence_id_concat_witness :
  compute_evidence_id "ab" "c" "q" (Some (1, 234)%nat)
  = compute_evidence_id "a" "bc" "q" (Some (12, 34)%nat).
Proof.
  exact (proj2 (proj2 (compute_evidence_id_concat "ab" "c" "q" "a" "bc" "q"
                         (Some (1, 234)%nat) (Some (12, 34)%nat) eq_refl eq_refl))).
Defined.

(** Witness: in ["foo bar foo"] the quote ["foo"] is found at [8..11],
    and the slice hash there is the quote's hash. *)
Lemma compute_slice_hash_spec_witness :
  compute_slice_hash (Orch.bytes_of_string "foo bar foo") 8 11
  = Some (compute_hash (Orch.bytes_of_string "foo")).
Proof.
  apply (proj2 (compute_slice_hash_spec (Orch.bytes_of_string "foo bar foo")
                  (Orch.bytes_of_string "foo") 8 11)).
  vm_compute. right. left. reflexivity.
Defined.

(** *** Line and column of an offset *)

Lemma boundary_of_head_ok (l : list Z) (k : nat) :
  (k <= List.length l)%nat -> head_ok (skipn k l) -> is_char_boundary l k = true.
Proof.
  intros Hk Hh. unfold is_char_boundary. destruct k as [|k']; [reflexivity|].
  destruct (nth_error l (S k')) as [b|] eqn:E.
  - destruct (nth_error_skipn_cons l (S k') b E) as [r Hr]. rewrite Hr in Hh.
    destruct Hh as [Hh|[x [r' [Hx Hc]]]]; [discriminate|].
    injection Hx as -> ->. rewrite Hc. reflexivity.
  - apply nth_error_None in E. apply Nat.eqb_eq. lia.
Qed.

(** The end of a prefix followed by a well-formed suffix is a boundary. *)
Lemma boundary_before_valid (l1 l2 : list Z) :
  utf8_valid l2 = true -> is_char_boundary (l1 ++ l2) (List.length l1) = true.
Proof.
  intros Hv. apply boundary_of_head_ok; [rewrite length_app; lia|].
  rewrite skipn_app, skipn_all, Nat.sub_diag. apply valid_head_ok, Hv.
Qed.

Lemma str_slice_mid (l1 l2 l3 : list Z) :
  is_char_boundary (l1 ++ l2 ++ l3) (List.length l1) = true ->
  is_char_boundary (l1 ++ l2 ++ l3) (List.length l1 + List.length l2) = true ->
  str_slice (l1 ++ l2 ++ l3) (List.length l1) (List.length l1 + List.length l2) = Some l2.
Proof.
  intros H1 H2. unfold str_slice. rewrite H1, H2.
  replace (List.length l1 <=? List.length l1 + List.length l2)%nat with true
    by (symmetry; apply Nat.leb_le; lia).
  simpl. f_equal.
  rewrite skipn_app, skipn_all, Nat.sub_diag. simpl.
  replace (List.length l1 + List.length l2 - List.length l1)%nat with (List.length l2) by lia.
  rewrite firstn_app, firstn_all, Nat.sub_diag. simpl. apply app_nil_r.
Qed.

Lemma lead_lo (b lo hi : Z) (k : nat) : lead_class b = Some (S k, lo, hi) -> 128 <= lo.
Proof.
  unfold lead_class. intros H.
  repeat match type of H with
         | context [if ?c then _ else _] => destruct c
         end; inversion H; lia.
Qed.

Lemma in_range_lo (lo hi b : Z) : in_range lo hi b = true -> lo <= b.
Proof. unfold in_range. rewrite andb_true_iff, !Z.leb_le. lia. Qed.

Lemma is_cont_lo (b : Z) : is_cont b = true -> 128 <= b.
Proof. unfold is_cont. apply in_range_lo. Qed.

Lemma lead_ascii (x : Z) : 0 <= x <= 127 -> lead_class x = Some (0%nat, 0, 0).
Proof.
  intros H. unfold lead_class.
  replace ((0 <=? x) && (x <=? 0x7F)) with true
    by (symmetry; apply andb_true_iff; split; apply Z.leb_le; lia).
  reflexivity.
Qed.

(** In well-formed UTF-8 the byte after an ASCII byte starts a character. *)
Lemma ascii_next_head_ok (n : nat) (l : list Z) (i : nat) (x : Z) :
  (List.length l <= n)%nat -> utf8_valid l = true -> nth_error l i = Some x ->
  0 <= x <= 127 -> head_ok (skipn (S i) l).
Proof.
  revert l i; induction n as [|n IH]; intros l i Hlen Hv Hn Hx.
  - destruct l; [destruct i; discriminate | simpl in Hlen; lia].
  - destruct l as [|b0 r0]; [destruct i; discriminate|].
    simpl in Hlen. simpl in Hv.
    destruct i as [|i'].
    + simpl in Hn. injection Hn as ->. rewrite lead_ascii in Hv by exact Hx.
      apply valid_head_ok, Hv.
    + simpl in Hn.
      destruct (lead_class b0) as [[[k lo] hi]|] eqn:Hb; [|discriminate].
      destruct k as [|[|[|[|k]]]]; try discriminate.
      * apply (IH r0 i'); [lia | exact Hv | exact Hn | exact Hx].
      * destruct r0 as [|b1 r1]; [discriminate|].
        apply andb_true_iff in Hv as [H1 Hv].
        apply in_range_lo in H1. apply lead_lo in Hb.
        destruct i' as [|i'']; [simpl in Hn; injection Hn as ->; lia|].
        apply (IH r1 i''); [simpl in Hlen; lia | exact Hv | exact Hn | exact Hx].
      * destruct r0 as [|b1 [|b2 r2]]; try discriminate.
        apply andb_true_iff in Hv as [Hv H3]. apply andb_true_iff in Hv as [H1 H2].
        apply in_range_lo in H1. apply lead_lo in Hb. apply is_cont_lo in H2.
        destruct i' as [|[|i'']]; [simpl in Hn; injection Hn as ->; lia
                                  | simpl in Hn; injection Hn as ->; lia|].
        apply (IH r2 i''); [simpl in Hlen; lia | exact H3 | exact Hn | exact Hx].
      * destruct r0 as [|b1 [|b2 [|b3 r3]]]; try discriminate.
        apply andb_true_iff in Hv as [Hv H4]. apply andb_true_iff in Hv as [Hv H3].
        apply andb_true_iff in Hv as [H1 H2].
        apply in_range_lo in H1. apply lead_lo in Hb. apply is_cont_lo in H2.
        apply is_cont_lo in H3.
        destruct i' as [|[|[|i'']]]; [simpl in Hn; injection Hn as ->; lia
                                     | simpl in Hn; injection Hn as ->; lia
                                     | simpl in Hn; injection Hn as ->; lia|].
        apply (IH r3 i''); [simpl in Hlen; lia | exact H4 | exact Hn | exact Hx].
Qed.

Lemma rfind_go_app (b : Z) (i : nat) (l1 l2 : list Z) (acc : option nat) :
  rfind_go b i (l1 ++ l2) acc = rfind_go b (i + List.length l1) l2 (rfind_go b i l1 acc).
Proof.
  revert i acc; induction l1 as [|x l1 IH]; intros i acc; simpl.
  - rewrite Nat.add_0_r. reflexivity.
  - rewrite IH. f_equal. lia.
Qed.

Lemma rfind_go_notin (b : Z) (i : nat) (l : list Z) (acc : option nat) :
  ~ In b l -> rfind_go b i l acc = acc.
Proof.
  revert i acc; induction l as [|x l IH]; intros i acc Hn; simpl; [reflexivity|].
  replace (x =? b) with false.
  - apply IH. intros H. apply Hn. right. exact H.
  - symmetry. apply Z.eqb_neq. intros ->. apply Hn. left. reflexivity.
Qed.

Lemma rfind_go_some (b : Z) (i : nat) (l : list Z) (acc : option nat) (j : nat) :
  rfind_go b i l acc = Some j -> acc = Some j \/ ((i <= j)%nat /\ nth_error l (j - i) = Some b).
Proof.
  revert i acc; induction l as [|x l IH]; intros i acc H; simpl in H; [left; exact H|].
  apply IH in H. destruct H as [H|[H1 H2]].
  - destruct (x =? b) eqn:E; [|left; exact H].
    injection H as ->. apply Z.eqb_eq in E. subst x.
    right. split; [lia|]. rewrite Nat.sub_diag. reflexivity.
  - right. split; [lia|].
    replace (j - i)%nat with (S (j - S i)) by lia. exact H2.
Qed.

Lemma count_byte_app (b : Z) (l1 l2 : list Z) :
  count_byte b (l1 ++ l2) = (count_byte b l1 + count_byte b l2)%nat.
Proof. unfold count_byte. rewrite filter_app, length_app. reflexivity. Qed.

Lemma count_byte_notin (b : Z) (l : list Z) : ~ In b l -> count_byte b l = 0%nat.
Proof.
  intros Hn. unfold count_byte. rewrite filter_all_false; [reflexivity|].
  intros x Hx. apply Z.eqb_neq. intros ->. contradiction.
Qed.

Lemma valid_newline_cons (l : list Z) : utf8_valid (10 :: l) = utf8_valid l.
Proof. reflexivity. Qed.

(** [offset_to_line_col] on a well-formed transcript panics exactly when
    the offset is past the end or not on a character boundary. *)
Theorem offset_to_line_col_defined (t : list Z) (offset : nat) :
  utf8_valid t = true ->
  (offset_to_line_col t offset = None <->
   (List.length t < offset)%nat \/ is_char_boundary t offset = false).
Proof.
  intros Hv. unfold offset_to_line_col.
  destruct (Nat.le_gt_cases offset (List.length t)) as [Hle|Hgt].
  - rewrite Nat.min_l by exact Hle.
    destruct (is_char_boundary t offset) eqn:Hb.
    + unfold str_slice at 1. rewrite Hb. simpl.
      set (pre := firstn (offset - 0) t).
      destruct (rfind_byte 10 pre) as [i|] eqn:Hr.
      * apply rfind_go_some in Hr as [Hr|[_ Hr]]; [discriminate|].
        rewrite Nat.sub_0_r in Hr. unfold pre in Hr. rewrite Nat.sub_0_r in Hr.
        assert (Hi : (i < offset)%nat).
        { assert (Hs : nth_error (firstn offset t) i <> None) by (rewrite Hr; discriminate).
          apply nth_error_Some in Hs. rewrite length_firstn in Hs. lia. }
        rewrite nth_error_firstn in Hr.
        destruct (i <? offset)%nat; [|discriminate].
        assert (Hbs : is_char_boundary t (S i) = true).
        { apply boundary_of_head_ok; [lia|].
          apply (ascii_next_head_ok (List.length t) t i 10); [lia | exact Hv | exact Hr | lia]. }
        unfold str_slice. rewrite Hbs, Hb.
        replace (S i <=? offset)%nat with true by (symmetry; apply Nat.leb_le; lia).
        simpl. split; [discriminate | intros [H|H]; [lia | discriminate]].
      * unfold str_slice. rewrite Hb. simpl.
        split; [discriminate | intros [H|H]; [lia | discriminate]].
    + unfold str_slice at 1. rewrite Hb. rewrite andb_false_r.
      split; [intros _; right; reflexivity | reflexivity].
  - rewrite Nat.min_r by lia.
    unfold str_slice at 1. rewrite boundary_len.
    replace (is_char_boundary t 0) with true by reflexivity.
    replace (0 <=? List.length t)%nat with true by reflexivity. simpl.
    assert (Hnb : is_char_boundary t offset = false).
    { destruct (is_char_boundary t offset) eqn:E; [|reflexivity].
      apply boundary_le in E. lia. }
    destruct (match rfind_byte 10 (firstn (List.length t - 0) t) with
              | Some i => S i | None => 0%nat end);
      unfold str_slice; rewrite Hnb, andb_false_r;
      split; [intros _; left; exact Hgt | reflexivity | intros _; left; exact Hgt | reflexivity].
Qed.

(** [offset_to_line_col] counts lines and columns as an editor does: at
    an offset [b] bytes into the first line (no newline in [b]) it gives
    line 1 and column [chars(b) + 1]; at an offset [b] bytes after the
    newline that ends [a], it gives line [newlines(a) + 2] and column
    [chars(b) + 1]. The pieces are well-formed UTF-8, as any [&str]'s
    pieces cut at character boundaries are. *)
Theorem offset_to_line_col_count (a b c : list Z) :
  utf8_valid a = true -> utf8_valid b = true -> utf8_valid c = true -> ~ In 10 b ->
  offset_to_line_col (b ++ c) (List.length b)
    = Some {| line := 1; col := char_count b + 1 |} /\
  offset_to_line_col (a ++ 10 :: b ++ c) (List.length a + 1 + List.length b)
    = Some {| line := count_byte 10 a + 2; col := char_count b + 1 |}.
Proof.
  intros Ha Hb Hc Hn. split.
  - unfold offset_to_line_col.
    rewrite Nat.min_l by (rewrite length_app; lia).
    assert (S1 : str_slice (b ++ c) 0 (List.length b) = Some b).
    { pose proof (str_slice_mid [] b c) as H. simpl in H. apply H; [reflexivity|].
      apply boundary_before_valid, Hc. }
    rewrite S1. unfold rfind_byte. rewrite rfind_go_notin by exact Hn.
    rewrite S1. rewrite count_byte_notin by exact Hn.
    repeat f_equal; lia.
  - set (t := a ++ 10 :: b ++ c).
    assert (Ht : t = (a ++ [10]) ++ b ++ c) by (unfold t; rewrite <- app_assoc; reflexivity).
    assert (Hl : (List.length a + 1)%nat = List.length (a ++ [10]))
      by (rewrite length_app; reflexivity).
    assert (Hv2 : utf8_valid (b ++ c) = true) by (apply utf8_valid_app; assumption).
    unfold offset_to_line_col.
    rewrite Nat.min_l by (unfold t; rewrite length_app; simpl; rewrite length_app; lia).
    assert (S1 : str_slice t 0 (List.length a + 1 + List.length b) = Some (a ++ [10] ++ b)).
    { assert (Ht2 : t = [] ++ (a ++ [10] ++ b) ++ c)
        by (unfold t; rewrite app_nil_l, <- !app_assoc; reflexivity).
      rewrite Ht2.
      replace (List.length a + 1 + List.length b)%nat
        with (Nat.add (List.length (@nil Z)) (List.length (a ++ [10] ++ b)))
        by (rewrite !length_app; simpl; lia).
      apply str_slice_mid; [reflexivity|].
      rewrite app_nil_l, Nat.add_0_l. apply boundary_before_valid, Hc. }
    rewrite S1.
    unfold rfind_byte. rewrite (rfind_go_app 10 0 a ([10] ++ b)). cbn [app rfind_go].
    rewrite Z.eqb_refl, rfind_go_notin by exact Hn.
    assert (S2 : str_slice t (S (List.length a)) (List.length a + 1 + List.length b) = Some b).
    { rewrite Ht. replace (S (List.length a)) with (List.length (a ++ [10]))
        by (rewrite length_app; simpl; lia).
      rewrite Hl. apply str_slice_mid.
      - apply boundary_before_valid, Hv2.
      - rewrite app_assoc, <- length_app. apply boundary_before_valid, Hc. }
    rewrite Nat.add_0_l, S2, count_byte_app.
    replace (count_byte 10 (10 :: b)) with (S (count_byte 10 b)) by reflexivity.
    rewrite (count_byte_notin 10 b Hn). repeat f_equal; lia.
Qed.

(** Witness: in ["ab\ncdéf"] the offset 7 (after ["cdé"], a
    two-byte character) is line 2, column 4. *)
Lemma offset_to_line_col_count_witness :
  offset_to_line_col ([97; 98] ++ 10 :: [99; 100; 195; 169] ++ [102])
                     (List.length [97; 98] + 1 + List.length [99; 100; 195; 169])
  = Some {| line := 2; col := 4 |}.
Proof.
  rewrite (proj2 (offset_to_line_col_count [97; 98] [99; 100; 195; 169] [102]
                    eq_refl eq_refl eq_refl ltac:(simpl; lia))).
  reflexivity.
Defined.

(** Witness: offset 3 of ["abé"] is inside the two-byte character,
    where [offset_to_line_col] panics. *)
Lemma offset_to_line_col_defined_witness :
  offset_to_line_col [97; 98; 195; 169] 3 = None.
Proof.
  apply (proj2 (offset_to_line_col_defined [97; 98; 195; 169] 3 eq_refl)).
  right. reflexivity.
Defined.

(** *** Timestamps *)

Lemma skipn_nth_cons (l : list Z) (i : nat) :
  (i < List.length l)%nat -> skipn i l = nth i l 0 :: skipn (S i) l.
Proof.
  revert l; induction i as [|i IH]; intros [|x l] H; simpl in *; try lia; [reflexivity|].
  apply IH. lia.
Qed.

Lemma position_byte_spec (c : Z) (l : list Z) (e : nat) :
  position_byte c l = Some e ->
  exists pre post, l = pre ++ c :: post /\ List.length pre = e /\ ~ In c pre.
Proof.
  revert e; induction l as [|x l IH]; intros e H; simpl in H; [discriminate|].
  destruct (x =? c) eqn:E.
  - injection H as <-. apply Z.eqb_eq in E. subst x. exists [], l. repeat split. intros [].
  - destruct (position_byte c l) as [e'|] eqn:Hp; [|discriminate].
    injection H as <-. destruct (IH e' eq_refl) as [pre [post [-> [Hl Hn]]]].
    exists (x :: pre), post. split; [reflexivity|]. split; [simpl; lia|].
    intros [Hx|Hx]; [apply Z.eqb_neq in E; congruence | contradiction].
Qed.

Lemma nts_go_sound (fuel : nat) (bytes : list Z) (i : nat) (last : option (list Z)) (ts : list Z) :
  (forall t0, last = Some t0 -> bracketed_timestamp bytes t0) ->
  nts_go fuel bytes i last = Some ts -> bracketed_timestamp bytes ts.
Proof.
  revert i last; induction fuel as [|f IH]; intros i last Hl H; cbn [nts_go] in H;
    [apply Hl, H|].
  destruct (i <? List.length bytes)%nat eqn:Hi; [|apply Hl, H].
  apply Nat.ltb_lt in Hi.
  destruct (nth i bytes 0 =? 91) eqn:Hb; [|exact (IH _ _ Hl H)].
  apply Z.eqb_eq in Hb.
  destruct (position_byte 93 (skipn i bytes)) as [e|] eqn:Hp; [|exact (IH _ _ Hl H)].
  refine (IH _ _ _ H).
  intros t0 Ht0. destruct (is_timestamp (firstn (e - 1) (skipn (S i) bytes))) eqn:Hts;
    [|apply Hl, Ht0].
  injection Ht0 as Ht0. subst t0.
  rewrite (skipn_nth_cons bytes i Hi), Hb in Hp. cbn [position_byte] in Hp.
  replace (91 =? 93) with false in Hp by reflexivity.
  destruct (position_byte 93 (skipn (S i) bytes)) as [e'|] eqn:Hp'; [|discriminate].
  injection Hp as <-. replace (S e' - 1)%nat with e' in * by lia.
  destruct (position_byte_spec _ _ _ Hp') as [pre [post [Hs [Hlen Hn]]]].
  change (match bytes with [] => [] | _ :: l => skipn i l end) with (skipn (S i) bytes) in *.
  rewrite Hs, firstn_app, <- Hlen, firstn_all, Nat.sub_diag, app_nil_r in Hts |- *.
  unfold bracketed_timestamp. split; [exact Hts|]. split; [exact Hn|].
  exists i. rewrite (skipn_nth_cons bytes i Hi), Hb, Hs.
  replace (List.length pre + 2)%nat with (S (List.length pre + 1)) by lia.
  simpl firstn. f_equal.
  rewrite firstn_app, firstn_all2 by lia.
  replace (List.length pre + 1 - List.length pre)%nat with 1%nat by lia. reflexivity.
Qed.

(** [find_nearest_timestamp] only ever returns text that [is_timestamp]
    accepts and that stands between a ['['] and the first [']'] after it
    in the transcript before the offset. *)
Theorem find_nearest_timestamp_sound (t : list Z) (offset : nat) (ts : list Z) :
  find_nearest_timestamp t offset = Some (Some ts) ->
  is_timestamp ts = true /\ ~ In 93 ts /\
  exists j, firstn (List.length ts + 2) (skipn j (firstn offset t)) = (91 :: ts ++ [93])%list.
Proof.
  unfold find_nearest_timestamp. intros H.
  destruct (str_slice t 0 (Nat.min offset (List.length t))) as [prefix|] eqn:Hs;
    [|discriminate].
  injection H as H. unfold str_slice in Hs.
  destruct (_ && _ && _); [|discriminate].
  injection Hs as Hs. subst prefix.
  rewrite Nat.sub_0_r in H. simpl skipn in H.
  assert (Hf : firstn (Nat.min offset (List.length t)) t = firstn offset t).
  { destruct (Nat.le_ge_cases offset (List.length t)).
    - rewrite Nat.min_l by assumption. reflexivity.
    - rewrite Nat.min_r by assumption. rewrite firstn_all, firstn_all2 by assumption. reflexivity. }
  rewrite Hf in H.
  refine (nts_go_sound _ _ _ _ _ _ H). intros t0 Ht0. discriminate.
Qed.

(** Witness: in ["[00:00] Hello [01:30] World"] before offset 25 the
    timestamp found is ["01:30"]. *)
Lemma find_nearest_timestamp_sound_witness :
  is_timestamp [48; 49; 58; 51; 48] = true.
Proof.
  apply (find_nearest_timestamp_sound (Orch.bytes_of_string "[00:00] Hello [01:30] World") 25).
  vm_compute. reflexivity.
Defined.

End EvidenceFacts.

(* ------------------------------------------------------------------ *)
(** ** The queue: marking, replay invariants, pending items and status *)

Module QueueMore.

Import Queue QueueFacts Views.

Lemma items_get_modify_other (k k' : string) (f : QueueItem -> QueueItem) (m : Items) :
  k <> k' -> items_get k (items_modify k' f m) = items_get k m.
Proof.
  intros Hne. induction m as [|[k0 v] m IH]; simpl; [reflexivity|].
  destruct (String.eqb k' k0) eqn:E; simpl.
  - apply String.eqb_eq in E. subst k0.
    rewrite (proj2 (String.eqb_neq k k') Hne). reflexivity.
  - destruct (String.eqb k k0); [reflexivity | exact IH].
Qed.

(** [mark_done] and [mark_failed] append their event without looking at
    the queue: on a queue file that is empty or ends in '\n' and replays,
    after them, the item [qid] (if the queue has one) is [Done] or
    [Failed] with [completed_at] the time of the call, whatever its status
    was ([Pending], [Done], ...), [mark_failed] records the error, and
    every other item, and an unknown [qid], is left as it was. *)
Theorem mark_done_failed_effect (file : QFile) (items : Items)
    (qid k err : string) (now : Z) :
  qtail file = None ->
  replay (file_lines file) = inl items ->
  get (file_lines (mark_done file qid now)) k =
    inl (if String.eqb k qid then
           option_map (fun it => {| id := id it; status := Done; idata := idata it;
                                    started_at := started_at it; completed_at := Some now;
                                    error := error it; retry_count := retry_count it |})
                      (items_get k items)
         else items_get k items) /\
  get (file_lines (mark_failed file qid err now)) k =
    inl (if String.eqb k qid then
           option_map (fun it => {| id := id it; status := Failed; idata := idata it;
                                    started_at := started_at it; completed_at := Some now;
                                    error := Some err; retry_count := retry_count it |})
                      (items_get k items)
         else items_get k items).
Proof.
  intros Ht H. unfold get, mark_done, mark_failed.
  rewrite !(replay_append file items _ Ht H). cbn [apply_event event_type item_id data timestamp].
  destruct (String.eqb k qid) eqn:E.
  - apply String.eqb_eq in E. subst k. rewrite !items_get_modify_same. split; reflexivity.
  - apply String.eqb_neq in E. rewrite !items_get_modify_other by exact E. split; reflexivity.
Qed.

(** *** Replay invariants *)

Lemma items_get_in (k : string) (it : QueueItem) (m : Items) :
  items_get k m = Some it -> In (k, it) m.
Proof.
  induction m as [|[k0 v] m IH]; simpl; [discriminate|].
  destruct (String.eqb k k0) eqn:E; intros H.
  - injection H as <-. apply String.eqb_eq in E. subst. left. reflexivity.
  - right. apply IH, H.
Qed.

Lemma items_get_some_iff (k : string) (m : Items) :
  (exists it, items_get k m = Some it) <-> In k (map fst m).
Proof.
  induction m as [|[k0 v] m IH]; simpl.
  - split; [intros [it H]; discriminate | intros []].
  - destruct (String.eqb k k0) eqn:E.
    + apply String.eqb_eq in E. subst. split; [intros _; left; reflexivity | eauto].
    + apply String.eqb_neq in E. rewrite IH. split; [intros H; right; exact H|].
      intros [H|H]; [congruence | exact H].
Qed.

Lemma items_modify_keys (k : string) (f : QueueItem -> QueueItem) (m : Items) :
  map fst (items_modify k f m) = map fst m.
Proof.
  induction m as [|[k0 v] m IH]; simpl; [reflexivity|].
  destruct (String.eqb k k0); simpl; [reflexivity | f_equal; exact IH].
Qed.

Lemma items_insert_keys (k k' : string) (v : QueueItem) (m : Items) :
  In k' (map fst (items_insert k v m)) <-> k' = k \/ In k' (map fst m).
Proof.
  induction m as [|[k0 v0] m IH]; simpl.
  - split; [intros [H|[]]; left; congruence | intros [H|[]]; left; congruence].
  - destruct (String.eqb k k0) eqn:E; simpl.
    + apply String.eqb_eq in E. subst k0. split; [intros [H|H]; [left; congruence | right; right; exact H]|].
      intros [H|[H|H]]; [left; congruence | left; exact H | right; exact H].
    + rewrite IH. tauto.
Qed.

Lemma items_insert_nodup (k : string) (v : QueueItem) (m : Items) :
  NoDup (map fst m) -> NoDup (map fst (items_insert k v m)).
Proof.
  induction m as [|[k0 v0] m IH]; simpl; intros Hn.
  - constructor; [intros [] | constructor].
  - apply NoDup_cons_iff in Hn as [Hn1 Hn2].
    destruct (String.eqb k k0) eqn:E; simpl.
    + apply String.eqb_eq in E. subst k0. constructor; assumption.
    + apply String.eqb_neq in E. constructor; [|apply IH, Hn2].
      rewrite items_insert_keys. intros [H|H]; [congruence | contradiction].
Qed.

Lemma items_insert_ids (k : string) (v : QueueItem) (m : Items) :
  id v = k -> ids_match m -> ids_match (items_insert k v m).
Proof.
  intros Hv. induction m as [|[k0 v0] m IH]; simpl; intros Hm k' it Hin.
  - destruct Hin as [Hin|[]]. injection Hin as <- <-. exact Hv.
  - destruct (String.eqb k k0).
    + destruct Hin as [Hin|Hin]; [injection Hin as <- <-; exact Hv | apply (Hm k' it); right; exact Hin].
    + destruct Hin as [Hin|Hin]; [apply (Hm k' it); left; exact Hin|].
      apply (IH (fun k1 it1 H1 => Hm k1 it1 (or_intror H1)) k' it Hin).
Qed.

Lemma items_modify_ids (k : string) (f : QueueItem -> QueueItem) (m : Items) :
  (forall it, id (f it) = id it) -> ids_match m -> ids_match (items_modify k f m).
Proof.
  intros Hf. induction m as [|[k0 v0] m IH]; simpl; intros Hm k' it Hin; [destruct Hin|].
  destruct (String.eqb k k0).
  - destruct Hin as [Hin|Hin].
    + injection Hin as <- <-. rewrite Hf. apply (Hm k0 v0). left. reflexivity.
    + apply (Hm k' it). right. exact Hin.
  - destruct Hin as [Hin|Hin]; [apply (Hm k' it); left; exact Hin|].
    apply (IH (fun k1 it1 H1 => Hm k1 it1 (or_intror H1)) k' it Hin).
Qed.

Lemma apply_event_inv (m : Items) (ev : QueueEvent) :
  NoDup (map fst m) -> ids_match m ->
  NoDup (map fst (apply_event m ev)) /\ ids_match (apply_event m ev) /\
  (forall k, In k (map fst (apply_event m ev)) <-> In k (map fst m) \/ creates ev k).
Proof.
  intros Hn Hi. unfold apply_event, creates.
  destruct (event_type ev) eqn:Et.
  - destruct (data ev) as [v|] eqn:Ed.
    + destruct v as [d| |]; simpl.
      * split; [apply items_insert_nodup, Hn|].
        split; [apply items_insert_ids; [reflexivity | exact Hi]|].
        intros k. rewrite items_insert_keys.
        split; [intros [H|H]; [right; repeat split; eauto | left; exact H]|].
        intros [H|[H1 [_ [d' Hd]]]]; [right; exact H|left; congruence].
      * split; [exact Hn|]. split; [exact Hi|]. intros k.
        split; [intros H; left; exact H | intros [H|[_ [_ [d' Hd]]]]; [exact H | discriminate]].
      * split; [exact Hn|]. split; [exact Hi|]. intros k.
        split; [intros H; left; exact H | intros [H|[_ [_ [d' Hd]]]]; [exact H | discriminate]].
    + split; [exact Hn|]. split; [exact Hi|]. intros k.
      split; [intros H; left; exact H | intros [H|[_ [_ [d' Hd]]]]; [exact H | discriminate]].
  - rewrite !items_modify_keys. split; [exact Hn|].
    split; [apply items_modify_ids; [reflexivity | exact Hi]|].
    intros k. split; [intros H; left; exact H | intros [H|[_ [H _]]]; [exact H | discriminate]].
  - rewrite !items_modify_keys. split; [exact Hn|].
    split; [apply items_modify_ids; [reflexivity | exact Hi]|].
    intros k. split; [intros H; left; exact H | intros [H|[_ [H _]]]; [exact H | discriminate]].
  - rewrite !items_modify_keys. split; [exact Hn|].
    split; [apply items_modify_ids; [reflexivity | exact Hi]|].
    intros k. split; [intros H; left; exact H | intros [H|[_ [H _]]]; [exact H | discriminate]].
  - rewrite !items_modify_keys. split; [exact Hn|].
    split; [apply items_modify_ids; [reflexivity | exact Hi]|].
    intros k. split; [intros H; left; exact H | intros [H|[_ [H _]]]; [exact H | discriminate]].
Qed.

Lemma replay_from_inv (file : list QLine) (m items : Items) :
  NoDup (map fst m) -> ids_match m -> replay_from m file = Some items ->
  NoDup (map fst items) /\ ids_match items /\
  (forall k, In k (map fst items) <->
             In k (map fst m) \/ exists ev, In (QRecord ev) file /\ creates ev k).
Proof.
  revert m; induction file as [|l file IH]; intros m Hn Hi H; simpl in H.
  - injection H as <-. split; [exact Hn|]. split; [exact Hi|].
    intros k. split; [intros Hk; left; exact Hk | intros [Hk|[ev [[] _]]]; exact Hk].
  - destruct l as [ev| |]; [| |discriminate].
    + destruct (apply_event_inv m ev Hn Hi) as [Hn' [Hi' Hk']].
      destruct (IH _ Hn' Hi' H) as [Hn2 [Hi2 Hk2]].
      split; [exact Hn2|]. split; [exact Hi2|]. intros k. rewrite Hk2, Hk'.
      split.
      * intros [[Hk|Hk]|[ev' [Hin Hc]]]; [left; exact Hk | right; exists ev; split; [left; reflexivity | exact Hk]
                                         | right; exists ev'; split; [right; exact Hin | exact Hc]].
      * intros [Hk|[ev' [[Hin|Hin] Hc]]]; [left; left; exact Hk | |right; exists ev'; split; assumption].
        injection Hin as ->. left; right; exact Hc.
    + destruct (IH _ Hn Hi H) as [Hn2 [Hi2 Hk2]].
      split; [exact Hn2|]. split; [exact Hi2|]. intros k. rewrite Hk2.
      split; intros [Hk|[ev' [Hin Hc]]]; try (left; exact Hk).
      * right. exists ev'. split; [right; exact Hin | exact Hc].
      * destruct Hin as [Hin|Hin]; [discriminate|]. right. exists ev'. split; assumption.
Qed.

(** A replayed queue holds one item per id, each stored under its own
    id, and it holds an item exactly for the ids that some [Enqueued]
    record with item data created: status events for an id never
    enqueued create nothing. *)
Theorem replay_items_invariant (file : list QLine) (items : Items) :
  replay file = inl items ->
  NoDup (map fst items) /\
  (forall k it, get file k = inl (Some it) -> id it = k) /\
  (forall k, (exists it, get file k = inl (Some it)) <->
             exists ev, In (QRecord ev) file /\ creates ev k).
Proof.
  intros H. unfold replay in H.
  destruct (replay_from [] file) as [i|] eqn:Hr; [|discriminate].
  injection H as ->.
  destruct (replay_from_inv file [] items (NoDup_nil _) ltac:(intros k it [])  Hr)
    as [Hn [Hi Hk]].
  unfold get, replay. rewrite Hr.
  split; [exact Hn|]. split.
  - intros k it Hg. injection Hg as Hg. apply (Hi k it), items_get_in, Hg.
  - intros k. split.
    + intros [it Hg]. injection Hg as Hg.
      assert (Hin : In k (map fst items)) by (apply items_get_some_iff; eauto).
      apply Hk in Hin as [[]|Hin]. exact Hin.
    + intros Hc. assert (Hin : In k (map fst items)) by (apply Hk; right; exact Hc).
      apply items_get_some_iff in Hin as [it Hg]. exists it. rewrite Hg. reflexivity.
Qed.

(** *** Sorting *)

Section Sort.

Variable cmp : QueueItem -> QueueItem -> comparison.
Variable R : QueueItem -> QueueItem -> Prop.
Hypothesis cmp_lt : forall a b, cmp a b = Lt -> R a b.
Hypothesis cmp_ge : forall a b, cmp a b <> Lt -> R b a.

Lemma insert_by_perm (x : QueueItem) (l : list QueueItem) :
  Permutation (insert_by cmp x l) (x :: l).
Proof.
  induction l as [|y l IH]; simpl; [reflexivity|].
  destruct (cmp x y); try reflexivity;
    (etransitivity; [apply perm_skip, IH | apply perm_swap]).
Qed.

Lemma insert_by_hd (y x : QueueItem) (l : list QueueItem) :
  HdRel R y l -> R y x -> HdRel R y (insert_by cmp x l).
Proof.
  destruct l as [|z l]; simpl; intros Hh Hyx; [constructor; exact Hyx|].
  destruct (cmp x z); constructor; try exact Hyx; inversion Hh; assumption.
Qed.

Lemma insert_by_sorted (x : QueueItem) (l : list QueueItem) :
  Sorted R l -> Sorted R (insert_by cmp x l).
Proof.
  induction l as [|y l IH]; intros Hs; simpl; [repeat constructor|].
  destruct (cmp x y) eqn:E;
    [ | constructor; [exact Hs | constructor; apply cmp_lt, E] | ];
    apply Sorted_inv in Hs as [Hs Hh]; constructor;
    [ apply IH, Hs | apply insert_by_hd; [exact Hh | apply cmp_ge; rewrite E; discriminate]
    | apply IH, Hs | apply insert_by_hd; [exact Hh | apply cmp_ge; rewrite E; discriminate]].
Qed.

Lemma fold_insert_perm (l acc : list QueueItem) :
  Permutation (fold_left (fun acc x => insert_by cmp x acc) l acc) (l ++ acc).
Proof.
  revert acc; induction l as [|x l IH]; intros acc; simpl; [reflexivity|].
  rewrite IH, insert_by_perm. symmetry. apply Permutation_middle.
Qed.

Lemma fold_insert_sorted (l acc : list QueueItem) :
  Sorted R acc -> Sorted R (fold_left (fun acc x => insert_by cmp x acc) l acc).
Proof.
  revert acc; induction l as [|x l IH]; intros acc Hs; simpl; [exact Hs|].
  apply IH, insert_by_sorted, Hs.
Qed.

Lemma sort_by_perm (l : list QueueItem) : Permutation (sort_by cmp l) l.
Proof. unfold sort_by. rewrite fold_insert_perm, app_nil_r. reflexivity. Qed.

Lemma sort_by_sorted (l : list QueueItem) : Sorted R (sort_by cmp l).
Proof. apply fold_insert_sorted. constructor. Qed.

End Sort.

Lemma by_detected_at_lt (a b : QueueItem) : by_detected_at a b = Lt -> older_first a b.
Proof. unfold by_detected_at, older_first. rewrite Z.compare_lt_iff. lia. Qed.

Lemma by_detected_at_ge (a b : QueueItem) : by_detected_at a b <> Lt -> older_first b a.
Proof. unfold by_detected_at, older_first. rewrite Z.compare_lt_iff. lia. Qed.

Lemma pending_filter_status (l : list QueueItem) (it : QueueItem) :
  In it (filter (fun it => status_eqb (status it) Pending) l) -> status it = Pending.
Proof.
  rewrite filter_In. intros [_ H]. destruct (status it); try discriminate; reflexivity.
Qed.

(** [get_pending] returns exactly the [Pending] items of the replayed
    queue, each once, ordered by [detected_at], oldest first. *)
Theorem get_pending_spec (file : list QLine) (items : Items) :
  replay file = inl items ->
  exists ps, get_pending file = inl ps /\
    Permutation ps (filter (fun it => status_eqb (status it) Pending) (map snd items)) /\
    Sorted older_first ps /\
    (forall it, In it ps -> status it = Pending).
Proof.
  intros H. unfold get_pending. rewrite H. eexists. split; [reflexivity|].
  split; [apply sort_by_perm|]. split.
  - apply sort_by_sorted; [apply by_detected_at_lt | apply by_detected_at_ge].
  - intros it Hin. apply (pending_filter_status (map snd items)).
    apply (Permutation_in _ (sort_by_perm by_detected_at _) Hin).
Qed.

Lemma fold_count_total (l : list QueueItem) (st : QueueStatus) :
  total (fold_left count_item l st) = (total st + List.length l)%nat.
Proof.
  revert st; induction l as [|x l IH]; intros st; simpl; [lia|].
  rewrite IH. unfold count_item, total. destruct (status x); simpl; lia.
Qed.

Lemma fold_count_pending (l : list QueueItem) (st : QueueStatus) :
  pending (fold_left count_item l st)
  = (pending st + List.length (filter (fun it => status_eqb (status it) Pending) l))%nat.
Proof.
  revert st; induction l as [|x l IH]; intros st; simpl; [lia|].
  rewrite IH. unfold count_item. destruct (status x); simpl; lia.
Qed.

(** [status] counts every item of the replayed queue once ([total] is
    the number of items), its [pending] count is the length of
    [get_pending], and [recent] holds the [min 5 total] most recently
    detected items, newest first. *)
Theorem queue_status_spec (file : list QLine) (items : Items) :
  replay file = inl items ->
  exists st ps all,
    queue_status file = inl st /\ get_pending file = inl ps /\
    total st = List.length items /\ pending st = List.length ps /\
    Permutation all (map snd items) /\ Sorted newer_first all /\
    recent st = firstn 5 all /\
    List.length (recent st) = Nat.min 5 (List.length items).
Proof.
  intros H. unfold queue_status, get_pending. rewrite H.
  set (all := sort_by (fun a b => by_detected_at b a) (map snd items)).
  assert (Hp : Permutation all (map snd items)) by apply sort_by_perm.
  do 3 eexists. split; [reflexivity|]. split; [reflexivity|].
  split; [unfold total; simpl; pose proof (fold_count_total (map snd items) zero_status) as Ht;
          unfold total, zero_status in Ht; simpl in Ht; rewrite length_map in Ht; exact Ht|].
  split.
  - simpl. rewrite fold_count_pending. simpl.
    symmetry. apply Permutation_length, sort_by_perm.
  - split; [exact Hp|]. split.
    + apply sort_by_sorted.
      * intros a b E. unfold by_detected_at in E. unfold newer_first.
        apply (proj1 (Z.compare_lt_iff _ _)) in E. lia.
      * intros a b E. unfold by_detected_at in E. unfold newer_first.
        rewrite Z.compare_lt_iff in E. lia.
    + split; [reflexivity|]. cbn [recent]. rewrite length_firstn, (Permutation_length Hp), length_map.
      reflexivity.
Qed.

(** Witness: the sample file, whose items are ["a"] and ["b"], [Pending]
    and [Processing]. *)
Lemma replay_items_invariant_witness :
  NoDup (map fst (match replay Scenario.sample_queue with inl i => i | inr _ => [] end)).
Proof.
  apply (proj1 (replay_items_invariant Scenario.sample_queue _ eq_refl)).
Defined.

Lemma get_pending_spec_witness :
  exists ps, get_pending Scenario.sample_queue = inl ps /\
    Sorted older_first ps.
Proof.
  destruct (get_pending_spec Scenario.sample_queue _ eq_refl) as [ps [H1 [_ [H2 _]]]].
  exists ps. split; assumption.
Defined.

Lemma queue_status_spec_witness :
  exists st, queue_status Scenario.sample_queue = inl st /\ total st = 2%nat.
Proof.
  destruct (queue_status_spec Scenario.sample_queue _ eq_refl)
    as [st [ps [all [H1 [_ [H2 _]]]]]].
  exists st. split; [exact H1 | rewrite H2; reflexivity].
Defined.

Lemma mark_done_failed_effect_witness :
  qtail {| qlines := Scenario.sample_queue; qtail := None |} = None /\
  get (file_lines (mark_done {| qlines := Scenario.sample_queue; qtail := None |} "b"%string 9))
      "b"%string
  = inl (Some {| id := "b"; status := Done; idata := Scenario.sample_item "/in/b.m4a" 3;
                 started_at := None; completed_at := Some 9; error := None;
                 retry_count := 0 |}).
Proof.
  split; [reflexivity|].
  rewrite (proj1 (mark_done_failed_effect {| qlines := Scenario.sample_queue; qtail := None |}
                    _ "b" "b" "x" 9 eq_refl eq_refl)).
  reflexivity.
Defined.

End QueueMore.

(* ------------------------------------------------------------------ *)
(** ** Run state reconstructed from events *)

Module RunFacts.

Import Orch Views.
Open Scope string_scope.

Lemma amap_get_insert {A} (k k' : string) (v : A) (m : amap A) :
  amap_get k (amap_insert k' v m) = if String.eqb k k' then Some v else amap_get k m.
Proof.
  induction m as [|[k0 v0] m IH]; cbn [amap_insert amap_get].
  - destruct (String.eqb k k'); reflexivity.
  - destruct (String.eqb k' k0) eqn:E; cbn [amap_get].
    + apply String.eqb_eq in E. subst k0. destruct (String.eqb k k'); reflexivity.
    + rewrite IH. destruct (String.eqb k k') eqn:E1; [|reflexivity].
      destruct (String.eqb k k0) eqn:E2; [|reflexivity].
      apply String.eqb_eq in E1. apply String.eqb_eq in E2. subst.
      rewrite String.eqb_refl in E. discriminate.
Qed.

Lemma apply_event_state_other (r : Run) (e : Event) :
  run_level e = false -> state (apply_event r e) = state r.
Proof.
  unfold run_level, apply_event. destruct (event_type e); try discriminate;
    destruct (step_id e); reflexivity.
Qed.

Lemma apply_event_state_level (r r' : Run) (e : Event) :
  run_level e = true -> state (apply_event r e) = state (apply_event r' e).
Proof.
  unfold run_level, apply_event. destruct (event_type e); try discriminate; reflexivity.
Qed.

Lemma fold_id (l : list Event) (r0 : Run) : id (fold_left apply_event l r0) = id r0.
Proof.
  revert r0; induction l as [|x l IH]; intros r0; simpl; [reflexivity|].
  rewrite IH. unfold apply_event. destruct (event_type x); destruct (step_id x); reflexivity.
Qed.

Lemma fold_state (l : list Event) (r0 : Run) :
  state (fold_left apply_event l r0) =
  match find run_level (rev l) with
  | Some e => state (apply_event r0 e)
  | None => state r0
  end.
Proof.
  induction l as [|x l IH] using rev_ind; [reflexivity|].
  rewrite fold_left_app, rev_unit. simpl.
  destruct (run_level x) eqn:Hx.
  - apply apply_event_state_level, Hx.
  - rewrite apply_event_state_other by exact Hx. exact IH.
Qed.

Lemma apply_event_status_other (r : Run) (e : Event) (s : string) :
  touches_step s e = false ->
  amap_get s (step_statuses (apply_event r e)) = amap_get s (step_statuses r).
Proof.
  unfold touches_step, run_level, apply_event.
  destruct (event_type e); destruct (step_id e) as [s'|]; simpl; intros H; try reflexivity;
    rewrite amap_get_insert, String.eqb_sym; rewrite andb_true_r in H; rewrite H; reflexivity.
Qed.

Lemma apply_event_status_touch (r r' : Run) (e : Event) (s : string) :
  touches_step s e = true ->
  amap_get s (step_statuses (apply_event r e)) = amap_get s (step_statuses (apply_event r' e)).
Proof.
  unfold touches_step, run_level, apply_event.
  destruct (event_type e); destruct (step_id e) as [s'|]; simpl; intros H;
    try discriminate; try (rewrite andb_false_r in H; discriminate);
    rewrite andb_true_r in H; rewrite !amap_get_insert, String.eqb_sym, H; reflexivity.
Qed.

Lemma fold_status (l : list Event) (r0 : Run) (s : string) :
  amap_get s (step_statuses (fold_left apply_event l r0)) =
  match find (touches_step s) (rev l) with
  | Some e => amap_get s (step_statuses (apply_event r0 e))
  | None => amap_get s (step_statuses r0)
  end.
Proof.
  induction l as [|x l IH] using rev_ind; [reflexivity|].
  rewrite fold_left_app, rev_unit. simpl.
  destruct (touches_step s x) eqn:Hx.
  - apply apply_event_status_touch, Hx.
  - rewrite apply_event_status_other by exact Hx. exact IH.
Qed.

(** [Run::from_events] gives [None] on no events; otherwise the run has
    the first event's run id, its state is set by the last run-level
    event ([Running] if there is none, the error text or [""] for
    [RunFailed] and [SafetyLimitReached]), and [is_step_completed s]
    holds exactly when the last step-level event naming [s] is a
    [StepCompleted] event. *)
Theorem from_events_state (evs : list Event) (s : string) :
  match from_events evs with
  | None => evs = []
  | Some r =>
      (exists first rest, evs = first :: rest /\ id r = run_id first) /\
      match find run_level (rev evs) with
      | None => state r = Running
      | Some e =>
          match event_type e with
          | RunCompleted => state r = RCompleted
          | RunFailed => state r = RFailed (match ev_error e with Some m => m | None => "" end)
          | SafetyLimitReached =>
              state r = RSafetyLimitReached (match ev_error e with Some m => m | None => "" end)
          | _ => state r = Running
          end
      end /\
      (run_is_step_completed r s = true <->
       exists e, find (touches_step s) (rev evs) = Some e /\ event_type e = StepCompleted)
  end.
Proof.
  destruct evs as [|first rest]; [reflexivity|].
  cbn [from_events]. set (evs := first :: rest).
  split; [exists first, rest; split; [reflexivity | apply fold_id]|].
  split.
  - rewrite fold_state. destruct (find run_level (rev evs)) as [e|] eqn:Hf; [|reflexivity].
    apply find_some in Hf as [_ Hl]. unfold run_level in Hl.
    unfold apply_event. destruct (event_type e); try discriminate; reflexivity.
  - unfold run_is_step_completed. rewrite fold_status.
    destruct (find (touches_step s) (rev evs)) as [e|] eqn:Hf.
    + apply find_some in Hf as [_ Ht]. unfold touches_step, run_level in Ht.
      unfold apply_event.
      destruct (step_id e) as [s'|]; [|discriminate].
      apply andb_true_iff in Ht as [Hs Ht]. apply String.eqb_eq in Hs. subst s'.
      destruct (event_type e) eqn:Et; try discriminate; simpl;
        rewrite ?String.eqb_refl; simpl; rewrite ?String.eqb_refl;
        (split; [intros H; first [discriminate | exists e; split; [reflexivity | exact Et]]
                |intros [e' [He' Ht']]; injection He' as <-; first [reflexivity | congruence]]).
    + simpl. split; [discriminate | intros [e' [He' _]]; discriminate].
Qed.

Lemma event_type_eqb_eq (a b : EventType) : event_type_eqb a b = true -> a = b.
Proof. destruct a, b; simpl; congruence. Qed.

Lemma event_type_eqb_refl (a : EventType) : event_type_eqb a a = true.
Proof. destruct a; reflexivity. Qed.

Lemma find_none_iff {A} (f : A -> bool) (l : list A) :
  find f l = None <-> forall x, In x l -> f x = false.
Proof.
  split; [apply find_none|].
  induction l as [|y l IH]; intros H; simpl; [reflexivity|].
  rewrite (H y (or_introl eq_refl)). apply IH. intros x Hx. apply H. right. exact Hx.
Qed.

Lemma find_split {A} (f : A -> bool) (l : list A) (x : A) :
  find f l = Some x ->
  exists pre post, l = (pre ++ x :: post)%list /\ f x = true /\ forall y, In y pre -> f y = false.
Proof.
  induction l as [|y l IH]; simpl; [discriminate|].
  destruct (f y) eqn:E; intros H.
  - injection H as <-. exists [], l. repeat split; [exact E | intros z []].
  - destruct (IH H) as [pre [post [Hl [Hx Hp]]]].
    exists (y :: pre), post. split; [rewrite Hl; reflexivity|]. split; [exact Hx|].
    intros z [<-|Hz]; [exact E | apply Hp, Hz].
Qed.

(** [EventStore::last_event_of_type] gives the last event of the type
    in the log (none if there is none), and [EventStore::find_events]
    the events its predicate keeps, in log order; both fail when the log
    does not replay. *)
Theorem store_last_event_of_type_spec (st : Store) (t : EventType) (evs : list Event) :
  replay_lines (log st) = Some evs ->
  store_find_events st (fun e => event_type_eqb (event_type e) t)
    = Some (filter (fun e => event_type_eqb (event_type e) t) evs) /\
  (store_last_event_of_type st t = Some None <->
     forall e, In e evs -> event_type e <> t) /\
  (forall e, store_last_event_of_type st t = Some (Some e) ->
     exists pre post, evs = (pre ++ e :: post)%list /\ event_type e = t /\
                      forall e', In e' post -> event_type e' <> t).
Proof.
  intros H. unfold store_find_events, store_last_event_of_type. rewrite H. simpl.
  split; [reflexivity|]. split.
  - split.
    + intros Hn. injection Hn as Hn. rewrite find_none_iff in Hn.
      intros e He Ht. specialize (Hn e (proj1 (in_rev evs e) He)).
      rewrite Ht, event_type_eqb_refl in Hn. discriminate.
    + intros Hn. f_equal. apply find_none_iff. intros e He. apply in_rev in He.
      destruct (event_type_eqb (event_type e) t) eqn:E; [|reflexivity].
      apply event_type_eqb_eq in E. exfalso. exact (Hn e He E).
  - intros e He. injection He as He.
    destruct (find_split _ _ _ He) as [pre [post [Hs [Ht Hpre]]]].
    exists (rev post), (rev pre). split.
    + rewrite <- (rev_involutive evs), Hs, rev_app_distr. simpl. rewrite <- app_assoc. reflexivity.
    + split; [apply event_type_eqb_eq, Ht|].
      intros e' Hin Ht'. apply in_rev in Hin. specialize (Hpre e' Hin).
      rewrite Ht', event_type_eqb_refl in Hpre. discriminate.
Qed.

Lemma store_last_event_of_type_spec_witness :
  store_last_event_of_type
    {| log := [ERecord (mk_event "R1" None RunStarted "R1:start" SRunning)]; disk := [] |}
    RunCompleted = Some None.
Proof.
  apply (proj2 (proj1 (proj2 (store_last_event_of_type_spec
    {| log := [ERecord (mk_event "R1" None RunStarted "R1:start" SRunning)]; disk := [] |}
    RunCompleted [mk_event "R1" None RunStarted "R1:start" SRunning] eq_refl)))).
  intros e [<-|[]]. discriminate.
Defined.

End RunFacts.

(* ------------------------------------------------------------------ *)
(** ** The orchestrator: executor calls and outcomes *)

Module OrchFacts.

Import Orch Engine Views.
Open Scope string_scope.

Section Exec.

Variable execute : nat -> string -> string -> Z -> (string + string) * Z.
Variable glob : string -> string -> bool.

Lemma attempt_loop_retry_step (f : nat) (s : Step) (inp : string) (lim : SafetyLimits)
    (key : string) (attempt : Z) (st : St) (msg : string) (dt : Z) :
  execute (calls st) (action s) inp (step_timeout s lim) = (inr msg, dt) ->
  Retry.should_retry (retry_policy s) attempt = true ->
  exists st2, calls st2 = S (calls st) /\ id (run st2) = id (run st) /\
    (exists e1 e2, log (store st2) = (log (store st) ++ [ERecord e1; ERecord e2])%list) /\
    attempt_loop execute (S f) s inp lim key attempt st
    = attempt_loop execute f s inp lim key (attempt + 1) st2.
Proof.
  intros Hex Hr. cbn [attempt_loop].
  unfold bind, call_executor, now, get_run, modify_run, put_run, append, sleep.
  cbn -[Retry.should_retry Retry.delay_for_attempt z_to_dec attempt_loop].
  rewrite Hex. cbn -[Retry.should_retry Retry.delay_for_attempt z_to_dec attempt_loop].
  rewrite Hr. eexists. refine (conj _ (conj _ (conj _ eq_refl))); [reflexivity | reflexivity|].
  do 2 eexists. cbn. rewrite <- app_assoc. reflexivity.
Qed.

Lemma attempt_loop_calls (fuel : nat) (s : Step) (inp : string) (lim : SafetyLimits)
    (key : string) :
  forall (attempt : Z) (st : St),
  let st' := snd (attempt_loop execute fuel s inp lim key attempt st) in
  (S (calls st) <= calls st' <=
     calls st + Nat.max 1 (Z.to_nat (Retry.max_attempts (retry_policy s) - attempt + 1)))%nat /\
  ((forall n a i t, exists m dt, execute n a i t = (inr m, dt)) ->
   (Z.to_nat (Retry.max_attempts (retry_policy s) - attempt) <= fuel)%nat ->
   calls st' = (calls st + Nat.max 1 (Z.to_nat (Retry.max_attempts (retry_policy s) - attempt + 1)))%nat /\
   exists m, fst (attempt_loop execute fuel s inp lim key attempt st) = inr (EExec m)).
Proof.
  induction fuel as [|f IH]; intros attempt st.
  2: destruct (execute (calls st) (action s) inp (step_timeout s lim)) as [[out0|msg0] dt0] eqn:Hex0.
  3: destruct (Retry.should_retry (retry_policy s) attempt) eqn:Hr0.
  3: {
    destruct (attempt_loop_retry_step f s inp lim key attempt st msg0 dt0 Hex0 Hr0) as [st2 [Hc [_ [_ Heq]]]].
    cbv zeta. rewrite Heq. destruct (IH (attempt + 1) st2) as [[Hl Hu] He].
    cbv zeta in Hl, Hu, He. rewrite Hc in Hl, Hu, He.
    unfold Retry.should_retry in Hr0. apply Z.ltb_lt in Hr0.
    split; [lia|]. intros Hall Hf. destruct (He Hall ltac:(lia)) as [Hc' Hm].
    split; [lia | exact Hm]. }
  all: cbv zeta; cbn [attempt_loop];
    unfold bind, call_executor, now, get_run, modify_run, put_run, append, throw, ret,
      modify_tracker, put_tracker, store_artifact, sleep;
    cbn -[Retry.should_retry Retry.delay_for_attempt z_to_dec validate_output Nat.max Z.to_nat
          attempt_loop];
    destruct (execute (calls st) (action s) inp (step_timeout s lim)) as [[out|msg] dt] eqn:Hex;
    cbn -[Retry.should_retry Retry.delay_for_attempt z_to_dec validate_output Nat.max Z.to_nat
          attempt_loop]; try congruence.
  - destruct (validate_output lim out); cbn -[Nat.max Z.to_nat]; (split; [lia|]);
      intros Hall _; destruct (Hall (calls st) (action s) inp (step_timeout s lim)) as [m [dt' Hm]];
      congruence.
  - destruct (Retry.should_retry (retry_policy s) attempt); cbn -[Nat.max Z.to_nat];
      (split; [lia|]); intros _ Hf; (split; [lia | eexists; reflexivity]).
  - destruct (validate_output lim out); cbn -[Nat.max Z.to_nat]; (split; [lia|]);
      intros Hall _; destruct (Hall (calls st) (action s) inp (step_timeout s lim)) as [m [dt' Hm]];
      congruence.
  - rewrite Hr0. cbn -[Nat.max Z.to_nat].
    unfold Retry.should_retry in Hr0. apply Z.ltb_ge in Hr0.
    split; [lia|]. intros _ _. split; [lia | eexists; reflexivity].
Qed.

(** [execute_step_with_retry] calls the executor at most
    [max(1, max_attempts)] times: never when the log already records the
    step's completion, and, when every call fails, exactly
    [max(1, max_attempts)] times, ending with the last call's error. *)
Theorem execute_step_with_retry_calls (s : Step) (inp : string) (lim : SafetyLimits) (st : St) :
  let key := generate_idempotency_key (id (run st)) (step_name s) inp in
  let res := execute_step_with_retry execute s inp lim st in
  let bound := Nat.max 1 (Z.to_nat (Retry.max_attempts (retry_policy s))) in
  (calls st <= calls (snd res) <= calls st + bound)%nat /\
  (store_is_step_completed (store st) key = Some true -> calls (snd res) = calls st) /\
  (store_is_step_completed (store st) key = Some false ->
   (forall n a i t, exists m dt, execute n a i t = (inr m, dt)) ->
   calls (snd res) = (calls st + bound)%nat /\ exists m, fst res = inr (EExec m)).
Proof.
  cbv zeta. unfold execute_step_with_retry, bind, get_run, is_step_completed.
  cbn -[attempt_loop generate_idempotency_key Nat.max Z.to_nat].
  destruct (store_is_step_completed (store st) _) as [[|]|] eqn:E.
  - destruct (amap_get (step_name s) (artifacts (run st)));
      cbn -[Nat.max Z.to_nat]; (split; [lia|]); (split; [intros _; reflexivity | intros H; discriminate]).
  - destruct (attempt_loop_calls (Z.to_nat (Retry.max_attempts (retry_policy s))) s inp lim
                (generate_idempotency_key (id (run st)) (step_name s) inp) 1 st)
      as [[Hl Hu] He].
    cbv zeta in Hl, Hu, He.
    replace (Retry.max_attempts (retry_policy s) - 1 + 1)%Z
      with (Retry.max_attempts (retry_policy s)) in Hu, He by lia.
    split; [lia|]. split; [intros H; discriminate|]. intros _ Hall. apply He; [exact Hall | lia].
  - cbn -[Nat.max Z.to_nat]. split; [lia|]. split; intros H; discriminate.
Qed.

Lemma terminal_bind {A} (m : M A) (k : A -> M Run) :
  (forall a, terminal (k a)) -> terminal (bind m k).
Proof.
  intros Hk s. unfold bind. destruct (m s) as [[a|e] s']; [apply Hk | exact I].
Qed.

Lemma terminal_catch {A} (m : M A) (h : Error -> M Run) (k : A -> M Run) :
  (forall e, terminal (h e)) -> (forall a, terminal (k a)) -> terminal (catch m h k).
Proof.
  intros Hh Hk s. unfold catch. destruct (m s) as [[a|e] s']; [apply Hk | apply Hh].
Qed.

Lemma terminal_throw (e : Error) : terminal (throw e).
Proof. intros s. exact I. Qed.

Lemma terminal_handlers :
  (forall v, terminal (handle_safety_violation v)) /\ (forall e, terminal (handle_run_failure e)) /\
  terminal complete_run.
Proof.
  split; [|split]; [intros v s | intros e s | intros s]; cbn;
    (split; [reflexivity|]); unfold store_append, set_state, with_error, mk_event; cbn;
    eexists; eexists; (split; [reflexivity|]); (split; [reflexivity|]);
    [right; right | right; left | left]; eauto.
Qed.

Ltac terminal_tac :=
  repeat (cbv zeta; first
    [ solve [eauto]
    | apply terminal_bind; intros ?
    | apply terminal_catch; [intros ?|intros ?]
    | apply terminal_throw
    | match goal with |- terminal (match ?x with _ => _ end) => destruct x end ]).

Lemma terminal_run_steps (lim : SafetyLimits) (pinput : string) (ss : list Step) :
  forall idx arts, terminal (run_steps execute glob lim pinput idx ss arts).
Proof.
  destruct terminal_handlers as [H1 [H2 H3]].
  induction ss as [|st ss IH]; intros idx arts; cbn [run_steps]; [exact H3|].
  terminal_tac.
Qed.

Lemma terminal_resume_steps (lim : SafetyLimits) (rid pinput : string) (ss : list (nat * Step)) :
  forall arts, terminal (resume_steps execute lim rid pinput ss arts).
Proof.
  destruct terminal_handlers as [H1 [H2 H3]].
  induction ss as [|[idx st] ss IH]; intros arts; cbn [resume_steps]; [exact H3|].
  terminal_tac.
Qed.

(** Whenever [run_pipeline] or [resume_run] returns [Ok(run)], the run is
    finished ([Completed], [Failed] or [SafetyLimitReached]; never
    [Running]), it is the run the orchestrator holds, and the last record
    of the log is the matching terminal event ([RunCompleted], [RunFailed]
    or [SafetyLimitReached], with the error text as its [error]) for that
    run. *)
Theorem orchestrator_ok_is_terminal (p : Pipeline) (inp rid : string) (st : St) :
  match run_pipeline execute glob p inp rid st with
  | (inl r, st') => is_finished r = true /\ ends_terminal r st'
  | (inr _, _) => True
  end /\
  match resume_run execute rid p inp st with
  | (inl r, st') => is_finished r = true /\ ends_terminal r st'
  | (inr _, _) => True
  end.
Proof.
  assert (Hf : forall r s', ends_terminal r s' -> is_finished r = true /\ ends_terminal r s').
  { intros r s' H. split; [|exact H]. destruct H as [_ [l [e [_ [_ Hs]]]]].
    unfold is_finished, is_running.
    destruct Hs as [[-> _]|[[m [-> _]]|[m [-> _]]]]; reflexivity. }
  split.
  - assert (T : terminal (run_pipeline execute glob p inp rid)).
    { pose proof terminal_run_steps as H. unfold run_pipeline. terminal_tac. }
    specialize (T st). destruct (run_pipeline execute glob p inp rid st) as [[r|e] s'];
      [apply Hf, T | exact I].
  - assert (T : terminal (resume_run execute rid p inp)).
    { pose proof terminal_resume_steps as H. unfold resume_run. terminal_tac. }
    specialize (T st). destruct (resume_run execute rid p inp st) as [[r|e] s'];
      [apply Hf, T | exact I].
Qed.

Lemma position_name_nth (n : string) (names : list string) (i : nat) :
  position_name n names = Some i -> nth_error names i = Some n.
Proof.
  revert i; induction names as [|x names IH]; intros i H; cbn [position_name] in H; [discriminate|].
  destruct (String.eqb x n) eqn:E.
  - injection H as <-. apply String.eqb_eq in E. subst x. reflexivity.
  - destruct (position_name n names) as [j|] eqn:Hj; cbn in H; [|discriminate].
    injection H as <-. apply IH. reflexivity.
Qed.

Lemma validate_steps_cons (names : list string) (i : nat) (s : Step) (ss : list Step) :
  validate_steps names i (s :: ss) = inl tt ->
  String.eqb (step_name s) "" = false /\ validate_steps names (S i) ss = inl tt /\
  (forall ps, input_from s = PreviousStep ps ->
     exists j, position_name ps names = Some j /\ (j < i)%nat).
Proof.
  cbn [validate_steps]. destruct (String.eqb (step_name s) "") eqn:E; [discriminate|].
  intros H. split; [reflexivity|].
  destruct (input_from s) as [|ps|a|j]; try (split; [exact H | intros ps' Hp; discriminate]).
  destruct (position_name ps names) as [j|] eqn:Hj; [|discriminate].
  destruct (i <=? j)%nat eqn:Hij; [discriminate|].
  split; [exact H|]. intros ps' Hp. injection Hp as <-. exists j. split; [exact Hj|].
  apply Nat.leb_gt. exact Hij.
Qed.

Lemma run_steps_errors (lim : SafetyLimits) (pinput : string) (names : list string) :
  forall ss prefix idx arts s,
  names = (prefix ++ map step_name ss)%list ->
  validate_steps names (List.length prefix) ss = inl tt ->
  (forall n, In n prefix -> amap_get n arts <> None) ->
  match fst (run_steps execute glob lim pinput idx ss arts s) with
  | inr e => validated_error e
  | inl _ => True
  end.
Proof.
  induction ss as [|s0 ss IH]; intros prefix idx arts s Hn Hv Ha.
  - cbn. exact I.
  - cbn [run_steps]. unfold bind, modify_run, put_run, now, get_tracker, catch, throw.
    cbn -[execute_step_with_retry run_steps check resolve_input validate_input
          handle_safety_violation handle_run_failure].
    destruct (check _ _ _) as [v|]; [cbn; exact I|].
    apply validate_steps_cons in Hv. destruct Hv as [_ [Hv Hp]].
    destruct (resolve_input pinput arts s0) as [sin|e] eqn:Er.
    + destruct (validate_input _ lim sin None) as [v|] eqn:Ev.
      * cbn. left. unfold validate_input in Ev.
        destruct (_ <? _)%Z; [injection Ev as <-; do 2 eexists; reflexivity | discriminate].
      * match goal with |- context [execute_step_with_retry execute ?a ?b ?c ?d] =>
          destruct (execute_step_with_retry execute a b c d) as [[x|e] st2] end;
          [|cbn; exact I].
        cbn -[run_steps].
        apply (IH (prefix ++ [step_name s0])%list).
        -- rewrite <- app_assoc. exact Hn.
        -- rewrite length_app, Nat.add_comm. exact Hv.
        -- intros n Hin. rewrite RunFacts.amap_get_insert.
           destruct (String.eqb n (step_name s0)) eqn:E; [discriminate|].
           apply in_app_or in Hin. destruct Hin as [Hin|[Hin|[]]]; [apply Ha, Hin|].
           subst n. rewrite String.eqb_refl in E. discriminate.
    + cbn. unfold resolve_input in Er.
      destruct (input_from s0) as [|ps|a|j] eqn:Ei; try discriminate.
      * destruct (Hp ps eq_refl) as [j [Hj Hlt]].
        apply position_name_nth in Hj. rewrite Hn, nth_error_app1 in Hj by exact Hlt.
        apply nth_error_In in Hj. destruct (amap_get ps arts) eqn:Eg; [discriminate|].
        exfalso. exact (Ha ps Hj Eg).
      * destruct (amap_get a arts); [discriminate|]. injection Er as <-. right; eauto.
Qed.

(** For a pipeline that passes [Pipeline::validate], [run_pipeline] never
    fails because a [previous_step] input names a step that has produced
    no artifact: every error it returns is an input-size violation
    ([MaxInputBytes]) or a missing [artifact] input. Executor failures and
    the other safety limits end the run through [handle_run_failure] or
    [handle_safety_violation] instead. *)
Theorem run_pipeline_validated_errors (p : Pipeline) (inp rid : string) (st : St)
    (Hv : validate p = inl tt) :
  match fst (run_pipeline execute glob p inp rid st) with
  | inr e => validated_error e
  | inl _ => True
  end.
Proof.
  unfold run_pipeline, bind, put_run, now, put_tracker, append. cbn -[run_steps].
  apply (run_steps_errors _ _ (map step_name (steps p)) (steps p) []); [reflexivity| |intros n []].
  unfold validate in Hv. destruct (String.eqb (name p) ""); [discriminate|].
  destruct (steps p); [discriminate|exact Hv].
Qed.

Lemma keeps_bind {A B} (m : M A) (k : A -> M B) :
  keeps_artifacts m -> (forall a, keeps_artifacts (k a)) -> keeps_artifacts (bind m k).
Proof.
  intros Hm Hk s. specialize (Hm s). unfold bind.
  destruct (m s) as [[a|e] s']; simpl in *; [rewrite Hk|]; exact Hm.
Qed.

Lemma keeps_catch {A B} (m : M A) (h : Error -> M B) (k : A -> M B) :
  keeps_artifacts m -> (forall e, keeps_artifacts (h e)) -> (forall a, keeps_artifacts (k a)) ->
  keeps_artifacts (catch m h k).
Proof.
  intros Hm Hh Hk s. specialize (Hm s). unfold catch.
  destruct (m s) as [[a|e] s']; simpl in *; [rewrite Hk | rewrite Hh]; exact Hm.
Qed.

Lemma keeps_replay : keeps_artifacts replay.
Proof. intros s. unfold replay. destruct (replay_lines _); reflexivity. Qed.

Lemma keeps_is_step_completed (k : string) : keeps_artifacts (is_step_completed k).
Proof. intros s. unfold is_step_completed. destruct (store_is_step_completed _ _); reflexivity. Qed.

Lemma keeps_call_executor (n c : string) (t : Z) : keeps_artifacts (call_executor execute n c t).
Proof. intros s. unfold call_executor. destruct (execute _ _ _ _); reflexivity. Qed.

Ltac keeps_tac :=
  repeat (cbv zeta; first
    [ solve [eauto]
    | apply keeps_bind; [|intros ?]
    | apply keeps_catch; [|intros ?|intros ?]
    | match goal with |- keeps_artifacts (match ?x with _ => _ end) => destruct x end
    | solve [intros ?; unfold ret, throw, get_run, get_tracker, now, modify_run, put_run,
               modify_tracker, put_tracker, append, store_artifact, sleep; reflexivity]
    | apply keeps_replay | apply keeps_is_step_completed | apply keeps_call_executor ]).

Lemma keeps_execute_step_with_retry (s : Step) (inp : string) (lim : SafetyLimits) :
  keeps_artifacts (execute_step_with_retry execute s inp lim).
Proof.
  assert (H : forall fuel key attempt,
             keeps_artifacts (attempt_loop execute fuel s inp lim key attempt)).
  { intros fuel key; induction fuel as [|f IH]; intros attempt; cbn [attempt_loop]; keeps_tac. }
  unfold execute_step_with_retry. keeps_tac.
Qed.

Lemma run_steps_artifacts (lim : SafetyLimits) (pinput : string) :
  forall ss prefix idx arts s,
  (forall n, In n prefix -> amap_get n (artifacts (run s)) <> None) ->
  match run_steps execute glob lim pinput idx ss arts s with
  | (inl r, _) => state r = RCompleted ->
                  forall n, In n (prefix ++ map step_name ss)%list -> amap_get n (artifacts r) <> None
  | (inr _, _) => True
  end.
Proof.
  induction ss as [|s0 ss IH]; intros prefix idx arts s Ha.
  - cbn. intros _ n Hn. rewrite app_nil_r in Hn. apply Ha, Hn.
  - cbn [run_steps]. unfold bind, modify_run, put_run, now, get_tracker, catch, throw.
    cbn -[execute_step_with_retry run_steps check resolve_input validate_input
          handle_safety_violation handle_run_failure].
    destruct (check _ _ _) as [v|]; [cbn; intros Hc; discriminate|].
    destruct (resolve_input pinput arts s0) as [sin|e]; [|exact I].
    destruct (validate_input _ lim sin None) as [v|]; [exact I|].
    match goal with |- context [execute_step_with_retry execute ?a ?b ?c ?d] =>
      pose proof (keeps_execute_step_with_retry a b c d) as K; unfold keeps_artifacts in K;
      destruct (execute_step_with_retry execute a b c d) as [[x|e] st2] eqn:Ex end;
      [|cbn; intros Hc; discriminate].
    try rewrite Ex in K. cbn in K.
    cbn -[run_steps].
    change (step_name s0 :: map step_name ss)%list with ([step_name s0] ++ map step_name ss)%list.
    rewrite (app_assoc prefix [step_name s0] (map step_name ss)).
    apply IH. intros n Hin. cbn. rewrite RunFacts.amap_get_insert, K.
    destruct (String.eqb n (step_name s0)) eqn:E; [discriminate|].
    apply in_app_or in Hin. destruct Hin as [Hin|[Hin|[]]]; [apply Ha, Hin|].
    subst n. rewrite String.eqb_refl in E. discriminate.
Qed.

(** When [run_pipeline] returns a [Completed] run, that run holds an
    artifact for every step of the pipeline, under the step's name. *)
Theorem run_pipeline_completed_artifacts (p : Pipeline) (inp rid : string) (st : St) :
  match run_pipeline execute glob p inp rid st with
  | (inl r, _) => state r = RCompleted ->
                  forall s, In s (steps p) -> exists a, amap_get (step_name s) (artifacts r) = Some a
  | (inr _, _) => True
  end.
Proof.
  unfold run_pipeline, bind, put_run, now, put_tracker, append. cbn -[run_steps].
  pose proof (run_steps_artifacts (safety_limits p) inp (steps p) [] 0 []
    {| store := store_append (store st) (mk_event rid None RunStarted (rid ++ ":start") SRunning);
       calls := calls st; clock := clock st; run := new_run rid (name p) inp;
       tracker := new_tracker (clock st) |}) as H.
  destruct (run_steps _ _ _ _ _ _ _ _) as [[r|e] s']; [|exact I].
  intros Hc s Hs. specialize (H (fun n Hn => match Hn with end) Hc (step_name s) (in_map _ _ _ Hs)).
  destruct (amap_get (step_name s) (artifacts r)) as [a|]; [exists a; reflexivity | congruence].
Qed.

End Exec.

Lemma run_pipeline_validated_errors_witness :
  validate Scenario.art_pipe = inl tt /\
  match fst (run_pipeline Scenario.exec (fun _ _ => false) Scenario.art_pipe "hello" "R1" Scenario.fresh) with
  | inr e => validated_error e
  | inl _ => True
  end.
Proof.
  split; [reflexivity|].
  apply (run_pipeline_validated_errors Scenario.exec (fun _ _ => false)). reflexivity.
Defined.

End OrchFacts.

(* ------------------------------------------------------------------ *)
(** ** Pipeline definitions: validation and lookup by name *)

Module PipelineFacts.

Import Orch Engine.
Open Scope string_scope.

Lemma validate_steps_iff (names : list string) :
  forall ss i,
  validate_steps names i ss = inl tt <->
  forall k s, nth_error ss k = Some s ->
    step_name s <> "" /\
    forall ps, input_from s = PreviousStep ps ->
      exists j, position_name ps names = Some j /\ (j < i + k)%nat.
Proof.
  induction ss as [|s0 ss IH]; intros i; split.
  - intros _ k s Hk. destruct k; discriminate.
  - intros _. reflexivity.
  - intros H. pose proof (OrchFacts.validate_steps_cons names i s0 ss H) as [E [Hv Hc]].
    intros k s Hk. destruct k as [|k]; cbn in Hk.
    + injection Hk as <-. split.
      * intros Hn. rewrite Hn in E. discriminate.
      * intros ps Hp. destruct (Hc ps Hp) as [j [Hj Hl]]. exists j. split; [exact Hj | lia].
    + destruct (proj1 (IH (S i)) Hv k s Hk) as [Hn Hp]. split; [exact Hn|].
      intros ps Hps. destruct (Hp ps Hps) as [j [Hj Hl]]. exists j. split; [exact Hj | lia].
  - intros H. cbn [validate_steps].
    destruct (H 0%nat s0 eq_refl) as [Hn Hp]. apply String.eqb_neq in Hn. rewrite Hn.
    assert (Hrest : validate_steps names (S i) ss = inl tt).
    { apply (proj2 (IH (S i))). intros k s Hk. destruct (H (S k) s Hk) as [Hn' Hp']. split; [exact Hn'|].
      intros ps Hps. destruct (Hp' ps Hps) as [j [Hj Hl]]. exists j. split; [exact Hj | lia]. }
    destruct (input_from s0) as [|ps|a|j] eqn:Ei; try exact Hrest.
    destruct (Hp ps eq_refl) as [j [Hj Hl]]. rewrite Hj.
    replace (i <=? j)%nat with false by (symmetry; apply Nat.leb_gt; lia). exact Hrest.
Qed.

(** [Pipeline::validate] accepts a pipeline exactly when its name is
    non-empty, it has at least one step, every step name is non-empty,
    and every [previous_step] input of the step at index [i] names a step
    whose first position in the pipeline ([step_index]) is below [i]. It
    checks nothing else: duplicate step names, for instance, are
    accepted. *)
Theorem validate_spec (p : Pipeline) :
  validate p = inl tt <->
  name p <> "" /\ steps p <> [] /\
  forall i s, nth_error (steps p) i = Some s ->
    step_name s <> "" /\
    forall ps, input_from s = PreviousStep ps ->
      exists j, step_index p ps = Some j /\ (j < i)%nat.
Proof.
  unfold validate, step_index. destruct (String.eqb (name p) "") eqn:E.
  - split; [discriminate|]. intros [Hn _]. apply String.eqb_eq in E. contradiction.
  - apply String.eqb_neq in E. destruct (steps p) as [|s0 ss] eqn:Es.
    + split; [discriminate|]. intros [_ [H _]]. contradiction.
    + rewrite validate_steps_iff. split.
      * intros H. split; [exact E|]. split; [discriminate|]. exact H.
      * intros [_ [_ H]]. exact H.
Qed.

(** [Pipeline::step_index] returns the index of the first step with the
    given name, and [Pipeline::get_step] returns the step at that index
    ([None] when no step has the name). *)
Theorem get_step_step_index (p : Pipeline) (n : string) :
  get_step p n = match step_index p n with Some i => nth_error (steps p) i | None => None end /\
  forall i, step_index p n = Some i ->
    (exists s, nth_error (steps p) i = Some s /\ step_name s = n) /\
    forall j s, (j < i)%nat -> nth_error (steps p) j = Some s -> step_name s <> n.
Proof.
  unfold get_step, step_index. induction (steps p) as [|s0 ss IH].
  - split; [reflexivity | intros i H; discriminate].
  - cbn [find map position_name]. destruct (String.eqb (step_name s0) n) eqn:E.
    + split; [reflexivity|]. intros i H. injection H as <-. split.
      * exists s0. split; [reflexivity | apply String.eqb_eq, E].
      * intros j s Hj. lia.
    + destruct IH as [IH1 IH2]. split.
      * rewrite IH1. destruct (position_name n (map step_name ss)); reflexivity.
      * intros i H. destruct (position_name n (map step_name ss)) as [i'|] eqn:Hp;
          cbn in H; [|discriminate].
        injection H as <-. destruct (IH2 i' eq_refl) as [[s [Hs Hn]] Hlt].
        split; [exists s; split; assumption|].
        intros j s' Hj Hs'. destruct j as [|j]; cbn in Hs'.
        -- injection Hs' as <-. intros Heq. rewrite Heq, String.eqb_refl in E. discriminate.
        -- apply (Hlt j s'); [lia | exact Hs'].
Qed.

End PipelineFacts.

(* ------------------------------------------------------------------ *)
(** ** Event store: idempotency keys and artifacts *)

Module KeyFacts.

Import Sha256 Orch Views.
Open Scope string_scope.

Lemma string_length_app (a b : string) :
  String.length (a ++ b) = (String.length a + String.length b)%nat.
Proof. induction a as [|c a IH]; simpl; [reflexivity | rewrite IH; reflexivity]. Qed.

Lemma string_app_cancel_l (a b c : string) : a ++ b = a ++ c -> b = c.
Proof. induction a as [|x a IH]; simpl; intros H; [exact H | injection H; exact IH]. Qed.

Lemma string_app_cancel_len (x y h1 h2 : string) :
  String.length h1 = String.length h2 -> x ++ h1 = y ++ h2 -> x = y /\ h1 = h2.
Proof.
  revert y; induction x as [|c x IH]; intros [|d y] Hl H; simpl in H.
  - split; [reflexivity | exact H].
  - subst h1. simpl in Hl. rewrite string_length_app in Hl. lia.
  - subst h2. simpl in Hl. rewrite string_length_app in Hl. lia.
  - injection H as <- H. destruct (IH y Hl H) as [-> ->]. split; reflexivity.
Qed.

(** [hash_input] is 16 lowercase hex characters (the first 8 bytes of
    the SHA-256 digest). For one run id, [generate_idempotency_key] gives
    equal keys only for the same step name and the same [hash_input]: the
    keys of two differently named steps never collide, whatever colons
    the names contain. *)
Theorem generate_idempotency_key_inj (rid s1 s2 i1 i2 : string) :
  generate_idempotency_key rid s1 i1 = generate_idempotency_key rid s2 i2 ->
  String.length (hash_input i1) = 16%nat /\ all_chars is_lower_hex (hash_input i1) = true /\
  s1 = s2 /\ hash_input i1 = hash_input i2.
Proof.
  assert (Hlen : forall i, String.length (hash_input i) = 16%nat).
  { intros i. unfold hash_input. rewrite HashFacts.hex_encode_length, length_firstn,
      HashFacts.digest_length. reflexivity. }
  intros H. unfold generate_idempotency_key in H.
  apply string_app_cancel_l in H. injection H as H.
  apply string_app_cancel_len in H; [|simpl; rewrite !Hlen; reflexivity].
  destruct H as [Hs Hh]. injection Hh as Hh.
  split; [apply Hlen|]. split; [|split; assumption].
  unfold hash_input. apply HashFacts.hex_encode_lower.
  apply EvidenceFacts.firstn_range, HashFacts.digest_range.
Qed.

Lemma generate_idempotency_key_inj_witness :
  "A" = "A" /\ hash_input "hello" = hash_input "hello".
Proof.
  exact (proj2 (proj2 (generate_idempotency_key_inj "R1" "A" "A" "hello" "hello" eq_refl))).
Defined.

End KeyFacts.

(* ------------------------------------------------------------------ *)
(** ** Whitespace normalisation of the span hint *)

Module NormalizeFacts.

Import Spans Views.

Definition word_ok (w : list Z) : Prop := w <> [] /\ Forall (fun b => space_byte b = false) w.

Lemma words_ok (fuel : nat) :
  forall l cur, Forall (fun b => space_byte b = false) cur -> Forall word_ok (words fuel l cur).
Proof.
  assert (Hflush : forall cur, Forall (fun b => space_byte b = false) cur ->
            Forall word_ok (match cur with [] => [] | _ => [rev cur] end)).
  { intros [|c cur] Hc; [constructor|]. constructor; [|constructor].
    split; [|apply Forall_rev, Hc].
    intros H. apply (f_equal (@List.length Z)) in H. rewrite length_rev in H. discriminate. }
  induction fuel as [|f IH]; intros l cur Hc; cbn [words]; cbv zeta; [apply Hflush, Hc|].
  destruct l as [|b rest]; [apply Hflush, Hc|].
  destruct (ws_len (b :: rest)) as [|n] eqn:E.
  - apply IH. constructor; [|exact Hc].
    unfold ws_len in E. unfold space_byte.
    destruct (((9 <=? b) && (b <=? 13)) || (b =? 32)); [discriminate | reflexivity].
  - apply Forall_app. split; [apply Hflush, Hc | apply IH; constructor].
Qed.

Lemma no_double_space_word (w t : list Z) :
  Forall (fun b => space_byte b = false) w -> w <> [] ->
  t <> [] -> hd_error t <> Some 32 -> no_double_space t = true ->
  no_double_space (w ++ 32 :: t) = true.
Proof.
  intros Hw. induction Hw as [|a w Ha Hw IH]; intros Hne Ht Hh Hd; [contradiction|].
  assert (Ha32 : (a =? 32) = false).
  { unfold space_byte in Ha. destruct (a =? 32); [|reflexivity].
    rewrite orb_true_r in Ha. discriminate. }
  destruct w as [|b w].
  - destruct t as [|c t]; [contradiction|].
    assert (Hc : (c =? 32) = false).
    { destruct (Z.eqb_spec c 32); [subst c; contradiction Hh; reflexivity | reflexivity]. }
    change (negb ((a =? 32) && (32 =? 32)) &&
            (negb ((32 =? 32) && (c =? 32)) && no_double_space (c :: t)) = true).
    rewrite Ha32, Hc, Hd. reflexivity.
  - change (no_double_space (a :: (b :: w ++ 32 :: t)) = true).
    cbn [no_double_space]. rewrite Ha32. cbn [andb negb].
    apply (IH ltac:(discriminate) Ht Hh Hd).
Qed.

Lemma join_space_shape (ws : list (list Z)) :
  Forall word_ok ws ->
  Forall (fun b => space_byte b = false \/ b = 32) (join_space ws) /\
  (ws <> [] -> join_space ws <> [] /\ hd_error (join_space ws) <> Some 32 /\
               hd_error (rev (join_space ws)) <> Some 32) /\
  no_double_space (join_space ws) = true.
Proof.
  assert (Hhd : forall w, word_ok w -> forall t, hd_error (w ++ t) <> Some 32).
  { intros [|a w] [Hne Hw] t; [contradiction|]. cbn. inversion Hw as [|? ? Ha]; subst.
    intros Heq. injection Heq as ->. discriminate. }
  assert (Hlast : forall w, word_ok w -> forall t, hd_error (rev (t ++ w)) <> Some 32).
  { intros w [Hne Hw] t. rewrite rev_app_distr.
    apply Forall_rev in Hw. destruct (rev w) as [|a r] eqn:Er.
    - apply (f_equal (@rev Z)) in Er. rewrite rev_involutive in Er. contradiction.
    - cbn. inversion Hw as [|? ? Ha]; subst. intros Heq. injection Heq as ->. discriminate. }
  induction 1 as [|w ws Hw Hws IH]; [split; [constructor | split; [contradiction | reflexivity]]|].
  destruct IH as [IHf [IHn IHd]].
  destruct ws as [|w' ws'].
  - cbn [join_space]. destruct Hw as [Hne Hwf]. split; [|split].
    + eapply Forall_impl; [|exact Hwf]. intros b Hb. left; exact Hb.
    + intros _. split; [exact Hne|]. split.
      * rewrite <- (app_nil_r w). apply Hhd. split; assumption.
      * exact (Hlast w (conj Hne Hwf) []).
    + clear -Hwf. induction Hwf as [|a w Ha Hw IH]; [reflexivity|].
      destruct w as [|b w]; [reflexivity|].
      change (negb ((a =? 32) && (b =? 32)) && no_double_space (b :: w) = true).
      rewrite IH. unfold space_byte in Ha. destruct (a =? 32); [|reflexivity].
      rewrite orb_true_r in Ha. discriminate.
  - change (join_space (w :: w' :: ws')) with (w ++ [32] ++ join_space (w' :: ws'))%list.
    destruct (IHn ltac:(discriminate)) as [Hn [Hh Hl]].
    split; [|split].
    + apply Forall_app. split; [|constructor; [right; reflexivity | exact IHf]].
      destruct Hw as [_ Hwf]. eapply Forall_impl; [|exact Hwf]. intros b Hb. left; exact Hb.
    + intros _. split; [destruct Hw as [Hne _]; destruct w; [contradiction | discriminate]|].
      split; [apply Hhd, Hw|].
      rewrite app_assoc. destruct (join_space (w' :: ws')) as [|c t] eqn:Ej; [contradiction|].
      rewrite rev_app_distr. cbn [rev] in Hl |- *. rewrite <- app_assoc.
      destruct (rev t) as [|d r]; exact Hl.
    + destruct Hw as [Hne Hwf]. apply no_double_space_word; assumption.
Qed.

(** [normalize_whitespace] never begins or ends with a space, never has
    two spaces in a row, and keeps no tab, newline or other ASCII
    whitespace: its only one-byte whitespace is the single space it puts
    between words. *)
Theorem normalize_whitespace_shape (t : list Z) :
  Forall (fun b => space_byte b = false \/ b = 32) (normalize_whitespace t) /\
  hd_error (normalize_whitespace t) <> Some 32 /\
  hd_error (rev (normalize_whitespace t)) <> Some 32 /\
  no_double_space (normalize_whitespace t) = true.
Proof.
  unfold normalize_whitespace.
  destruct (join_space_shape (words (S (List.length t)) t []) (words_ok _ _ _ (Forall_nil _)))
    as [Hf [Hn Hd]].
  split; [exact Hf|]. split; [|split; [|exact Hd]].
  - destruct (words (S (List.length t)) t []) as [|w ws] eqn:E; [discriminate|].
    apply Hn. discriminate.
  - destruct (words (S (List.length t)) t []) as [|w ws] eqn:E; [discriminate|].
    apply Hn. discriminate.
Qed.

End NormalizeFacts.
